(** * Debounce coordinator and batch dispatcher of the LangGraph gateway

    A shallow embedding of [src/api/main.py] (the [/messages] endpoint, the
    debounce store, the delayed flush and the per-agent dispatcher) and of
    [src/agents/simple_agent.py] ([SimpleAgent.process] and its graph).

    Python objects that are mutated through aliases (the parsed
    [MessageInput] objects) live in an explicit heap; the asyncio event loop
    is an explicit list of tasks that a schedule advances from one [await]
    to the next.  Integers are unbounded ([Z]); the delay of a flush is a
    binary64 float, obtained by a conversion that can raise
    [OverflowError]. *)

From Stdlib Require Import ZArith.
From Stdlib Require SpecFloat.
From Stdlib Require PrimFloat.
From stdpp Require Import gmap strings list pretty.

Local Open Scope string_scope.
Local Open Scope list_scope.

(** ** Data model *)

(** Python exceptions (subclasses of [Exception]) are carried as their text. *)
Definition exn := string.

(** [class MessageInput(BaseModel)] *)
Record MessageInput := {
  mensagem : string;
  agent_id : string;
  debounce : Z;
  session_id : option string;
  message_id : option string;
  cliente_id : option string;
  user_id : string;
  id_conta : string
}.

(** A skill entry of an agent configuration; every field is read with
    [skill.get(..., default)] in the source. *)
Record Skill := {
  sk_name : option string;
  sk_description : option string;
  sk_context : option string;
  sk_keywords : list string
}.

(** An entry of [agents_storage].  The temperature and the two timestamps are
    only forwarded to the LLM client and are left out. *)
Record AgentConfig := {
  ac_id : string;
  ac_name : string;
  ac_description : string;
  ac_instructions : string;
  ac_model : string;
  ac_max_tokens : Z;
  ac_skills : list Skill;
  ac_webhook_url : string
}.

(** The dictionary [agent.process] returns. *)
Record Response := {
  r_messages : list string;
  r_transferir : bool;
  r_session_id : string;
  r_user_id : string;
  r_agent_id : string;
  r_custom : list (list (string * string));
  r_agent_usage : list (string * string)
}.

(** Messages handed to [llm.invoke]. *)
Inductive ChatMessage :=
| SystemMessage (content : string)
| HumanMessage (content : string).

(** What [llm.invoke] returns: [lr_content = None] stands for an object
    without a [content] attribute, printed by [str] as [lr_str]. *)
Record LLMReply := {
  lr_content : option string;
  lr_str : string;
  lr_usage : option (list (string * string))
}.

(** What the world outside the process does while one message is being
    handled: the value [uuid.uuid4()] yields, the clock, the LLM, and a
    failure of the graph runtime (or of the state validation) if any. *)
Record Behaviour := {
  uuid4 : string;
  now : string;
  llm_invoke : list ChatMessage -> exn + LLMReply;
  graph_fault : option exn
}.

(** ** Python truthiness of [Optional[str]] and of [str] *)

Definition str_truthy (s : string) : bool := negb (String.eqb s "").

Definition opt_truthy (o : option string) : bool :=
  match o with Some s => str_truthy s | None => false end.

(** [o or d] *)
Definition py_or (o : option string) (d : string) : string :=
  match o with
  | Some s => if str_truthy s then s else d
  | None => d
  end.

(** ** Batch key: [f"{msg.agent_id}_{msg.user_id}_{msg.session_id or 'no_session'}"] *)

Definition debounce_key (msg : MessageInput) : string :=
  agent_id msg +:+ "_" +:+ user_id msg +:+ "_" +:+ py_or (session_id msg) "no_session".

(** ** Insertion-ordered dictionaries of lists

    [debounce_groups] and [agent_groups] are Python dicts filled by
    [if k not in d: d[k] = []] followed by [d[k].append(v)], and later
    iterated with [.items()]: order of first insertion matters. *)

Fixpoint dict_append {V} (k : string) (v : V) (d : list (string * list V))
  : list (string * list V) :=
  match d with
  | [] => [(k, [v])]
  | (k', vs) :: d' =>
      if decide (k' = k) then (k', vs ++ [v]) :: d'
      else (k', vs) :: dict_append k v d'
  end.

Definition group_by {V} (key : V -> string) (l : list V) : list (string * list V) :=
  foldl (fun d v => dict_append (key v) v d) [] l.

Fixpoint dict_get {V} (k : string) (d : list (string * list V)) : option (list V) :=
  match d with
  | [] => None
  | (k', vs) :: d' => if decide (k' = k) then Some vs else dict_get k d'
  end.

(** The distinct elements of a list, each at the place of its first
    occurrence: the order in which a dict filled from the list iterates. *)
Fixpoint first_occurrences (l : list string) : list string :=
  match l with
  | [] => []
  | x :: l' => x :: filter (λ y, y ≠ x) (first_occurrences l')
  end.

(** ** Heap of message objects *)

(** References are indices into the heap. *)
Abbreviation loc := nat.
Abbreviation heap := (list MessageInput).

Definition null_message : MessageInput :=
  {| mensagem := ""; agent_id := ""; debounce := 0; session_id := None;
     message_id := None; cliente_id := None; user_id := ""; id_conta := "" |}.

(** Field access through a reference. *)
Definition deref (h : heap) (l : loc) : MessageInput := default null_message (h !! l).

(** The request body parsed into fresh objects. *)
Definition alloc (h : heap) (msgs : list MessageInput) : heap * list loc :=
  (h ++ msgs, seq (length h) (length msgs)).

(** [msg.session_id = v] *)
Definition set_session_id (v : string) (m : MessageInput) : MessageInput :=
  {| mensagem := mensagem m; agent_id := agent_id m; debounce := debounce m;
     session_id := Some v; message_id := message_id m; cliente_id := cliente_id m;
     user_id := user_id m; id_conta := id_conta m |}.

(** ** Error handling: [try: ... except Exception as e: ...] *)

Definition try_except {A} (body : exn + A) (handler : exn -> exn + A) : exn + A :=
  match body with
  | inl e => handler e
  | inr a => inr a
  end.

(** ** [SimpleAgent] ([src/agents/simple_agent.py]) *)

Module SimpleAgent.

(** [needle in hay] on strings. *)
Fixpoint str_contains (needle hay : string) : bool :=
  if String.prefix needle hay then true
  else match hay with
       | EmptyString => false
       | String _ hay' => str_contains needle hay'
       end.

Definition nl : string := String (Ascii.ascii_of_nat 10) EmptyString.

Record SkillContext := {
  sc_name : string;
  sc_description : string;
  sc_context : string
}.

(** [AgentState.context]: the three keys [_process_message] writes, and the
    [skills] key ([[]] when the key is absent). *)
Record Context := {
  ctx_agent_name : option string;
  ctx_timestamp : option string;
  ctx_model : option string;
  ctx_skills : list SkillContext
}.

(** [class AgentState(BaseModel)] *)
Record AgentState := {
  messages : list string;
  st_user_id : string;
  st_session_id : string;
  st_agent_id : string;
  st_tenant_id : string;
  context : Context;
  skills_used : list string;
  transferir : bool;
  custom : list (list (string * string));
  agent_usage : list (string * string)
}.

(** The attributes [__init__] copies out of the configuration. *)
Record t := {
  self_agent_id : string;
  self_name : string;
  self_instructions : string;
  self_model : string;
  self_skills : list Skill
}.

Definition init (agent_config : AgentConfig) : t :=
  {| self_agent_id := ac_id agent_config;
     self_name := ac_name agent_config;
     self_instructions := ac_instructions agent_config;
     self_model := ac_model agent_config;
     self_skills := ac_skills agent_config |}.

Definition fallback_text : string :=
  "Desculpe, ocorreu um erro ao processar sua mensagem.".

Section Nodes.
  (** Python's [str.lower]; its case tables are not part of the repository. *)
Variable str_lower : string -> string.
Variable self : t.
Variable world : Behaviour.

Definition _process_message (state : AgentState) : AgentState :=
    {| messages := messages state; st_user_id := st_user_id state;
       st_session_id := st_session_id state; st_agent_id := st_agent_id state;
       st_tenant_id := st_tenant_id state;
       context := {| ctx_agent_name := Some (self_name self);
                     ctx_timestamp := Some (now world);
                     ctx_model := Some (self_model self);
                     ctx_skills := ctx_skills (context state) |};
       skills_used := skills_used state; transferir := transferir state;
       custom := custom state; agent_usage := agent_usage state |}.

Definition skill_relevant (message_lower : string) (skill : Skill) : bool :=
    existsb (fun keyword => str_contains (str_lower keyword) message_lower)
            (sk_keywords skill).

Definition skill_context (skill : Skill) : SkillContext :=
    {| sc_name := default "" (sk_name skill);
       sc_description := default "" (sk_description skill);
       sc_context := default "" (sk_context skill) |}.

Definition _apply_skills (state : AgentState) : AgentState :=
    match self_skills self with
    | [] => state
    | _ =>
        let message := hd "" (messages state) in
        let message_lower := str_lower message in
        let relevant_skills := List.filter (skill_relevant message_lower) (self_skills self) in
        {| messages := messages state; st_user_id := st_user_id state;
           st_session_id := st_session_id state; st_agent_id := st_agent_id state;
           st_tenant_id := st_tenant_id state;
           context :=
             match relevant_skills with
             | [] => context state
             | _ => {| ctx_agent_name := ctx_agent_name (context state);
                       ctx_timestamp := ctx_timestamp (context state);
                       ctx_model := ctx_model (context state);
                       ctx_skills := map skill_context relevant_skills |}
             end;
           skills_used := skills_used state
                          ++ map (fun skill => default "unknown" (sk_name skill)) relevant_skills;
           transferir := transferir state; custom := custom state;
           agent_usage := agent_usage state |}
    end.

Definition skill_line (skill : SkillContext) : string :=
    "- " +:+ sc_name skill +:+ ": " +:+ sc_description skill +:+ nl
    +:+ (if str_truthy (sc_context skill)
         then "  Contexto: " +:+ sc_context skill +:+ nl else "").

Definition system_prompt (state : AgentState) : string :=
    match ctx_skills (context state) with
    | [] => self_instructions self
    | skills =>
        foldl (fun acc skill => acc +:+ skill_line skill)
              (self_instructions self +:+ nl +:+ nl +:+ "Skills disponíveis:" +:+ nl)
              skills
    end.

Definition llm_messages (state : AgentState) : list ChatMessage :=
    [SystemMessage (system_prompt state);
     HumanMessage (hd "Olá" (messages state))].

Definition with_reply (state : AgentState) (msgs : list string)
      (usage : list (string * string)) : AgentState :=
    {| messages := msgs; st_user_id := st_user_id state;
       st_session_id := st_session_id state; st_agent_id := st_agent_id state;
       st_tenant_id := st_tenant_id state; context := context state;
       skills_used := skills_used state; transferir := transferir state;
       custom := custom state; agent_usage := usage |}.

Definition _generate_response (state : AgentState) : AgentState :=
    match llm_invoke world (llm_messages state) with
    | inr response =>
        let response_text := default (lr_str response) (lr_content response) in
        with_reply state [response_text]
                   (default (agent_usage state) (lr_usage response))
    | inl e =>
        with_reply state [fallback_text] (agent_usage state)
    end.

  (** [self.graph.invoke]: the three nodes in the order of the edges the
      source declares, unless the graph runtime itself raises. *)
Definition graph_invoke (initial_state : AgentState) : exn + AgentState :=
    match graph_fault world with
    | Some e => inl e
    | None => inr (_generate_response (_apply_skills (_process_message initial_state)))
    end.

Definition fallback_response (user_id session_id : string) : Response :=
    {| r_messages := [fallback_text]; r_transferir := false;
       r_session_id := session_id; r_user_id := user_id;
       r_agent_id := self_agent_id self; r_custom := []; r_agent_usage := [] |}.

(** [AgentState(messages=..., user_id=..., session_id=..., agent_id=..., tenant_id=...)] *)
Definition initial_state (msgs : list string) (user_id session_id tenant_id : string)
    : AgentState :=
    {| messages := msgs; st_user_id := user_id; st_session_id := session_id;
       st_agent_id := self_agent_id self; st_tenant_id := tenant_id;
       context := {| ctx_agent_name := None; ctx_timestamp := None;
                     ctx_model := None; ctx_skills := [] |};
       skills_used := []; transferir := false; custom := []; agent_usage := [] |}.

(** The messages [llm.invoke] receives when the graph reaches its last node. *)
Definition prompt (msgs : list string) (user_id session_id tenant_id : string)
    : list ChatMessage :=
    llm_messages
      (_apply_skills (_process_message (initial_state msgs user_id session_id tenant_id))).

Definition process (msgs : list string) (user_id session_id tenant_id : string)
    : exn + Response :=
    try_except
      (match graph_invoke (initial_state msgs user_id session_id tenant_id) with
       | inl e => inl e
       | inr final_state =>
           inr {| r_messages := messages final_state;
                  r_transferir := transferir final_state;
                  r_session_id := st_session_id final_state;
                  r_user_id := st_user_id final_state;
                  r_agent_id := st_agent_id final_state;
                  r_custom := custom final_state;
                  r_agent_usage := agent_usage final_state |}
       end)
      (fun e => inr (fallback_response user_id session_id)).
End Nodes.

End SimpleAgent.

(** ** The process state and its environment ([src/api/main.py]) *)

(** The class [main.py] imports as [SimpleAgent], as the dispatcher uses it:
    the constructor (which may raise) and [agent.process]. *)
Record AgentClass := {
  cls_init : AgentConfig -> option exn;
  cls_process : AgentConfig -> Behaviour -> list string -> string -> string -> string
                -> exn + Response
}.

Record Env := {
  API_KEY : string;
  agents_storage : gmap string AgentConfig;
  (** [None] after the [ImportError] branch sets [SimpleAgent = None]. *)
  SimpleAgent_class : option AgentClass;
  (** The outside world during the n-th message body started. *)
  outside : nat -> Behaviour
}.

(** Calls that leave the process and log lines, in the order they happen. *)
Inductive Event :=
| EvBatch (batch_key : string) (msgs : list loc)  (* process_message_batch(key, messages) *)
| EvAgentMissing (agent : string)                 (* "Agente ... não encontrado" *)
| EvAgentGroupError (agent : string) (e : exn)    (* outer except of process_agent_messages *)
| EvContext (l : loc) (tenant_id user session : string)     (* get_cognee_context(...) *)
| EvAgentReply (l : loc) (response : Response)    (* agent.process(...) returned, or the basic reply *)
| EvSave (l : loc) (tenant_id user session user_message bot_response : string)  (* save_to_cognee(...) *)
| EvWebhook (l : loc) (url : string) (response : Response)  (* send_webhook(...) *)
| EvProcessed (l : loc)                           (* "Mensagem processada ..." *)
| EvMessageError (l : loc) (e : exn)              (* inner except *)
| EvBatchDone (batch_key : string).               (* "Lote ... processado com sucesso" *)

(** Where a message body is suspended: inside the [await] of
    [get_cognee_context], of [save_to_cognee] or of [send_webhook]. *)
Inductive BodyPc :=
| PcStart
| PcContext
| PcSave (response : Response)
| PcWebhook (response : Response).

Definition basic_response (h : heap) (l : loc) (agent : string) : Response :=
  {| r_messages := ["Desculpe, o sistema está temporariamente indisponível."];
     r_transferir := false;
     r_session_id := default "" (session_id (deref h l));
     r_user_id := user_id (deref h l);
     r_agent_id := agent; r_custom := []; r_agent_usage := [] |}.

Definition tenant_of (m : MessageInput) : string := "tenant_" +:+ id_conta m.

Section Body.
Variable env : Env.
  (** [agent_id], [agent_config] and [agent] of [process_agent_messages]. *)
Variable agent : string.
Variable agent_config : AgentConfig.
Variable has_agent : option AgentClass.
  (** Index of this body, selecting the outside behaviour. *)
Variable tick : nat.
Variable l : loc.

  (** One stretch of the loop body of [process_agent_messages], from where
      it stands to its next [await] ([Some pc]), to the end of the body or
      into the [except Exception] of the body ([None]). *)
Definition body_seg (pc : BodyPc) (h : heap) : heap * list Event * option BodyPc :=
    match pc with
    | PcStart =>
        let h1 := if opt_truthy (session_id (deref h l)) then h
                  else <[l := set_session_id (uuid4 (outside env tick)) (deref h l)]> h in
        let msg := deref h1 l in
        (h1, [EvContext l (tenant_of msg) (user_id msg) (default "" (session_id msg))],
         Some PcContext)
    | PcContext =>
        let msg := deref h l in
        let response :=
          match has_agent with
          | Some cls => cls_process cls agent_config (outside env tick) [mensagem msg]
                          (user_id msg) (default "" (session_id msg)) (tenant_of msg)
          | None => inr (basic_response h l agent)
          end in
        match response with
        | inl e => (h, [EvMessageError l e], None)
        | inr response =>
            match r_messages response with
            | [] => (h, [EvAgentReply l response;
                         EvMessageError l "list index out of range"], None)
            | first :: _ =>
                (h, [EvAgentReply l response;
                     EvSave l (tenant_of msg) (user_id msg) (default "" (session_id msg))
                            (mensagem msg) first],
                 Some (PcSave response))
            end
        end
    | PcSave response =>
        if str_truthy (ac_webhook_url agent_config)
        then (h, [EvWebhook l (ac_webhook_url agent_config) response], Some (PcWebhook response))
        else (h, [EvProcessed l], None)
    | PcWebhook response => (h, [EvProcessed l], None)
    end.

  (** The body run from [pc] with no other task in between. *)
Fixpoint body_run (fuel : nat) (pc : BodyPc) (h : heap) : heap * list Event :=
    match fuel with
    | 0 => (h, [])
    | S fuel =>
        let '(h1, ev, next) := body_seg pc h in
        match next with
        | None => (h1, ev)
        | Some pc1 => let '(h2, ev') := body_run fuel pc1 h1 in (h2, ev ++ ev')
        end
    end.

  (** A body has at most four stretches. *)
Definition message_body (h : heap) : heap * list Event := body_run 4 PcStart h.
End Body.

(** An entry of [debounce_storage]: the messages and the id of the task. *)
Record Group := {
  g_messages : list loc;
  g_task : option nat
}.

(** ** The dispatcher run without interruption *)

Section Dispatcher.
Variable env : Env.

  (** [agent = SimpleAgent(agent_config)] if the class was imported, else
      [agent = None]; [inl] when the constructor raises. *)
Definition make_agent (agent_config : AgentConfig) : exn + option AgentClass :=
    match SimpleAgent_class env with
    | Some cls =>
        match cls_init cls agent_config with
        | Some e => inl e
        | None => inr (Some cls)
        end
    | None => inr None
    end.

  (** [for msg in messages: try: ... except Exception: ...], giving for each
      message, in the order of the loop, what its body did. *)
Fixpoint for_messages (agent : string) (agent_config : AgentConfig)
      (cls : option AgentClass) (tick : nat) (msgs : list loc) (h : heap)
    : heap * list (loc * list Event) :=
    match msgs with
    | [] => (h, [])
    | l :: rest =>
        let '(h1, ev) := message_body env agent agent_config cls tick l h in
        let '(h2, out) := for_messages agent agent_config cls (S tick) rest h1 in
        (h2, (l, ev) :: out)
    end.

Definition flat (out : list (loc * list Event)) : list Event :=
    concat (map snd out).

  (** [process_agent_messages(agent_id, messages)]; the result carries the
      heap, the number of bodies started so far and the events. *)
Definition process_agent_messages (agent : string) (msgs : list loc)
      (tick : nat) (h : heap) : heap * nat * list Event :=
    match agents_storage env !! agent with
    | None => (h, tick, [EvAgentMissing agent])
    | Some agent_config =>
        match make_agent agent_config with
        | inl e => (h, tick, [EvAgentGroupError agent e])
        | inr cls =>
            let '(h1, out) := for_messages agent agent_config cls tick msgs h in
            (h1, tick + length msgs, flat out)
        end
    end.

Fixpoint for_agent_groups (groups : list (string * list loc)) (tick : nat) (h : heap)
    : heap * nat * list Event :=
    match groups with
    | [] => (h, tick, [])
    | (agent, msgs) :: groups' =>
        let '(h1, tick1, ev) := process_agent_messages agent msgs tick h in
        let '(h2, tick2, ev') := for_agent_groups groups' tick1 h1 in
        (h2, tick2, ev ++ ev')
    end.

  (** [agent_groups] of [process_message_batch]. *)
Definition agent_groups (h : heap) (msgs : list loc) : list (string * list loc) :=
    group_by (fun l => agent_id (deref h l)) msgs.

(** [process_message_batch(batch_key, messages)] with nothing else running:
    the store after [del debounce_storage[batch_key]], the heap, the number
    of bodies started and the events. *)
Definition process_message_batch (batch_key : string) (msgs : list loc)
    (storage : gmap string Group) (tick : nat) (h : heap)
    : gmap string Group * heap * nat * list Event :=
    let '(h1, tick1, ev) := for_agent_groups (agent_groups h msgs) tick h in
    (delete batch_key storage, h1, tick1,
     EvBatch batch_key msgs :: ev ++ [EvBatchDone batch_key]).
End Dispatcher.

(** ** Tasks of the event loop *)

(** A flush suspended inside a message body: the variables of
    [process_agent_messages] and [process_message_batch] still live. *)
Record Frame := {
  f_agent : string;
  f_config : AgentConfig;
  f_class : option AgentClass;
  f_tick : nat;
  f_msg : loc;
  f_pc : BodyPc;
  f_rest : list loc;
  f_groups : list (string * list loc)
}.

Inductive TaskState :=
| Sleeping                 (* in [await asyncio.sleep(delay)] *)
| Awaiting (fr : Frame)    (* in an [await] of a message body *)
| Done
| Cancelled.

(** [asyncio.create_task(delayed_process(key, delay))] *)
Record Task := {
  t_key : string;
  t_delay : SpecFloat.spec_float;
  t_state : TaskState
}.

Record World := {
  w_heap : heap;
  debounce_storage : gmap string Group;
  w_tasks : list Task;
  w_ticks : nat;
  w_trace : list Event
}.

Definition empty_world : World :=
  {| w_heap := []; debounce_storage := ∅; w_tasks := []; w_ticks := 0; w_trace := [] |}.

Definition set_state (s : TaskState) (t : Task) : Task :=
  {| t_key := t_key t; t_delay := t_delay t; t_state := s |}.

(** [task.cancel()]: a finished task is left alone; a task waiting in an
    [await] receives [CancelledError] there, which is not an [Exception],
    so no handler of the flush intercepts it and the task ends. *)
Definition cancel (tid : nat) (tasks : list Task) : list Task :=
  match tasks !! tid with
  | Some t =>
      match t_state t with
      | Sleeping | Awaiting _ => <[tid := set_state Cancelled t]> tasks
      | Done | Cancelled => tasks
      end
  | None => tasks
  end.

(** ** The coordinator: [receive_messages] *)

Definition set_task (tid : nat) (g : Group) : Group :=
  {| g_messages := g_messages g; g_task := Some tid |}.

(** Python's [float] is the IEEE 754 binary64 format: 53 bits of precision,
    exponents below 1024. *)
Definition prec : Z := 53.
Definition emax : Z := 1024.

(** The int operand of [int / float] is converted to the nearest float, ties
    to even; [OverflowError] when that lies beyond the largest finite
    float. *)
Definition int_to_float (n : Z) : exn + SpecFloat.spec_float :=
  match SpecFloat.binary_normalize prec emax n 0 false with
  | SpecFloat.S754_infinity _ => inl "int too large to convert to float"
  | x => inr x
  end.

(** The literal [1000.0]. *)
Definition thousand : SpecFloat.spec_float :=
  SpecFloat.binary_normalize prec emax 1000 0 false.

(** [group_messages[0].debounce / 1000.0], in seconds. *)
Definition debounce_time (h : heap) (group_messages : list loc)
  : exn + SpecFloat.spec_float :=
  match int_to_float (debounce (deref h (hd 0 group_messages))) with
  | inl e => inl e
  | inr x => inr (SpecFloat.SFdiv prec emax x thousand)
  end.

(** One round of [for debounce_key, group_messages in debounce_groups.items()]:
    the state it leaves and the exception it raises, if any.  A stored group
    whose ["task"] is still [None] makes [.cancel()] raise [AttributeError]
    before anything is changed; the division raises after the group was
    stored, or after the former task was cancelled and the messages were
    appended. *)
Definition arm (h : heap) (kg : string * list loc)
    (st : gmap string Group * list Task) : gmap string Group * list Task * option exn :=
  let '(key, group_messages) := kg in
  let '(storage, tasks) := st in
  let updated :=
    match storage !! key with
    | Some g =>
        match g_task g with
        | Some old =>
            inr (<[key := {| g_messages := g_messages g ++ group_messages;
                             g_task := Some old |}]> storage,
                 cancel old tasks)
        | None => inl "'NoneType' object has no attribute 'cancel'"
        end
    | None =>
        inr (<[key := {| g_messages := group_messages; g_task := None |}]> storage, tasks)
    end in
  match updated with
  | inl e => (st, Some e)
  | inr (storage1, tasks1) =>
      match debounce_time h group_messages with
      | inl e => (storage1, tasks1, Some e)
      | inr delay =>
          let task := length tasks1 in
          (alter (set_task task) key storage1,
           tasks1 ++ [{| t_key := key; t_delay := delay; t_state := Sleeping |}],
           None)
      end
  end.

(** The loop stops at the first exception, keeping what was done so far. *)
Fixpoint for_debounce_groups (h : heap) (groups : list (string * list loc))
    (st : gmap string Group * list Task) : gmap string Group * list Task * option exn :=
  match groups with
  | [] => (st, None)
  | kg :: groups' =>
      match arm h kg st with
      | (st1, Some e) => (st1, Some e)
      | (st1, None) => for_debounce_groups h groups' st1
      end
  end.

Inductive Payload :=
| Accepted (success : bool) (message : string) (n_groups : nat)
| Detail (detail : string).

Record HttpResponse := {
  status_code : Z;
  payload : Payload
}.

Definition debounce_groups (h : heap) (msgs : list loc) : list (string * list loc) :=
  group_by (fun l => debounce_key (deref h l)) msgs.

(** The body of the handler; the request body arrives parsed into fresh
    [MessageInput] objects.  The handler contains no [await]. *)
Definition receive_messages (messages : list MessageInput) (w : World)
  : HttpResponse * World :=
  let '(h, msgs) := alloc (w_heap w) messages in
  let groups := debounce_groups h msgs in
  let '(storage, tasks, err) :=
    for_debounce_groups h groups (debounce_storage w, w_tasks w) in
  let w1 := {| w_heap := h; debounce_storage := storage; w_tasks := tasks;
               w_ticks := w_ticks w; w_trace := w_trace w |} in
  match err with
  | None =>
      ({| status_code := 200;
          payload := Accepted true
                       ("Lote de " +:+ pretty (length messages) +:+ " mensagens recebido e aceito")
                       (length groups) |}, w1)
  | Some e => ({| status_code := 500; payload := Detail e |}, w1)
  end.

(** [get_api_key_from_header]: the value of the [X-API-Key] header, or the
    [HTTPException] (status, detail) it raises. *)
Definition get_api_key_from_header (env : Env) (x_api_key : option string)
  : (Z * string) + string :=
  match x_api_key with
  | Some api_key =>
      if negb (str_truthy api_key) || negb (String.eqb api_key (API_KEY env))
      then inl (401%Z, "Chave de API inválida")
      else inr api_key
  | None => inl (401%Z, "Chave de API inválida")
  end.

(** [POST /messages]: the dependency is resolved before the handler runs, and
    an [HTTPException] it raises becomes the response. *)
Definition post_messages (env : Env) (x_api_key : option string)
    (messages : list MessageInput) (w : World) : HttpResponse * World :=
  match get_api_key_from_header env x_api_key with
  | inl (code, detail) => ({| status_code := code; payload := Detail detail |}, w)
  | inr _ => receive_messages messages w
  end.

(** ** The flush task: [delayed_process] advanced from [await] to [await] *)

Section Flush.
Variable env : Env.

  (** Entering the body of a message: the stretch up to its first [await]. *)
Definition start_message (agent : string) (agent_config : AgentConfig)
      (cls : option AgentClass) (l : loc) (rest : list loc)
      (groups : list (string * list loc)) (tick : nat) (h : heap)
    : heap * nat * list Event * option Frame :=
    let '(h1, ev, _) := body_seg env agent agent_config cls tick l PcStart h in
    (h1, S tick, ev,
     Some {| f_agent := agent; f_config := agent_config; f_class := cls;
             f_tick := tick; f_msg := l; f_pc := PcContext; f_rest := rest;
             f_groups := groups |}).

  (** [for agent_id, agent_messages in agent_groups.items()], up to the
      first [await] reached; [None] when the loop ends without one. *)
Fixpoint enter_groups (groups : list (string * list loc)) (tick : nat) (h : heap)
    : heap * nat * list Event * option Frame :=
    match groups with
    | [] => (h, tick, [], None)
    | (agent, msgs) :: groups' =>
        match agents_storage env !! agent with
        | None =>
            let '(h1, tick1, ev, fr) := enter_groups groups' tick h in
            (h1, tick1, EvAgentMissing agent :: ev, fr)
        | Some agent_config =>
            match make_agent env agent_config with
            | inl e =>
                let '(h1, tick1, ev, fr) := enter_groups groups' tick h in
                (h1, tick1, EvAgentGroupError agent e :: ev, fr)
            | inr cls =>
                match msgs with
                | [] => enter_groups groups' tick h
                | l :: rest => start_message agent agent_config cls l rest groups' tick h
                end
            end
        end
    end.

  (** The task either waits in the [await] of [fr], or the batch is over:
      [if batch_key in debounce_storage: del debounce_storage[batch_key]]. *)
Definition settle (tid : nat) (task : Task) (w : World)
      (r : heap * nat * list Event * option Frame) : World :=
    let '(h, tick, ev, fr) := r in
    match fr with
    | Some fr =>
        {| w_heap := h; debounce_storage := debounce_storage w;
           w_tasks := <[tid := set_state (Awaiting fr) task]> (w_tasks w);
           w_ticks := tick; w_trace := w_trace w ++ ev |}
    | None =>
        {| w_heap := h; debounce_storage := delete (t_key task) (debounce_storage w);
           w_tasks := <[tid := set_state Done task]> (w_tasks w);
           w_ticks := tick; w_trace := w_trace w ++ ev ++ [EvBatchDone (t_key task)] |}
    end.

Definition prepend (ev : list Event) (r : heap * nat * list Event * option Frame)
    : heap * nat * list Event * option Frame :=
    let '(h, tick, ev', fr) := r in (h, tick, ev ++ ev', fr).

  (** The event loop resumes task [tid], which runs to its next [await]. *)
Definition run_task (tid : nat) (w : World) : World :=
    match w_tasks w !! tid with
    | None => w
    | Some task =>
        match t_state task with
        | Sleeping =>
            (* the sleep is over: [if key in debounce_storage] *)
            match debounce_storage w !! t_key task with
            | Some g =>
                let batch_messages := g_messages g in
                settle tid task w
                  (prepend [EvBatch (t_key task) batch_messages]
                     (enter_groups (agent_groups (w_heap w) batch_messages)
                                   (w_ticks w) (w_heap w)))
            | None =>
                {| w_heap := w_heap w; debounce_storage := debounce_storage w;
                   w_tasks := <[tid := set_state Done task]> (w_tasks w);
                   w_ticks := w_ticks w; w_trace := w_trace w |}
            end
        | Awaiting fr =>
            let '(h1, ev, next) :=
              body_seg env (f_agent fr) (f_config fr) (f_class fr) (f_tick fr) (f_msg fr)
                       (f_pc fr) (w_heap w) in
            match next with
            | Some pc =>
                settle tid task w
                  (h1, w_ticks w, ev,
                   Some {| f_agent := f_agent fr; f_config := f_config fr;
                           f_class := f_class fr; f_tick := f_tick fr;
                           f_msg := f_msg fr; f_pc := pc; f_rest := f_rest fr;
                           f_groups := f_groups fr |})
            | None =>
                settle tid task w
                  (prepend ev
                     match f_rest fr with
                     | l :: rest =>
                         start_message (f_agent fr) (f_config fr) (f_class fr) l rest
                                       (f_groups fr) (w_ticks w) h1
                     | [] => enter_groups (f_groups fr) (w_ticks w) h1
                     end)
            end
        | Done | Cancelled => w
        end
    end.

  (** What happens to the process: a request arrives, or the event loop
      resumes a task. *)
Inductive Action :=
  | Post (x_api_key : option string) (messages : list MessageInput)
  | Run (tid : nat).

Definition step (a : Action) (w : World) : World :=
    match a with
    | Post x_api_key messages => (post_messages env x_api_key messages w).2
    | Run tid => run_task tid w
    end.

Definition run (schedule : list Action) (w : World) : World :=
    foldl (fun w a => step a w) w schedule.
End Flush.

(** ** The imported class and a concrete deployment *)

(** ASCII lower-casing, for the concrete scenarios below. *)
Definition ascii_lower (c : Ascii.ascii) : Ascii.ascii :=
  let n := Ascii.nat_of_ascii c in
  if (65 <=? n)%nat && (n <=? 90)%nat then Ascii.ascii_of_nat (n + 32) else c.

Fixpoint lower (s : string) : string :=
  match s with
  | EmptyString => EmptyString
  | String c s' => String (ascii_lower c) (lower s')
  end.

(** [SimpleAgent] as [main.py] uses it; [setup_fault] is the exception the
    constructor lets through, if any (it builds an LLM client). *)
Definition simple_agent_class (str_lower : string -> string) (setup_fault : option exn)
  : AgentClass :=
  {| cls_init := fun _ => setup_fault;
     cls_process := fun agent_config world msgs user_id session_id tenant_id =>
       SimpleAgent.process str_lower (SimpleAgent.init agent_config) world
                           msgs user_id session_id tenant_id |}.

(** ** Invariant of the store and the tasks *)

(** A task that has neither finished nor been cancelled. *)
Definition live (s : TaskState) : bool :=
  match s with
  | Sleeping | Awaiting _ => true
  | Done | Cancelled => false
  end.

(** Every stored group names a live task created for its key, and every
    live task is the one its key's group names.  This holds as long as no
    request has raised inside the loop over its groups. *)
Definition coherent_st (storage : gmap string Group) (tasks : list Task) : Prop :=
  (∀ k g, storage !! k = Some g →
     ∃ tid t, g_task g = Some tid ∧ tasks !! tid = Some t ∧ t_key t = k
              ∧ live (t_state t) = true)
  ∧ (∀ tid t, tasks !! tid = Some t → live (t_state t) = true →
       ∃ g, storage !! t_key t = Some g ∧ g_task g = Some tid).

Definition coherent (w : World) : Prop :=
  coherent_st (debounce_storage w) (w_tasks w).

(** What survives every request, also one that ends in an exception: the
    task a stored group names exists and was created for the group's key. *)
Definition registered_st (storage : gmap string Group) (tasks : list Task) : Prop :=
  ∀ k g tid, storage !! k = Some g → g_task g = Some tid →
    ∃ t, tasks !! tid = Some t ∧ t_key t = k.

Definition registered (w : World) : Prop :=
  registered_st (debounce_storage w) (w_tasks w).

(** A message whose debounce interval converts to a float, so that the
    division of [receive_messages] does not raise for it. *)
Definition convertible (m : MessageInput) : Prop :=
  ∃ x, int_to_float (debounce m) = inr x.

(** A history in which every request carries convertible intervals only. *)
Definition well_timed (a : Action) : Prop :=
  match a with
  | Post _ messages => Forall convertible messages
  | Run _ => True
  end.

(** The messages a message body was entered for, in the order of the trace. *)
Definition dispatched (trace : list Event) : list loc :=
  omap (fun e => match e with EvContext l _ _ _ => Some l | _ => None end) trace.

(** The messages an agent produced a reply for, in the order of the trace. *)
Definition replied (trace : list Event) : list loc :=
  omap (fun e => match e with EvAgentReply l _ => Some l | _ => None end) trace.

(** The batches handed to [process_message_batch], in the order of the trace. *)
Definition flushed (trace : list Event) : list (string * list loc) :=
  omap (fun e => match e with EvBatch k msgs => Some (k, msgs) | _ => None end) trace.



(** An agent id whose messages the dispatcher processes: it is registered
    and its agent object can be built. *)
Definition usable (env : Env) (agent : string) : bool :=
  match agents_storage env !! agent with
  | Some agent_config =>
      match make_agent env agent_config with inr _ => true | inl _ => false end
  | None => false
  end.

(** ** A flush that nothing interrupts *)

(** The number of stretches a body still has from [pc]. *)
Definition rank (pc : BodyPc) : nat :=
  match pc with
  | PcStart => 4
  | PcContext => 3
  | PcSave _ => 2
  | PcWebhook _ => 1
  end.

(** The event loop resuming task [tid] [n] times in a row. *)
Definition drive (env : Env) (tid : nat) (n : nat) (w : World) : World :=
  Nat.iter n (run_task env tid) w.

(** What is left of [process_message_batch] for a flush suspended in [fr],
    were it to run without interruption: the rest of the current body, the
    rest of the agent's messages, the remaining agent groups. *)
Definition rest_of_flush (env : Env) (fr : Frame) (h : heap) : heap * nat * list Event :=
  let '(h1, ev) := body_run env (f_agent fr) (f_config fr) (f_class fr) (f_tick fr)
                            (f_msg fr) 4 (f_pc fr) h in
  let '(h2, out) := for_messages env (f_agent fr) (f_config fr) (f_class fr)
                                 (S (f_tick fr)) (f_rest fr) h1 in
  let '(h3, tick3, ev3) := for_agent_groups env (f_groups fr)
                             (S (f_tick fr) + length (f_rest fr)) h2 in
  (h3, tick3, ev ++ flat out ++ ev3).

(** The stretches a suspended flush still has to run. *)
Definition stretches (fr : Frame) : nat :=
  rank (f_pc fr) + 4 * length (f_rest fr)
  + 4 * length (concat (map snd (f_groups fr))).

(** A flush resumed in the [await] of [fr]: the stretch up to its next
    [await], as [run_task] runs it. *)
Definition resume (env : Env) (fr : Frame) (tick : nat) (h : heap)
  : heap * nat * list Event * option Frame :=
  let '(h1, ev, next) :=
    body_seg env (f_agent fr) (f_config fr) (f_class fr) (f_tick fr) (f_msg fr)
             (f_pc fr) h in
  match next with
  | Some pc =>
      (h1, tick, ev,
       Some {| f_agent := f_agent fr; f_config := f_config fr;
               f_class := f_class fr; f_tick := f_tick fr;
               f_msg := f_msg fr; f_pc := pc; f_rest := f_rest fr;
               f_groups := f_groups fr |})
  | None =>
      prepend ev
        match f_rest fr with
        | l :: rest =>
            start_message env (f_agent fr) (f_config fr) (f_class fr) l rest
                          (f_groups fr) tick h1
        | [] => enter_groups env (f_groups fr) tick h1
        end
  end.

(** ** A concrete deployment, for the scenarios below *)

Module Scenario.

Definition message (text agent user : string) (session : option string) (d : Z)
  : MessageInput :=
  {| mensagem := text; agent_id := agent; debounce := d; session_id := session;
     message_id := None; cliente_id := Some ""; user_id := user; id_conta := "acme" |}.

Definition agent (id url : string) : AgentConfig :=
  {| ac_id := id; ac_name := "Assistente"; ac_description := "";
     ac_instructions := "Responda de forma clara e objetiva.";
     ac_model := "openai/gpt-4o-mini"; ac_max_tokens := 1000;
     ac_skills := []; ac_webhook_url := url |}.

(** The LLM answers ["ok"]; the n-th body draws the uuid ["uuid-n"]. *)
Definition calm (n : nat) : Behaviour :=
  {| uuid4 := "uuid-" +:+ pretty n; now := "2024-01-01T00:00:00";
     llm_invoke := fun _ => inr {| lr_content := Some "ok"; lr_str := ""; lr_usage := None |};
     graph_fault := None |}.

(** As [calm], but the LLM call of body [bad] raises. *)
Definition llm_down (bad : nat) (n : nat) : Behaviour :=
  {| uuid4 := "uuid-" +:+ pretty n; now := "2024-01-01T00:00:00";
     llm_invoke := fun _ =>
       if decide (n = bad) then inl "timeout"
       else inr {| lr_content := Some "ok"; lr_str := ""; lr_usage := None |};
     graph_fault := None |}.



(** Two agents, ["a"] with a webhook and ["a_b"] without. *)
Definition deployment (outside_world : nat -> Behaviour) : Env :=
  {| API_KEY := "151fb361-f295-4a4f-84c9-ec1f42599a67";
     agents_storage := <["a" := agent "a" "http://hook"]> (<["a_b" := agent "a_b" ""]> ∅);
     SimpleAgent_class := Some (simple_agent_class lower None);
     outside := outside_world |}.

Definition key : option string := Some "151fb361-f295-4a4f-84c9-ec1f42599a67".

End Scenario.

(** ** The agent registry: [agents_storage] and the [/agents] endpoints *)

Module Agents.

Import PrimFloat.

(** A stored agent: the dictionary [agent_data].  [ad_config] holds the keys
    the dispatcher and [SimpleAgent] read. *)
Record AgentData := {
  ad_config : AgentConfig;
  ad_temperature : float;
  ad_created_at : string;
  ad_updated_at : string
}.

(** [class AgentConfig(BaseModel)]: the body of [POST /agents] and of
    [PUT /agents/{agent_id}]. *)
Record AgentConfigModel := {
  cfg_id : option string;
  cfg_name : string;
  cfg_description : string;
  cfg_instructions : string;
  cfg_model : string;
  cfg_temperature : float;
  cfg_max_tokens : Z;
  cfg_skills : list Skill;
  cfg_webhook_url : string
}.

(** [agents_storage]: a dict, iterated in insertion order by [.values()]. *)
Definition Storage := list (string * AgentData).

(** [d[k]], [None] standing for the absence of the key. *)
Fixpoint dict_lookup (k : string) (d : Storage) : option AgentData :=
  match d with
  | [] => None
  | (k', v) :: d' => if decide (k' = k) then Some v else dict_lookup k d'
  end.

(** [d[k] = v]: a key already present keeps its place. *)
Fixpoint dict_set (k : string) (v : AgentData) (d : Storage) : Storage :=
  match d with
  | [] => [(k, v)]
  | (k', v') :: d' =>
      if decide (k' = k) then (k', v) :: d' else (k', v') :: dict_set k v d'
  end.

(** [del d[k]] *)
Fixpoint dict_del (k : string) (d : Storage) : Storage :=
  match d with
  | [] => []
  | (k', v') :: d' =>
      if decide (k' = k) then d' else (k', v') :: dict_del k d'
  end.

Inductive Body :=
| One (agent_data : AgentData)
| Many (agents : list AgentData)
| Message (message : string)
| ErrorDetail (detail : string).

Record Response := {
  code : Z;
  body : Body
}.

Definition not_found : Response :=
  {| code := 404; body := ErrorDetail "Agente não encontrado" |}.

(** An endpoint behind [Depends(get_api_key_from_header)]. *)
Definition guarded (env : Env) (x_api_key : option string)
    (handler : Storage -> Response * Storage) (agents_storage : Storage)
  : Response * Storage :=
  match get_api_key_from_header env x_api_key with
  | inl (status, detail) => ({| code := status; body := ErrorDetail detail |}, agents_storage)
  | inr _ => handler agents_storage
  end.

(** [GET /agents] *)
Definition list_agents (env : Env) (x_api_key : option string) : Storage -> Response * Storage :=
  guarded env x_api_key (fun agents_storage =>
    ({| code := 200; body := Many (map snd agents_storage) |}, agents_storage)).

(** [GET /agents/{agent_id}] *)
Definition get_agent (env : Env) (x_api_key : option string) (agent_id : string)
  : Storage -> Response * Storage :=
  guarded env x_api_key (fun agents_storage =>
    match dict_lookup agent_id agents_storage with
    | None => (not_found, agents_storage)
    | Some agent_data => ({| code := 200; body := One agent_data |}, agents_storage)
    end).

(** [POST /agents]; [uuid] is what [uuid.uuid4()] would yield, [now1] and
    [now2] what the two calls of [datetime.now().isoformat()] yield. *)
Definition create_agent (env : Env) (x_api_key : option string) (agent : AgentConfigModel)
    (uuid now1 now2 : string) : Storage -> Response * Storage :=
  guarded env x_api_key (fun agents_storage =>
    let agent_id := py_or (cfg_id agent) uuid in
    match dict_lookup agent_id agents_storage with
    | Some _ => ({| code := 400; body := ErrorDetail "Agente já existe" |}, agents_storage)
    | None =>
        let agent_data :=
          {| ad_config := {| ac_id := agent_id; ac_name := cfg_name agent;
                             ac_description := cfg_description agent;
                             ac_instructions := cfg_instructions agent;
                             ac_model := cfg_model agent;
                             ac_max_tokens := cfg_max_tokens agent;
                             ac_skills := cfg_skills agent;
                             ac_webhook_url := cfg_webhook_url agent |};
             ad_temperature := cfg_temperature agent;
             ad_created_at := now1; ad_updated_at := now2 |} in
        ({| code := 200; body := One agent_data |},
         dict_set agent_id agent_data agents_storage)
    end).

(** [PUT /agents/{agent_id}]: [agent_data.update({...})] on the stored
    dictionary, which has no ["id"] and no ["created_at"] among its keys. *)
Definition update_agent (env : Env) (x_api_key : option string) (agent_id : string)
    (agent : AgentConfigModel) (now : string) : Storage -> Response * Storage :=
  guarded env x_api_key (fun agents_storage =>
    match dict_lookup agent_id agents_storage with
    | None => (not_found, agents_storage)
    | Some agent_data =>
        let agent_data :=
          {| ad_config := {| ac_id := ac_id (ad_config agent_data);
                             ac_name := cfg_name agent;
                             ac_description := cfg_description agent;
                             ac_instructions := cfg_instructions agent;
                             ac_model := cfg_model agent;
                             ac_max_tokens := cfg_max_tokens agent;
                             ac_skills := cfg_skills agent;
                             ac_webhook_url := cfg_webhook_url agent |};
             ad_temperature := cfg_temperature agent;
             ad_created_at := ad_created_at agent_data; ad_updated_at := now |} in
        ({| code := 200; body := One agent_data |},
         dict_set agent_id agent_data agents_storage)
    end).

(** [DELETE /agents/{agent_id}] *)
Definition delete_agent (env : Env) (x_api_key : option string) (agent_id : string)
  : Storage -> Response * Storage :=
  guarded env x_api_key (fun agents_storage =>
    match dict_lookup agent_id agents_storage with
    | None => (not_found, agents_storage)
    | Some _ =>
        ({| code := 200; body := Message "Agente removido com sucesso" |},
         dict_del agent_id agents_storage)
    end).

(** The agent [lifespan] registers when the application starts with an
    empty registry; 0.7 is the binary64 value below. *)
Definition default_agent (now1 now2 : string) : AgentData :=
  {| ad_config := {| ac_id := "1677dc47-20d0-442a-80a8-171f00d39d39";
                     ac_name := "Assistente Padrão";
                     ac_description := "Agente padrão para processamento de mensagens";
                     ac_instructions :=
                       "Você é um assistente útil e prestativo. Responda de forma clara e objetiva.";
                     ac_model := "openai/gpt-4o-mini";
                     ac_max_tokens := 1000;
                     ac_skills := [];
                     ac_webhook_url := "" |};
     ad_temperature := 0x1.6666666666666p-1%float;
     ad_created_at := now1; ad_updated_at := now2 |}.

(** [lifespan], up to its [yield]. *)
Definition lifespan (now1 now2 : string) (agents_storage : Storage) : Storage :=
  match agents_storage with
  | [] => dict_set (ac_id (ad_config (default_agent now1 now2))) (default_agent now1 now2)
                   agents_storage
  | _ => agents_storage
  end.

(** The requests of the registry, each with its [X-API-Key] header and the
    values the clock and [uuid4] yield while it is served. *)
Inductive Request :=
| ListAgents (x_api_key : option string)
| GetAgent (x_api_key : option string) (agent_id : string)
| CreateAgent (x_api_key : option string) (agent : AgentConfigModel) (uuid now1 now2 : string)
| UpdateAgent (x_api_key : option string) (agent_id : string) (agent : AgentConfigModel)
              (now : string)
| DeleteAgent (x_api_key : option string) (agent_id : string).

Definition serve (env : Env) (r : Request) : Storage -> Response * Storage :=
  match r with
  | ListAgents x => list_agents env x
  | GetAgent x agent_id => get_agent env x agent_id
  | CreateAgent x agent uuid now1 now2 => create_agent env x agent uuid now1 now2
  | UpdateAgent x agent_id agent now => update_agent env x agent_id agent now
  | DeleteAgent x agent_id => delete_agent env x agent_id
  end.

Definition serve_all (env : Env) (requests : list Request) (agents_storage : Storage)
  : Storage :=
  foldl (fun agents_storage r => (serve env r agents_storage).2) agents_storage requests.

(** The registry after the application started and served [requests]. *)
Definition served (env : Env) (now1 now2 : string) (requests : list Request) : Storage :=
  serve_all env requests (lifespan now1 now2 []).

(** The [X-API-Key] header a request carries. *)
Definition header (r : Request) : option string :=
  match r with
  | ListAgents x | GetAgent x _ | CreateAgent x _ _ _ _ | UpdateAgent x _ _ _
  | DeleteAgent x _ => x
  end.

(** [r] asks for the deletion of agent [k]. *)
Definition deletes (k : string) (r : Request) : bool :=
  match r with
  | DeleteAgent _ agent_id => bool_decide (agent_id = k)
  | _ => false
  end.

(** A request body, for the examples below. *)
Definition example_body (id : option string) (name url : string) : AgentConfigModel :=
  {| cfg_id := id; cfg_name := name; cfg_description := "";
     cfg_instructions := "Responda de forma clara e objetiva.";
     cfg_model := "openai/gpt-4o-mini"; cfg_temperature := 0.5%float;
     cfg_max_tokens := 500; cfg_skills := []; cfg_webhook_url := url |}.

(** The registry as the dispatcher reads it: [agents_storage[agent_id]]. *)
Definition view (agents_storage : Storage) : gmap string AgentConfig :=
  list_to_map (map (fun kv => (kv.1, ad_config kv.2)) agents_storage).

(** Keys are unique (it is a dict), and every agent is stored under its
    own ["id"]. *)
Definition well_keyed (agents_storage : Storage) : Prop :=
  NoDup (map fst agents_storage)
  ∧ ∀ k agent_data, (k, agent_data) ∈ agents_storage → ac_id (ad_config agent_data) = k.

End Agents.

(** ** Connection patches ([src/cognee_patches.py]) *)

Module Patches.

(** What a patched constructor does besides returning: connection attempts
    and [time.sleep(retry_delay)]. *)
Inductive RetryEvent :=
| Attempt (attempt : nat)
| Sleep (seconds : Z).

Section Retry.
Context {D : Type}.
(** The body of the [try] at a given attempt: the original constructor
    followed by the test of the connection. *)
Variable connect : nat -> exn + D.

(** [for attempt in range(max_retries): try: ... return ... except Exception: ...];
    [None] stands for a loop that ends without [return] or [raise]. *)
Fixpoint for_attempts (attempts : list nat) (max_retries : nat) (retry_delay : Z)
  : option (exn + D) * list RetryEvent :=
  match attempts with
  | [] => (None, [])
  | attempt :: rest =>
      match connect attempt with
      | inr driver => (Some (inr driver), [Attempt attempt])
      | inl e =>
          if decide (attempt < max_retries - 1)%nat
          then let '(r, ev) := for_attempts rest max_retries (retry_delay * 2) in
               (r, Attempt attempt :: Sleep retry_delay :: ev)
          else (Some (inl e), [Attempt attempt])
      end
  end.

Definition retry_loop (max_retries : nat) : option (exn + D) * list RetryEvent :=
  for_attempts (seq 0 max_retries) max_retries 1.

(** [patched_driver] of [apply_neo4j_connection_patch] and [patched_init] of
    [apply_qdrant_connection_patch]: [max_retries = 3], [retry_delay = 1]. *)
Definition patched_driver : option (exn + D) * list RetryEvent := retry_loop 3.
End Retry.

(** The seconds slept in a trace. *)
Definition slept (ev : list RetryEvent) : Z :=
  foldr (fun e acc => match e with Sleep s => (s + acc)%Z | Attempt _ => acc end) 0%Z ev.

(** The attempts made in a trace. *)
Definition attempts_made (ev : list RetryEvent) : list nat :=
  omap (fun e => match e with Attempt n => Some n | Sleep _ => None end) ev.

End Patches.

(** ** Configuration of Cognee ([src/cognee_config.py]) *)

Module CogneeConfig.

(** [os.environ] *)
Abbreviation Environ := (gmap string string).

(** [os.getenv(key, default)] *)
Definition getenv (environ : Environ) (key d : string) : string :=
  default d (environ !! key).

(** [if os.getenv(key):] *)
Definition env_truthy (environ : Environ) (key : string) : bool :=
  match environ !! key with Some v => str_truthy v | None => false end.

(** What [import cognee] does. *)
Inductive Import :=
| Imported
| ImportError (e : exn)
| ImportFailed (e : exn).   (* another [Exception] raised by the module *)

(** What [setup_cognee] returns: [None], [True] or [False]. *)
Record Setup := {
  returned : option bool;
  environ_after : Environ;
  (** [apply_litellm_patch()] was called *)
  litellm_patch : bool
}.

(** The assignments of [setup_cognee] up to the LLM provider. *)
Definition databases (environ : Environ) : Environ :=
  let environ := <["GRAPH_DATABASE_PROVIDER" := "neo4j"]> environ in
  let environ := <["VECTOR_DB_PROVIDER" := "qdrant"]> environ in
  let neo4j_url := getenv environ "NEO4J_URL" "bolt://localhost:7687" in
  let neo4j_user := getenv environ "NEO4J_USER" "neo4j" in
  let neo4j_password := getenv environ "NEO4J_PASSWORD" "password" in
  let environ := <["NEO4J_URL" := neo4j_url]> environ in
  let environ := <["NEO4J_USER" := neo4j_user]> environ in
  let environ := <["NEO4J_PASSWORD" := neo4j_password]> environ in
  let qdrant_url := getenv environ "QDRANT_URL" "http://localhost:6333" in
  let qdrant_api_key := getenv environ "QDRANT_API_KEY" "" in
  let environ := <["VECTOR_DB_URL" := qdrant_url]> environ in
  if str_truthy qdrant_api_key then <["QDRANT_API_KEY" := qdrant_api_key]> environ
  else environ.

(** The branch on [llm_provider]; the second component tells whether
    [apply_litellm_patch] was reached ([patches] is whether
    [cognee_patches] can be imported). *)
Definition llm (patches : bool) (environ : Environ) : Environ * bool :=
  let llm_provider := getenv environ "LLM_PROVIDER" "openai" in
  if String.eqb llm_provider "openrouter" then
    match environ !! "OPENROUTER_API_KEY" with
    | Some openrouter_key =>
        if str_truthy openrouter_key
        then (<["OPENAI_API_BASE" := "https://openrouter.ai/api/v1"]>
                (<["OPENAI_API_KEY" := openrouter_key]> environ), patches)
        else (environ, false)
    | None => (environ, false)
    end
  else if String.eqb llm_provider "openai" then
    match environ !! "OPENAI_API_KEY" with
    | Some openai_key =>
        if str_truthy openai_key then (<["OPENAI_API_KEY" := openai_key]> environ, false)
        else (environ, false)
    | None => (environ, false)
    end
  else (environ, false).

Definition models (environ : Environ) : Environ :=
  let default_model := getenv environ "DEFAULT_LLM_MODEL" "gpt-3.5-turbo" in
  let environ := <["LLM_MODEL" := default_model]> environ in
  let embedding_model := getenv environ "EMBEDDING_MODEL" "text-embedding-ada-002" in
  <["EMBEDDING_MODEL" := embedding_model]> environ.

(** [setup_cognee()]; [configure] is what the three calls of
    [cognee.config.set_..._provider] do for a given LLM provider: the
    exception one of them raises, if any. *)
Definition setup_cognee (cognee : Import) (patches : bool)
    (configure : string -> option exn) (environ : Environ) : Setup :=
  match cognee with
  | ImportError _ | ImportFailed _ =>
      {| returned := Some false; environ_after := environ; litellm_patch := false |}
  | Imported =>
      let '(environ1, patched) := llm patches (databases environ) in
      let environ2 := models environ1 in
      if bool_decide (environ2 !! "DISABLE_EXTERNAL_DBS" = Some "true")
      then {| returned := None; environ_after := environ2; litellm_patch := patched |}
      else
        match configure (getenv environ2 "LLM_PROVIDER" "openai") with
        | Some _ =>
            {| returned := Some false; environ_after := environ2; litellm_patch := patched |}
        | None =>
            {| returned := Some true; environ_after := environ2; litellm_patch := patched |}
        end
  end.

(** The dictionary [validation_results]. *)
Record Validation := {
  cognee_available : bool;
  graph_db_configured : bool;
  vector_db_configured : bool;
  llm_configured : bool;
  errors : list string
}.

Definition validate_graph (environ : Environ) : bool * list string :=
  if bool_decide (environ !! "GRAPH_DATABASE_PROVIDER" = Some "neo4j") then
    if env_truthy environ "NEO4J_URL" && env_truthy environ "NEO4J_USER"
       && env_truthy environ "NEO4J_PASSWORD"
    then (true, [])
    else (false, ["Configuração Neo4j incompleta"])
  else (false, []).

Definition validate_vector (environ : Environ) : bool * list string :=
  if bool_decide (environ !! "VECTOR_DB_PROVIDER" = Some "qdrant") then
    if env_truthy environ "VECTOR_DB_URL" then (true, [])
    else (false, ["URL do Qdrant não configurada"])
  else (false, []).

Definition validate_llm (environ : Environ) : bool * list string :=
  let llm_provider := getenv environ "LLM_PROVIDER" "openai" in
  if String.eqb llm_provider "openrouter" then
    if env_truthy environ "OPENROUTER_API_KEY" then (true, [])
    else (false, ["Chave OpenRouter não configurada"])
  else if String.eqb llm_provider "openai" then
    if env_truthy environ "OPENAI_API_KEY" then (true, [])
    else (false, ["Chave OpenAI não configurada"])
  else (false, []).

(** [validate_cognee_configuration()] *)
Definition validate_cognee_configuration (cognee : Import) (environ : Environ)
  : Validation :=
  match cognee with
  | ImportError _ =>
      {| cognee_available := false; graph_db_configured := false;
         vector_db_configured := false; llm_configured := false;
         errors := ["Cognee não está instalado"] |}
  | ImportFailed e =>
      {| cognee_available := false; graph_db_configured := false;
         vector_db_configured := false; llm_configured := false;
         errors := ["Erro na validação: " +:+ e] |}
  | Imported =>
      let '(graph, e1) := validate_graph environ in
      let '(vector, e2) := validate_vector environ in
      let '(llm_ok, e3) := validate_llm environ in
      {| cognee_available := true; graph_db_configured := graph;
         vector_db_configured := vector; llm_configured := llm_ok;
         errors := e1 ++ e2 ++ e3 |}
  end.

(** A variable that is unset or set to a non-empty value. *)
Definition usable_or_unset (environ : Environ) (key : string) : bool :=
  match environ !! key with Some v => str_truthy v | None => true end.

End CogneeConfig.

(** ** The LiteLLM client of [SimpleAgent._setup_llm] *)

Module LiteLLMWrapper.

(** What [litellm.completion] returns, as [invoke] reads it:
    [response.usage] (absent, or the prompt and completion token counts) and
    the [message.content] of each of [response.choices]. *)
Record Completion := {
  usage : option (Z * Z);
  choices : list string
}.

Definition apology : string :=
  "Desculpe, não consegui processar sua mensagem no momento.".

(** The exception of a local variable read before its assignment; its
    wording depends on the version of the interpreter. *)
Definition unbound_local (name : string) : exn :=
  "UnboundLocalError: " +:+ name.

(** [litellm_messages] *)
Definition litellm_message (msg : ChatMessage) : string * string :=
  match msg with
  | SystemMessage content => ("system", content)
  | HumanMessage content => ("user", content)
  end.

(** [MockResponse(content, usage)]: [self.usage_metadata = usage or {}]. *)
Definition MockResponse (content : string) (usage : list (string * string)) : LLMReply :=
  {| lr_content := Some content; lr_str := ""; lr_usage := Some usage |}.

Section Invoke.
(** [completion(model=..., messages=..., ...)] with the settings of the
    wrapper. *)
Variable completion : list (string * string) -> exn + Completion.
Variable model : string.

(** [LiteLLMWrapper.invoke].  The class [MockResponse] is a local variable
    of [invoke], bound by the [class] statement that follows the call of
    [completion] inside the [try]; the handler reads it. *)
Definition invoke (messages : list ChatMessage) : exn + LLMReply :=
  let litellm_messages := map litellm_message messages in
  match completion litellm_messages with
  | inl e =>
      (* except Exception: return MockResponse(...), with MockResponse unbound *)
      inl (unbound_local "MockResponse")
  | inr response =>
      let usage :=
        [("input_tokens", pretty (default 0%Z (fst <$> usage response)));
         ("output_tokens", pretty (default 0%Z (snd <$> usage response)));
         ("model", model)] in
      match choices response with
      | content :: _ => inr (MockResponse content usage)
      | [] =>
          (* IndexError, caught by the handler; MockResponse is bound *)
          inr (MockResponse apology [])
      end
  end.
End Invoke.

(** The outside world of a message whose agent talks to LiteLLM. *)
Definition world (completion : list (string * string) -> exn + Completion)
    (model uuid clock : string) : Behaviour :=
  {| uuid4 := uuid; now := clock; llm_invoke := invoke completion model;
     graph_fault := None |}.

End LiteLLMWrapper.

(** ** The LiteLLM patch ([apply_litellm_patch] of [src/cognee_patches.py]) *)

Module LiteLLMPatch.

(** The values of the keyword arguments of [completion]: [None], a string,
    a dictionary of strings (the headers), or another object (a list or a
    number), which has none of the methods the patch calls. *)
Inductive Value :=
| VNone
| VStr (s : string)
| VDict (d : list (string * string))
| VOther (type_name : string) (truth : bool).

(** The keyword arguments of a call. *)
Abbreviation Kwargs := (gmap string Value).

Definition truthy (v : Value) : bool :=
  match v with
  | VNone => false
  | VStr s => str_truthy s
  | VDict d => match d with [] => false | _ => true end
  | VOther _ truth => truth
  end.

Definition type_name_of (v : Value) : string :=
  match v with
  | VNone => "NoneType"
  | VStr _ => "str"
  | VDict _ => "dict"
  | VOther type_name _ => type_name
  end.

Definition attribute_error (v : Value) (attr : string) : exn :=
  "'" +:+ type_name_of v +:+ "' object has no attribute '" +:+ attr +:+ "'".

Definition key_error (key : string) : exn := "'" +:+ key +:+ "'".

(** [d[k] = v] on a dictionary of strings, as [dict.update] does it. *)
Fixpoint set_item (k v : string) (d : list (string * string)) : list (string * string) :=
  match d with
  | [] => [(k, v)]
  | (k', v') :: d' =>
      if decide (k' = k) then (k', v) :: d' else (k', v') :: set_item k v d'
  end.

(** [d.get(k)] on a dictionary of strings. *)
Fixpoint get_item (k : string) (d : list (string * string)) : option string :=
  match d with
  | [] => None
  | (k', v') :: d' => if decide (k' = k) then Some v' else get_item k d'
  end.

(** [model.startswith(('openai/', 'anthropic/', 'google/'))] *)
Definition has_provider (model : string) : bool :=
  String.prefix "openai/" model || String.prefix "anthropic/" model
  || String.prefix "google/" model.

Section Patched.
Variable str_lower : string -> string.
(** [os.getenv('OPENROUTER_API_KEY')] *)
Variable OPENROUTER_API_KEY : option string.

(** The model name the patch passes on. *)
Definition mapped (model : string) : option string :=
  if has_provider model then None
  else if SimpleAgent.str_contains "gpt" (str_lower model) then Some ("openai/" +:+ model)
  else if SimpleAgent.str_contains "claude" (str_lower model)
       then Some ("anthropic/" +:+ model)
  else if SimpleAgent.str_contains "gemini" (str_lower model) then Some ("google/" +:+ model)
  else None.

(** [kwargs.get('api_key') or os.getenv('OPENROUTER_API_KEY')] *)
Definition api_key_of (kwargs : Kwargs) : Value :=
  let given := default VNone (kwargs !! "api_key") in
  if truthy given then given
  else match OPENROUTER_API_KEY with Some s => VStr s | None => VNone end.

(** [patched_completion], up to the call of the original
    [completion]: the keyword arguments it passes on, or the exception it
    raises before. *)
Definition patched_completion (kwargs : Kwargs) : exn + Kwargs :=
  let api_key := api_key_of kwargs in
  let model := default (VStr "") (kwargs !! "model") in
  if truthy api_key then
    match api_key with
    | VStr key =>
        if String.prefix "sk-or-v1-" key then
          let kwargs :=
            <["api_base" := default (VStr "https://openrouter.ai/api/v1")
                                    (kwargs !! "api_base")]> kwargs in
          let kwargs := <["api_key" := api_key]> kwargs in
          match model with
          | VStr model =>
              let kwargs :=
                match mapped model with
                | Some model' => <["model" := VStr model']> kwargs
                | None => kwargs
                end in
              match default (VDict []) (kwargs !! "headers") with
              | VDict headers =>
                  let headers :=
                    set_item "X-Title" "LangGraph with Cognee"
                      (set_item "HTTP-Referer" "https://langgraph-cognee.local" headers) in
                  let kwargs := <["headers" := VDict headers]> kwargs in
                  match kwargs !! "model" with
                  | Some _ => inr kwargs
                  | None => inl (key_error "model")
                  end
              | other => inl (attribute_error other "update")
              end
          | other => inl (attribute_error other "startswith")
          end
        else inr kwargs
    | other => inl (attribute_error other "startswith")
    end
  else inr kwargs.
End Patched.

End LiteLLMPatch.

(** * Properties *)

(** ** Insertion-ordered grouping *)

Section GroupBy.
Context {V : Type}.
Implicit Types (d : list (string * list V)) (k : string) (v : V).

Lemma dict_get_append k k' v d :
  dict_get k (dict_append k' v d)
  = if decide (k' = k) then Some (default [] (dict_get k d) ++ [v]) else dict_get k d.
Proof.
  induction d as [|[k0 vs] d IH]; cbn.
  - repeat case_decide; congruence.
  - destruct (decide (k0 = k')) as [->|Hne]; cbn.
    + repeat case_decide; try congruence. done.
    + rewrite IH. clear IH. repeat case_decide; try congruence.
Qed.

Lemma dict_keys_append k v d :
  map fst (dict_append k v d)
  = if decide (k ∈ map fst d) then map fst d else map fst d ++ [k].
Proof.
  induction d as [|[k0 vs] d IH]; cbn.
  - case_decide as H1; [|done]. by apply elem_of_nil in H1.
  - destruct (decide (k0 = k)) as [->|Hne]; cbn.
    + clear IH. case_decide as H1; [done|]. exfalso. apply H1. left.
    + rewrite IH. clear IH.
      destruct (decide (k ∈ map fst d)) as [H1|H1],
               (decide (k ∈ k0 :: map fst d)) as [H2|H2]; try done.
      * exfalso. apply H2. by right.
      * exfalso. apply elem_of_cons in H2 as [->|H2]; done.
Qed.

Lemma dict_get_elem k d (g : list V) :
  NoDup (map fst d) → (k, g) ∈ d → dict_get k d = Some g.
Proof.
  induction d as [|[k0 vs] d IH]; cbn; intros Hnd Hin.
  - by apply elem_of_nil in Hin.
  - apply NoDup_cons in Hnd as [Hk0 Hnd].
    apply elem_of_cons in Hin as [Heq|Hin].
    + inversion Heq; subst. by rewrite decide_True.
    + rewrite decide_False; [by apply IH|].
      intros ->. apply Hk0. apply list_elem_of_fmap. by exists (k, g).
Qed.

Lemma dict_get_Some_elem k d (g : list V) :
  dict_get k d = Some g → (k, g) ∈ d.
Proof.
  induction d as [|[k0 vs] d IH]; cbn; [done|].
  case_decide; intros Hg.
  - inversion Hg; subst. left.
  - right. by apply IH.
Qed.

Variable key : V → string.

(** What a key maps to after the elements of [l] were appended to [d]. *)
Lemma dict_get_foldl k l d :
  dict_get k (foldl (λ d v, dict_append (key v) v d) d l)
  = match dict_get k d, filter (λ v, key v = k) l with
    | None, [] => None
    | o, g => Some (default [] o ++ g)
    end.
Proof.
  revert d. induction l as [|v l IH]; intros d.
  - cbn. destruct (dict_get k d); [by rewrite app_nil_r|done].
  - rewrite filter_cons. cbn [foldl]. rewrite IH, dict_get_append.
    destruct (decide (key v = k)) as [Hk|Hk].
    + destruct (dict_get k d); cbn; by rewrite <- ?app_assoc.
    + done.
Qed.

Lemma dict_keys_foldl l d :
  NoDup (map fst d) → NoDup (map fst (foldl (λ d v, dict_append (key v) v d) d l)).
Proof.
  revert d. induction l as [|v l IH]; intros d Hnd; cbn; [done|].
  apply IH. rewrite dict_keys_append. case_decide; [done|].
  apply NoDup_app. split_and!; [done| |apply NoDup_singleton].
  intros x Hx ->%list_elem_of_singleton. done.
Qed.

(** The group of a key is the sub-list of the elements with that key, in
    their order in [l]. *)
Lemma group_by_get k l :
  dict_get k (group_by key l)
  = match filter (λ v, key v = k) l with [] => None | g => Some g end.
Proof. unfold group_by. rewrite dict_get_foldl. cbn. by destruct (filter _ l). Qed.

Lemma group_by_NoDup l : NoDup (map fst (group_by key l)).
Proof. apply dict_keys_foldl. cbn. apply NoDup_nil_2. Qed.

Lemma group_by_elem k g l :
  (k, g) ∈ group_by key l ↔ g = filter (λ v, key v = k) l ∧ g ≠ [].
Proof.
  split.
  - intros Hin. apply dict_get_elem in Hin; [|apply group_by_NoDup].
    rewrite group_by_get in Hin. destruct (filter _ l) eqn:E; [done|].
    by inversion Hin.
  - intros [-> Hne]. apply dict_get_Some_elem. rewrite group_by_get.
    by destruct (filter _ l).
Qed.
End GroupBy.

(** ** The coordinator keeps store and tasks coherent *)

Lemma cancel_length tid tasks : length (cancel tid tasks) = length tasks.
Proof.
  unfold cancel. destruct (tasks !! tid) as [t|]; [|done].
  destruct (t_state t); by rewrite ?length_insert.
Qed.

Lemma cancel_lookup_ne tid tid' tasks :
  tid ≠ tid' → cancel tid tasks !! tid' = tasks !! tid'.
Proof.
  intros Hne. unfold cancel. destruct (tasks !! tid) as [t|]; [|done].
  destruct (t_state t); by rewrite ?list_lookup_insert_ne.
Qed.

Lemma cancel_lookup_eq tid t tasks :
  tasks !! tid = Some t →
  ∃ t', cancel tid tasks !! tid = Some t' ∧ t_key t' = t_key t
        ∧ t_delay t' = t_delay t ∧ live (t_state t') = false.
Proof.
  intros Ht. unfold cancel. rewrite Ht.
  destruct (t_state t) eqn:Hs;
    try (rewrite list_lookup_insert_eq by (by eapply lookup_lt_Some);
         eexists; split; [done|]; by cbn);
    exists t; rewrite Hs; by cbn.
Qed.

(** What one round of the loop over [debounce_groups] does to a coherent
    state: the group of [key] is extended (or created), its former task is
    cancelled and a new sleeping task is registered for it. *)
Lemma arm_coherent h key group_messages storage tasks delay :
  coherent_st storage tasks →
  debounce_time h group_messages = inr delay →
  ∃ tasks1,
    arm h (key, group_messages) (storage, tasks)
    = (<[key := {| g_messages := default [] (g_messages <$> storage !! key)
                                   ++ group_messages;
                   g_task := Some (length tasks) |}]> storage,
       tasks1 ++ [{| t_key := key; t_delay := delay; t_state := Sleeping |}],
       None)
    ∧ length tasks1 = length tasks
    ∧ (∀ tid t, tasks !! tid = Some t → t_key t ≠ key → tasks1 !! tid = Some t)
    ∧ (∀ tid t, tasks1 !! tid = Some t → t_key t = key → live (t_state t) = false)
    ∧ (∀ tid t, tasks1 !! tid = Some t → live (t_state t) = true → tasks !! tid = Some t).
Proof.
  intros [Hreg Hlive] Hdelay. unfold arm. rewrite Hdelay.
  destruct (storage !! key) as [g|] eqn:Hk.
  - destruct (Hreg _ _ Hk) as (old & t & Hold & Ht & Hkey & Hl).
    rewrite Hold. exists (cancel old tasks). rewrite cancel_length. split_and!.
    + f_equal. f_equal. apply map_eq. intros k.
      destruct (decide (k = key)) as [->|Hne].
      * by rewrite lookup_alter_eq, !lookup_insert_eq.
      * by rewrite lookup_alter_ne, !lookup_insert_ne.
    + done.
    + intros tid t' Ht' Hne. rewrite cancel_lookup_ne; [done|]. congruence.
    + intros tid t' Ht' Hkey'.
      destruct (decide (old = tid)) as [->|Hne].
      * destruct (cancel_lookup_eq _ _ _ Ht) as (t'' & Ht'' & _ & _ & Hd). congruence.
      * rewrite cancel_lookup_ne in Ht' by done.
        destruct (live (t_state t')) eqn:Hl'; [|done].
        destruct (Hlive _ _ Ht' Hl') as (g' & Hg' & Htid). congruence.
    + intros tid t' Ht' Hl'.
      destruct (decide (old = tid)) as [->|Hne].
      * destruct (cancel_lookup_eq _ _ _ Ht) as (t'' & Ht'' & _ & _ & Hd). congruence.
      * by rewrite cancel_lookup_ne in Ht'.
  - exists tasks. split_and!; try done.
    + f_equal. f_equal. cbn. apply map_eq. intros k.
      destruct (decide (k = key)) as [->|Hne].
      * by rewrite lookup_alter_eq, !lookup_insert_eq.
      * by rewrite lookup_alter_ne, !lookup_insert_ne.
    + intros tid t Ht Hkey.
      destruct (live (t_state t)) eqn:Hl; [|done].
      destruct (Hlive _ _ Ht Hl) as (g' & Hg' & Htid). congruence.
Qed.

Lemma arm_keeps_coherent h key group_messages storage tasks delay st' :
  coherent_st storage tasks →
  debounce_time h group_messages = inr delay →
  arm h (key, group_messages) (storage, tasks) = (st', None) →
  coherent_st st'.1 st'.2.
Proof.
  intros Hco Hdelay Harm.
  destruct (arm_coherent h key group_messages _ _ delay Hco Hdelay)
    as (tasks1 & Heq & Hlen & Hother & Hdead & Hback).
  rewrite Heq in Harm. inversion Harm; subst st'; clear Harm Heq. cbn [fst snd].
  destruct Hco as [Hreg Hlive]. split.
  - intros k g Hk. destruct (decide (k = key)) as [->|Hne].
    + rewrite lookup_insert_eq in Hk. inversion Hk; subst g; cbn.
      eexists _, _. split; [done|]. split; [|split].
      * rewrite lookup_app_r by lia. by rewrite Hlen, Nat.sub_diag.
      * done.
      * done.
    + rewrite lookup_insert_ne in Hk by done.
      destruct (Hreg _ _ Hk) as (tid & t & Htid & Ht & Hkey & Hl).
      exists tid, t. split_and!; try done.
      rewrite lookup_app_l by (rewrite Hlen; by eapply lookup_lt_Some).
      apply Hother; congruence.
  - intros tid t Ht Hl.
    destruct (decide (tid < length tasks1)) as [Hlt|Hge].
    + rewrite lookup_app_l in Ht by done.
      assert (t_key t ≠ key) as Hne.
      { intros Hk. specialize (Hdead _ _ Ht Hk). congruence. }
      destruct (Hlive _ _ (Hback _ _ Ht Hl) Hl) as (g & Hg & Hgt).
      exists g. by rewrite lookup_insert_ne.
    + rewrite lookup_app_r in Ht by lia.
      destruct (tid - length tasks1) as [|n] eqn:Hn; [|by destruct n].
      inversion Ht; subst t; cbn.
      rewrite lookup_insert_eq. eexists; split; [done|]. cbn.
      f_equal. lia.
Qed.

(** The loop over the groups of one request, on a coherent state and with
    intervals that convert: it does not raise, every group of the request
    is appended to the stored group of its key, and a new sleeping task with
    the delay of the group's first message is registered for that key. *)
Lemma for_debounce_groups_spec h groups storage tasks :
  coherent_st storage tasks →
  NoDup (map fst groups) →
  (∀ k g, (k, g) ∈ groups → ∃ delay, debounce_time h g = inr delay) →
  ∃ storage' tasks',
    for_debounce_groups h groups (storage, tasks) = (storage', tasks', None)
    ∧ coherent_st storage' tasks'
    ∧ (length tasks ≤ length tasks')%nat
    ∧ (∀ k, k ∉ map fst groups → storage' !! k = storage !! k)
    ∧ (∀ tid t, tasks !! tid = Some t → t_key t ∉ map fst groups →
         tasks' !! tid = Some t)
    ∧ (∀ k g, (k, g) ∈ groups →
         ∃ tid delay, (length tasks ≤ tid)%nat
           ∧ storage' !! k = Some {| g_messages := default [] (g_messages <$> storage !! k) ++ g;
                                     g_task := Some tid |}
           ∧ debounce_time h g = inr delay
           ∧ tasks' !! tid = Some {| t_key := k; t_delay := delay;
                                     t_state := Sleeping |}).
Proof.
  revert storage tasks. induction groups as [|[key gm] groups IH];
    intros storage tasks Hco Hnd Hconv.
  - exists storage, tasks. cbn. split_and!; try done.
    intros k g Hin. by apply elem_of_nil in Hin.
  - cbn [for_debounce_groups]. cbn [map fst] in Hnd.
    apply NoDup_cons in Hnd as [Hkey Hnd].
    destruct (Hconv key gm) as [delay Hdelay]; [left|].
    destruct (arm_coherent h key gm _ _ delay Hco Hdelay)
      as (tasks1 & Heq & Hlen & Hother & Hdead & Hback).
    pose proof (arm_keeps_coherent h key gm _ _ delay _ Hco Hdelay Heq) as Hco1.
    rewrite Heq. cbn [fst snd] in Hco1.
    assert (∀ k g, (k, g) ∈ groups → ∃ delay, debounce_time h g = inr delay) as Hconv'.
    { intros k g Hin. apply (Hconv k g). by right. }
    destruct (IH _ _ Hco1 Hnd Hconv')
      as (storage' & tasks' & Hrun & Hco' & Hle & Hst & Htk & Hgr).
    exists storage', tasks'. rewrite length_app in Hle. cbn in Hle.
    split_and!; try done.
    + lia.
    + intros k Hk. cbn in Hk. apply not_elem_of_cons in Hk as [Hne Hk].
      rewrite Hst by done. by rewrite lookup_insert_ne.
    + intros tid t Ht Hk. cbn in Hk. apply not_elem_of_cons in Hk as [Hne Hk].
      apply Htk; [|done]. rewrite lookup_app_l by (rewrite Hlen; by eapply lookup_lt_Some).
      by apply Hother.
    + intros k g Hin. apply elem_of_cons in Hin as [Hin|Hin].
      * inversion Hin; subst k g. exists (length tasks), delay. split; [done|].
        rewrite Hst by done. rewrite lookup_insert_eq. split; [done|].
        split; [done|].
        apply Htk; [|done]. rewrite lookup_app_r by lia.
        by rewrite Hlen, Nat.sub_diag.
      * destruct (Hgr _ _ Hin) as (tid & d & Htid & Hs & Hd & Ht).
        assert (k ≠ key) as Hne.
        { intros ->. apply Hkey. apply list_elem_of_fmap. by exists (key, g). }
        exists tid, d. rewrite length_app in Htid. cbn in Htid.
        split; [lia|]. rewrite lookup_insert_ne in Hs by done. done.
Qed.


Lemma deref_new (h : heap) (messages : list MessageInput) i m :
  messages !! i = Some m → deref (h ++ messages) (length h + i) = m.
Proof.
  intros Hi. unfold deref. rewrite lookup_app_r by lia.
  replace (length h + i - length h) with i by lia. by rewrite Hi.
Qed.

(** With convertible intervals, the division succeeds for every group of
    the request. *)
Lemma debounce_groups_convertible (h0 : heap) (messages : list MessageInput) k g :
  Forall convertible messages →
  (k, g) ∈ debounce_groups (h0 ++ messages) (seq (length h0) (length messages)) →
  ∃ delay, debounce_time (h0 ++ messages) g = inr delay.
Proof.
  intros Hconv Hin. apply group_by_elem in Hin as [Hg Hne].
  destruct g as [|l g]; [done|].
  assert (l ∈ filter (λ l, debounce_key (deref (h0 ++ messages) l) = k)
                     (seq (length h0) (length messages))) as Hl by (rewrite <- Hg; left).
  apply list_elem_of_filter in Hl as [_ Hl]. apply elem_of_seq in Hl.
  destruct (lookup_lt_is_Some_2 messages (l - length h0)) as [m Hm]; [lia|].
  rewrite Forall_lookup in Hconv. destruct (Hconv _ _ Hm) as [x Hx].
  unfold debounce_time. cbn [hd].
  replace l with (length h0 + (l - length h0))%nat by lia.
  rewrite (deref_new _ _ _ _ Hm), Hx. by eexists.
Qed.

(** The handler on a coherent state, for a request with convertible
    intervals: it answers 200, and for every key the request has messages
    for, these are appended, in their order in the request, to the stored
    group, and a new sleeping task is registered. *)
Lemma receive_messages_spec messages w :
  coherent w →
  Forall convertible messages →
  let h := w_heap w ++ messages in
  let msgs := seq (length (w_heap w)) (length messages) in
  ∃ storage' tasks',
    receive_messages messages w
    = ({| status_code := 200;
          payload := Accepted true
                       ("Lote de " +:+ pretty (length messages) +:+ " mensagens recebido e aceito")
                       (length (debounce_groups h msgs)) |},
       {| w_heap := h; debounce_storage := storage'; w_tasks := tasks';
          w_ticks := w_ticks w; w_trace := w_trace w |})
    ∧ coherent_st storage' tasks'
    ∧ (length (w_tasks w) ≤ length tasks')%nat
    ∧ ∀ k, match filter (λ l, debounce_key (deref h l) = k) msgs with
           | [] => storage' !! k = debounce_storage w !! k
           | g =>
               ∃ tid delay, (length (w_tasks w) ≤ tid)%nat
                 ∧ storage' !! k
                   = Some {| g_messages :=
                               default [] (g_messages <$> debounce_storage w !! k) ++ g;
                             g_task := Some tid |}
                 ∧ debounce_time h g = inr delay
                 ∧ tasks' !! tid = Some {| t_key := k; t_delay := delay;
                                           t_state := Sleeping |}
           end.
Proof.
  intros Hco Hconv h msgs. unfold receive_messages, alloc. fold h msgs.
  destruct (for_debounce_groups_spec h (debounce_groups h msgs) _ _ Hco)
    as (storage' & tasks' & Hrun & Hco' & Hle & Hst & Htk & Hgr).
  { apply group_by_NoDup. }
  { intros k g Hin. by apply (debounce_groups_convertible (w_heap w) messages k g). }
  exists storage', tasks'. rewrite Hrun. split_and!; try done.
  intros k. destruct (filter _ msgs) as [|l g] eqn:Hf.
  - apply Hst. intros Hin. apply list_elem_of_fmap in Hin as ([k' g'] & Hk & Hin).
    cbn in Hk. subst k'. apply group_by_elem in Hin as [-> Hne]. by rewrite Hf in Hne.
  - apply Hgr. apply group_by_elem. by rewrite Hf.
Qed.

Lemma post_messages_coherent env x_api_key messages w :
  coherent w → Forall convertible messages →
  coherent (post_messages env x_api_key messages w).2.
Proof.
  intros Hco Hconv. unfold post_messages.
  destruct (get_api_key_from_header env x_api_key) as [[code detail]|api_key]; [done|].
  destruct (receive_messages_spec messages w Hco Hconv) as (s' & t' & Heq & Hco' & _).
  by rewrite Heq.
Qed.

Lemma coherent_empty : coherent empty_world.
Proof.
  split.
  - intros k g Hk. cbn in Hk. by rewrite lookup_empty in Hk.
  - intros tid t Ht. cbn in Ht. by rewrite lookup_nil in Ht.
Qed.

(** ** The delay of a re-armed flush *)

Lemma filter_seq_first (P : nat → Prop) `{!∀ x, Decision (P x)} (start n i : nat) :
  (i < n)%nat → P (start + i)%nat →
  (∀ i', (i' < i)%nat → ¬ P (start + i')%nat) →
  ∃ rest, filter P (seq start n) = (start + i)%nat :: rest.
Proof.
  intros Hi HP Hfirst.
  replace n with (i + S (n - S i))%nat by lia.
  rewrite seq_app, filter_app. cbn [seq]. rewrite filter_cons_True by done.
  assert (filter P (seq start i) = []) as ->; [|by eexists].
  destruct (filter P (seq start i)) as [|x xs] eqn:Hf; [done|].
  assert (x ∈ filter P (seq start i)) as Hx by (rewrite Hf; left).
  apply list_elem_of_filter in Hx as [HPx Hx]. apply elem_of_seq in Hx.
  exfalso. apply (Hfirst (x - start)%nat); [lia|].
  by replace (start + (x - start))%nat with x by lia.
Qed.

(** ** A flush keeps store and tasks coherent *)

Lemma settle_storage tid task w h tick ev fr :
  debounce_storage (settle tid task w (h, tick, ev, fr))
  = match fr with
    | Some _ => debounce_storage w
    | None => delete (t_key task) (debounce_storage w)
    end.
Proof. by destruct fr. Qed.

Lemma settle_trace tid task w h tick ev fr :
  w_trace (settle tid task w (h, tick, ev, fr))
  = w_trace w ++ ev ++ match fr with Some _ => [] | None => [EvBatchDone (t_key task)] end.
Proof. destruct fr; cbn; by rewrite ?app_nil_r. Qed.

Lemma settle_tasks tid task w h tick ev fr :
  w_tasks (settle tid task w (h, tick, ev, fr))
  = <[tid := set_state (match fr with Some fr => Awaiting fr | None => Done end) task]>
      (w_tasks w).
Proof. by destruct fr. Qed.

Lemma settle_coherent tid task w r :
  coherent w → w_tasks w !! tid = Some task → live (t_state task) = true →
  coherent (settle tid task w r).
Proof.
  intros [Hreg Hlive] Ht Hl. destruct r as [[[h tick] ev] fr].
  destruct (Hlive _ _ Ht Hl) as (g & Hg & Hgt).
  unfold coherent. rewrite settle_storage, settle_tasks.
  assert (tid < length (w_tasks w))%nat as Hlt by (by eapply lookup_lt_Some).
  destruct fr as [fr|]; split.
  - intros k g' Hk. destruct (Hreg _ _ Hk) as (tid' & t' & Htid' & Ht' & Hkey & Hl').
    destruct (decide (tid' = tid)) as [->|Hne].
    + eexists tid, _. split; [done|]. rewrite list_lookup_insert_eq by done.
      split; [done|]. cbn. split; [congruence|done].
    + exists tid', t'. by rewrite list_lookup_insert_ne.
  - intros tid' t' Ht' Hl'. destruct (decide (tid' = tid)) as [->|Hne].
    + rewrite list_lookup_insert_eq in Ht' by done. inversion Ht'; subst t'. cbn. eauto.
    + rewrite list_lookup_insert_ne in Ht' by done. eauto.
  - intros k g' Hk. apply lookup_delete_Some in Hk as [Hne Hk].
    destruct (Hreg _ _ Hk) as (tid' & t' & Htid' & Ht' & Hkey & Hl').
    exists tid', t'. rewrite list_lookup_insert_ne; [done|]. congruence.
  - intros tid' t' Ht' Hl'. destruct (decide (tid' = tid)) as [->|Hne].
    + rewrite list_lookup_insert_eq in Ht' by done. by inversion Ht'; subst t'.
    + rewrite list_lookup_insert_ne in Ht' by done.
      destruct (Hlive _ _ Ht' Hl') as (g' & Hg' & Hgt').
      exists g'. split; [|done]. rewrite lookup_delete_ne; [done|].
      intros Hk. rewrite Hk, Hg' in Hg. congruence.
Qed.

Lemma run_task_coherent env tid w : coherent w → coherent (run_task env tid w).
Proof.
  intros Hco. unfold run_task.
  destruct (w_tasks w !! tid) as [task|] eqn:Ht; [|done].
  destruct (t_state task) eqn:Hs; [| |done|done].
  - destruct (proj2 Hco _ _ Ht) as (g & Hg & Hgt); [by rewrite Hs|].
    rewrite Hg. apply settle_coherent; [done|done|by rewrite Hs].
  - destruct (body_seg _ _ _ _ _ _ _ _) as [[h1 ev] [pc|]];
      (apply settle_coherent; [done|done|by rewrite Hs]).
Qed.

Lemma step_coherent env a w : coherent w → well_timed a → coherent (step env a w).
Proof.
  destruct a; cbn; [apply post_messages_coherent | intros; by apply run_task_coherent].
Qed.

Lemma run_coherent env schedule w :
  coherent w → Forall well_timed schedule → coherent (run env schedule w).
Proof.
  revert w. induction schedule as [|a schedule IH]; intros w Hco Hwt; [done|].
  apply Forall_cons in Hwt as [Ha Hwt].
  cbn. apply IH; [|done]. by apply step_coherent.
Qed.

Lemma convertible_by_evaluation m :
  match int_to_float (debounce m) with inr _ => True | inl _ => False end →
  convertible m.
Proof. unfold convertible. destruct (int_to_float (debounce m)); [done|by eauto]. Qed.

(** Concrete histories and requests are checked by evaluation. *)
Ltac timed :=
  repeat match goal with
         | |- Forall _ [] => apply Forall_nil_2
         | |- Forall _ (_ :: _) => apply Forall_cons_2
         | |- well_timed _ => cbn [well_timed]
         | |- True => exact I
         | |- convertible _ => apply convertible_by_evaluation; vm_compute; exact I
         end.

(** ** What holds after any history of requests and flushes *)

Lemma cancel_key old tasks tid t :
  tasks !! tid = Some t →
  ∃ t', cancel old tasks !! tid = Some t' ∧ t_key t' = t_key t.
Proof.
  intros Ht. unfold cancel. destruct (tasks !! old) as [t0|] eqn:Hold; [|by eauto].
  assert (∀ s, ∃ t', <[old := set_state s t0]> tasks !! tid = Some t'
                     ∧ t_key t' = t_key t) as Hins.
  { intros s. destruct (decide (old = tid)) as [->|Hne].
    - rewrite list_lookup_insert_eq by (by eapply lookup_lt_Some).
      eexists. split; [done|]. cbn. congruence.
    - rewrite list_lookup_insert_ne by done. by eauto. }
  destruct (t_state t0); by eauto.
Qed.

(** One round of the loop keeps the stored task ids meaningful, whether it
    raises or not. *)
Lemma arm_registered h kg st :
  registered_st st.1 st.2 →
  registered_st (arm h kg st).1.1 (arm h kg st).1.2.
Proof.
  destruct kg as [key gm], st as [storage tasks]. cbn [fst snd]. intros Hreg.
  assert (∀ old storage1 delay,
    (∀ k, k ≠ key → storage1 !! k = storage !! k) →
    registered_st (alter (set_task (length (cancel old tasks))) key storage1)
      (cancel old tasks ++ [{| t_key := key; t_delay := delay; t_state := Sleeping |}]))
    as Harmed.
  { intros old storage1 delay Hother k g tid Hk Htid.
    destruct (decide (k = key)) as [->|Hne].
    - destruct (storage1 !! key) as [g1|] eqn:Hk1.
      + rewrite lookup_alter_eq, Hk1 in Hk. cbn in Hk. inversion Hk; subst g.
        cbn in Htid. inversion Htid; subst tid.
        eexists. rewrite lookup_app_r by lia. by rewrite Nat.sub_diag.
      + rewrite lookup_alter_eq, Hk1 in Hk. done.
    - rewrite lookup_alter_ne, Hother in Hk by done.
      destruct (Hreg _ _ _ Hk Htid) as (t & Ht & Hkey).
      destruct (cancel_key old _ _ _ Ht) as (t' & Ht' & Hkey').
      exists t'. split; [|congruence].
      rewrite lookup_app_l by (by eapply lookup_lt_Some). done. }
  unfold arm. destruct (storage !! key) as [g|] eqn:Hk.
  - destruct (g_task g) as [old|] eqn:Hold; [|done].
    destruct (debounce_time h gm) as [e|delay]; cbn [fst snd].
    + intros k g' tid Hk' Htid. destruct (decide (k = key)) as [->|Hne].
      * rewrite lookup_insert_eq in Hk'. inversion Hk'; subst g'.
        cbn in Htid. inversion Htid; subst tid.
        destruct (Hreg _ _ _ Hk Hold) as (t & Ht & Hkey).
        destruct (cancel_key old _ _ _ Ht) as (t' & Ht' & Hkey').
        exists t'. split; congruence.
      * rewrite lookup_insert_ne in Hk' by done.
        destruct (Hreg _ _ _ Hk' Htid) as (t & Ht & Hkey).
        destruct (cancel_key old _ _ _ Ht) as (t' & Ht' & Hkey').
        exists t'. split; congruence.
    + apply Harmed. intros k Hne. by rewrite lookup_insert_ne.
  - destruct (debounce_time h gm) as [e|delay]; cbn [fst snd].
    + intros k g' tid Hk' Htid. destruct (decide (k = key)) as [->|Hne].
      * rewrite lookup_insert_eq in Hk'. inversion Hk'; subst g'. done.
      * rewrite lookup_insert_ne in Hk' by done. by eapply Hreg.
    + assert (cancel (length tasks) tasks = tasks) as Hc.
      { unfold cancel. by rewrite (lookup_ge_None_2 tasks (length tasks)). }
      rewrite <- Hc at 1 2. rewrite Hc at 1.
      rewrite <- (cancel_length (length tasks) tasks) at 1.
      apply Harmed. intros k Hne. by rewrite lookup_insert_ne.
Qed.

Lemma for_debounce_groups_registered h groups st :
  registered_st st.1 st.2 →
  registered_st (for_debounce_groups h groups st).1.1 (for_debounce_groups h groups st).1.2.
Proof.
  revert st. induction groups as [|kg groups IH]; intros st Hreg; [done|].
  cbn [for_debounce_groups].
  pose proof (arm_registered h kg st Hreg) as Hreg1.
  destruct (arm h kg st) as [st1 [e|]]; [done|]. by apply IH.
Qed.

Lemma post_messages_registered env x_api_key messages w :
  registered w → registered (post_messages env x_api_key messages w).2.
Proof.
  intros Hreg. unfold post_messages.
  destruct (get_api_key_from_header env x_api_key) as [[code detail]|api_key]; [done|].
  unfold receive_messages, alloc.
  pose proof (for_debounce_groups_registered (w_heap w ++ messages)
                (debounce_groups (w_heap w ++ messages)
                   (seq (length (w_heap w)) (length messages)))
                (debounce_storage w, w_tasks w) Hreg) as Hreg'.
  destruct (for_debounce_groups _ _ _) as [[storage tasks] [e|]]; exact Hreg'.
Qed.

Lemma set_state_registered storage tasks tid task s :
  registered_st storage tasks → tasks !! tid = Some task →
  registered_st storage (<[tid := set_state s task]> tasks).
Proof.
  intros Hreg Ht k g tid' Hk Htid'.
  destruct (Hreg _ _ _ Hk Htid') as (t & Ht' & Hkey).
  destruct (decide (tid = tid')) as [->|Hne].
  - rewrite list_lookup_insert_eq by (by eapply lookup_lt_Some).
    eexists. split; [done|]. cbn. congruence.
  - rewrite list_lookup_insert_ne by done. by eauto.
Qed.

Lemma settle_registered tid task w r :
  registered w → w_tasks w !! tid = Some task → registered (settle tid task w r).
Proof.
  intros Hreg Ht. destruct r as [[[h tick] ev] fr].
  unfold registered. rewrite settle_storage, settle_tasks.
  destruct fr as [fr|]; [by apply set_state_registered|].
  apply set_state_registered; [|done].
  intros k g tid' Hk Htid'. apply lookup_delete_Some in Hk as [_ Hk]. by eapply Hreg.
Qed.

Lemma run_task_registered env tid w : registered w → registered (run_task env tid w).
Proof.
  intros Hreg. unfold run_task.
  destruct (w_tasks w !! tid) as [task|] eqn:Ht; [|done].
  destruct (t_state task) eqn:Hs; [| |done|done].
  - destruct (debounce_storage w !! t_key task) as [g|].
    + by apply settle_registered.
    + by apply set_state_registered.
  - destruct (body_seg _ _ _ _ _ _ _ _) as [[h1 ev] [pc|]]; by apply settle_registered.
Qed.

Lemma run_registered env schedule : registered (run env schedule empty_world).
Proof.
  assert (∀ w, registered w → registered (run env schedule w)) as Hrun.
  { induction schedule as [|a schedule IH]; intros w Hreg; [done|].
    cbn. apply IH. destruct a; cbn.
    - by apply post_messages_registered.
    - by apply run_task_registered. }
  apply Hrun. intros k g tid Hk. cbn in Hk. by rewrite lookup_empty in Hk.
Qed.

(** ** An accepted request *)

(** A round of the loop that does not raise: the group of [key] is extended
    (or created), its former task is cancelled and a new sleeping task is
    registered for it; tasks of other keys are left alone. *)
Lemma arm_accepted h key gm storage tasks st' :
  registered_st storage tasks →
  arm h (key, gm) (storage, tasks) = (st', None) →
  ∃ delay tasks1,
    debounce_time h gm = inr delay
    ∧ st' = (<[key := {| g_messages := default [] (g_messages <$> storage !! key) ++ gm;
                         g_task := Some (length tasks) |}]> storage,
             tasks1 ++ [{| t_key := key; t_delay := delay; t_state := Sleeping |}])
    ∧ length tasks1 = length tasks
    ∧ (∀ tid t, tasks !! tid = Some t → t_key t ≠ key → tasks1 !! tid = Some t).
Proof.
  intros Hreg. unfold arm. destruct (storage !! key) as [g|] eqn:Hk.
  - destruct (g_task g) as [old|] eqn:Hold; [|done].
    destruct (debounce_time h gm) as [e|delay]; [done|].
    intros [= <-]. exists delay, (cancel old tasks). rewrite cancel_length.
    split_and!; try done.
    + f_equal. apply map_eq. intros k. destruct (decide (k = key)) as [->|Hne].
      * by rewrite lookup_alter_eq, !lookup_insert_eq.
      * by rewrite lookup_alter_ne, !lookup_insert_ne.
    + intros tid t Ht Hne. rewrite cancel_lookup_ne; [done|].
      destruct (Hreg _ _ _ Hk Hold) as (t0 & Ht0 & Hkey0). congruence.
  - destruct (debounce_time h gm) as [e|delay]; [done|].
    intros [= <-]. exists delay, tasks. split_and!; try done.
    f_equal. cbn. apply map_eq. intros k. destruct (decide (k = key)) as [->|Hne].
    + by rewrite lookup_alter_eq, !lookup_insert_eq.
    + by rewrite lookup_alter_ne, !lookup_insert_ne.
Qed.

(** The loop over the groups of a request it ends without an exception:
    every group of the request was appended to the stored group of its key,
    and a new sleeping task with the delay of the group's first message is
    registered for that key. *)
Lemma for_debounce_groups_accepted h groups storage tasks storage' tasks' :
  registered_st storage tasks →
  NoDup (map fst groups) →
  for_debounce_groups h groups (storage, tasks) = (storage', tasks', None) →
  length tasks' = (length tasks + length groups)%nat
  ∧ (∀ k, k ∉ map fst groups → storage' !! k = storage !! k)
  ∧ (∀ tid t, tasks !! tid = Some t → t_key t ∉ map fst groups →
       tasks' !! tid = Some t)
  ∧ (∀ k g, (k, g) ∈ groups →
       ∃ tid delay, (length tasks ≤ tid)%nat
         ∧ storage' !! k = Some {| g_messages := default [] (g_messages <$> storage !! k) ++ g;
                                   g_task := Some tid |}
         ∧ debounce_time h g = inr delay
         ∧ tasks' !! tid = Some {| t_key := k; t_delay := delay;
                                   t_state := Sleeping |}).
Proof.
  revert storage tasks. induction groups as [|[key gm] groups IH];
    intros storage tasks Hreg Hnd Hrun.
  - cbn in Hrun. inversion Hrun; subst. cbn. split_and!; try done; try lia.
    intros k g Hin. by apply elem_of_nil in Hin.
  - cbn [for_debounce_groups] in Hrun. cbn [map fst] in Hnd.
    apply NoDup_cons in Hnd as [Hkey Hnd].
    pose proof (arm_registered h (key, gm) (storage, tasks) Hreg) as Hreg1.
    destruct (arm h (key, gm) (storage, tasks)) as [st1 [e|]] eqn:Harm;
      [by inversion Hrun|].
    destruct (arm_accepted _ _ _ _ _ _ Hreg Harm)
      as (delay & tasks1 & Hdelay & -> & Hlen & Hother).
    cbn [fst snd] in Hreg1.
    destruct (IH _ _ Hreg1 Hnd Hrun) as (Hl & Hst & Htk & Hgr).
    rewrite length_app in Hl. cbn in Hl. split_and!.
    + cbn. lia.
    + intros k Hk. cbn in Hk. apply not_elem_of_cons in Hk as [Hne Hk].
      rewrite Hst by done. by rewrite lookup_insert_ne.
    + intros tid t Ht Hk. cbn in Hk. apply not_elem_of_cons in Hk as [Hne Hk].
      apply Htk; [|done]. rewrite lookup_app_l by (rewrite Hlen; by eapply lookup_lt_Some).
      by apply Hother.
    + intros k g Hin. apply elem_of_cons in Hin as [Hin|Hin].
      * inversion Hin; subst k g. exists (length tasks), delay. split; [done|].
        rewrite Hst by done. rewrite lookup_insert_eq. split; [done|].
        split; [done|].
        apply Htk; [|done]. rewrite lookup_app_r by lia.
        by rewrite Hlen, Nat.sub_diag.
      * destruct (Hgr _ _ Hin) as (tid & d & Htid & Hs & Hd & Ht).
        assert (k ≠ key) as Hne.
        { intros ->. apply Hkey. apply list_elem_of_fmap. by exists (key, g). }
        exists tid, d. rewrite length_app in Htid. cbn in Htid.
        split; [lia|]. rewrite lookup_insert_ne in Hs by done. done.
Qed.

(** The handler answering 200: for every key the request has messages for,
    these were appended, in their order in the request, to the stored
    group, and a new sleeping task is registered for the key. *)
Lemma receive_messages_accepted messages w :
  registered w →
  status_code (receive_messages messages w).1 = 200%Z →
  let h := w_heap w ++ messages in
  let msgs := seq (length (w_heap w)) (length messages) in
  ∃ storage' tasks',
    receive_messages messages w
    = ({| status_code := 200;
          payload := Accepted true
                       ("Lote de " +:+ pretty (length messages) +:+ " mensagens recebido e aceito")
                       (length (debounce_groups h msgs)) |},
       {| w_heap := h; debounce_storage := storage'; w_tasks := tasks';
          w_ticks := w_ticks w; w_trace := w_trace w |})
    ∧ length tasks' = (length (w_tasks w) + length (debounce_groups h msgs))%nat
    ∧ ∀ k, match filter (λ l, debounce_key (deref h l) = k) msgs with
           | [] => storage' !! k = debounce_storage w !! k
           | g =>
               ∃ tid delay, (length (w_tasks w) ≤ tid)%nat
                 ∧ storage' !! k
                   = Some {| g_messages :=
                               default [] (g_messages <$> debounce_storage w !! k) ++ g;
                             g_task := Some tid |}
                 ∧ debounce_time h g = inr delay
                 ∧ tasks' !! tid = Some {| t_key := k; t_delay := delay;
                                           t_state := Sleeping |}
           end.
Proof.
  intros Hreg Hok h msgs. unfold receive_messages, alloc in *. fold h msgs in Hok. fold h msgs.
  destruct (for_debounce_groups h (debounce_groups h msgs) (debounce_storage w, w_tasks w))
    as [[storage' tasks'] [e|]] eqn:Hrun; [by cbn in Hok|].
  destruct (for_debounce_groups_accepted _ _ _ _ _ _ Hreg (group_by_NoDup _ _) Hrun)
    as (Hl & Hst & Htk & Hgr).
  exists storage', tasks'. split_and!; try done.
  intros k. destruct (filter _ msgs) as [|l g] eqn:Hf.
  - apply Hst. intros Hin. apply list_elem_of_fmap in Hin as ([k' g'] & Hk & Hin).
    cbn in Hk. subst k'. apply group_by_elem in Hin as [-> Hne]. by rewrite Hf in Hne.
  - apply Hgr. apply group_by_elem. by rewrite Hf.
Qed.

Lemma request_message_grouped messages w i m :
  registered w →
  status_code (receive_messages messages w).1 = 200%Z →
  messages !! i = Some m →
  ∃ g, debounce_storage (receive_messages messages w).2 !! debounce_key m = Some g
       ∧ g_messages g
         = default [] (g_messages <$> debounce_storage w !! debounce_key m)
           ++ filter (λ l, debounce_key (deref (w_heap w ++ messages) l) = debounce_key m)
                     (seq (length (w_heap w)) (length messages))
       ∧ (length (w_heap w) + i)%nat ∈ g_messages g.
Proof.
  intros Hreg Hok Hi.
  destruct (receive_messages_accepted messages w Hreg Hok) as (s' & t' & Heq & _ & Hk).
  rewrite Heq. cbn [snd debounce_storage]. specialize (Hk (debounce_key m)).
  assert ((length (w_heap w) + i)%nat
          ∈ filter (λ l, debounce_key (deref (w_heap w ++ messages) l) = debounce_key m)
                   (seq (length (w_heap w)) (length messages))) as Hin.
  { apply list_elem_of_filter. split.
    - by rewrite (deref_new _ _ _ _ Hi).
    - apply elem_of_seq. apply lookup_lt_Some in Hi. lia. }
  destruct (filter _ _) as [|l g] eqn:Hf; [by apply elem_of_nil in Hin|].
  destruct Hk as (tid & delay & _ & Hs & _). eexists. split; [exact Hs|]. cbn.
  split; [done|]. apply elem_of_app. by right.
Qed.

(** ** The delay of a re-armed flush *)

(** C4, as the code has it. When an accepted request re-arms the flush of a
    group that is already stored, the new flush sleeps for the debounce
    interval of the first message that the request carries for that key (in
    seconds: the float [debounce / 1000.0]); with a single message for the
    key, that is the message being submitted. *)
Theorem rearm_delay_of_first_message (env : Env) (schedule : list Action)
    (messages : list MessageInput) (i : nat) (m : MessageInput) (g0 : Group) :
  let w := run env schedule empty_world in
  status_code (receive_messages messages w).1 = 200%Z →
  debounce_storage w !! debounce_key m = Some g0 →
  messages !! i = Some m →
  (∀ i' m', (i' < i)%nat → messages !! i' = Some m' → debounce_key m' ≠ debounce_key m) →
  let w' := (receive_messages messages w).2 in
  ∃ g tid x,
    debounce_storage w' !! debounce_key m = Some g
    ∧ g_messages g
      = g_messages g0
        ++ filter (λ l, debounce_key (deref (w_heap w ++ messages) l) = debounce_key m)
                  (seq (length (w_heap w)) (length messages))
    ∧ g_task g = Some tid
    ∧ (length (w_tasks w) ≤ tid)%nat
    ∧ int_to_float (debounce m) = inr x
    ∧ w_tasks w' !! tid = Some {| t_key := debounce_key m;
                                  t_delay := SpecFloat.SFdiv prec emax x thousand;
                                  t_state := Sleeping |}.
Proof.
  intros w Hok Hg0 Hi Hfirst w'. subst w'.
  destruct (receive_messages_accepted messages w (run_registered env schedule) Hok)
    as (s' & t' & Heq & _ & Hk).
  rewrite Heq. cbn [snd debounce_storage w_tasks]. specialize (Hk (debounce_key m)).
  destruct (filter_seq_first
              (λ l, debounce_key (deref (w_heap w ++ messages) l) = debounce_key m)
              (length (w_heap w)) (length messages) i) as (rest & Hf).
  - by eapply lookup_lt_Some.
  - by rewrite (deref_new _ _ _ _ Hi).
  - intros i' Hlt. destruct (messages !! i') as [m'|] eqn:Hi'.
    + rewrite (deref_new _ _ _ _ Hi'). by eapply Hfirst.
    + apply lookup_ge_None in Hi'. apply lookup_lt_Some in Hi. lia.
  - rewrite Hf in Hk. destruct Hk as (tid & delay & Hle & Hs & Hd & Ht).
    unfold debounce_time in Hd. cbn [hd] in Hd.
    rewrite (deref_new _ _ _ _ Hi) in Hd.
    destruct (int_to_float (debounce m)) as [e|x] eqn:Hx; [done|].
    inversion Hd; subst delay.
    eexists. exists tid, x. split; [exact Hs|]. cbn [g_messages g_task].
    rewrite Hg0, Hf. by split_and!.
Qed.

Lemma rearm_delay_witness :
  let env := Scenario.deployment Scenario.calm in
  let m0 := Scenario.message "oi" "a" "u" None 15000 in
  let m1 := Scenario.message "mais uma" "a" "u" None 1 in
  let w := run env [Post Scenario.key [m0]] empty_world in
  ∃ g tid x,
    debounce_storage (receive_messages [m1] w).2 !! "a_u_no_session" = Some g
    ∧ g_task g = Some tid
    ∧ int_to_float 1 = inr x
    ∧ w_tasks (receive_messages [m1] w).2 !! tid
      = Some {| t_key := "a_u_no_session";
                t_delay := SpecFloat.SFdiv prec emax x thousand;
                t_state := Sleeping |}.
Proof.
  intros env m0 m1 w.
  destruct (rearm_delay_of_first_message env [Post Scenario.key [m0]] [m1] 0 m1
              {| g_messages := [0%nat]; g_task := Some 0%nat |})
    as (g & tid & x & Hg & _ & Htid & _ & Hx & Ht).
  - vm_compute. reflexivity.
  - vm_compute. reflexivity.
  - reflexivity.
  - intros i' m' Hlt. lia.
  - exists g, tid, x. split; [exact Hg|]. split; [exact Htid|]. split; [exact Hx | exact Ht].
Defined.

(** The claim of C4 as the specification words it fails: with two messages
    for the same key in one request, the flush is armed with the interval of
    the first of them (1000 ms: the float 1.0), not of the most recently
    submitted one (5000 ms: the float 5.0). *)
Lemma rearm_delay_not_of_last_message :
  let m0 := Scenario.message "oi" "a" "u" None 15000 in
  let m1 := Scenario.message "um" "a" "u" None 1000 in
  let m2 := Scenario.message "dois" "a" "u" None 5000 in
  let w := (receive_messages [m0] empty_world).2 in
  let r := receive_messages [m1; m2] w in
  debounce_storage w !! "a_u_no_session" = Some {| g_messages := [0%nat]; g_task := Some 0%nat |}
  ∧ status_code r.1 = 200%Z
  ∧ debounce_storage r.2 !! "a_u_no_session"
    = Some {| g_messages := [0; 1; 2]%nat; g_task := Some 1%nat |}
  ∧ w_tasks r.2 !! 1%nat
    = Some {| t_key := "a_u_no_session";
              t_delay := SpecFloat.S754_finite false 4503599627370496 (-52);
              t_state := Sleeping |}
  ∧ debounce_time [m0; m1; m2] [2%nat]
    = inr (SpecFloat.S754_finite false 5629499534213120 (-50))
  ∧ debounce_time [m0; m1; m2] [1%nat]
    = inr (SpecFloat.S754_finite false 4503599627370496 (-52))
  ∧ debounce_time [m0; m1; m2] [1%nat] ≠ debounce_time [m0; m1; m2] [2%nat].
Proof.
  intros m0 m1 m2 w r. split_and!; try (vm_compute; reflexivity).
  vm_compute. discriminate.
Qed.

(** ** Coalescing of session-less messages *)

(** X28. Two messages of an accepted request with the same agent id and user
    id and no session id get the sentinel ["no_session"] in place of the
    session, hence the same batch key, and after the request both are in the
    one group stored under that key, behind the messages already pending
    there. *)
Theorem accepted_session_less_messages_coalesce (env : Env) (schedule : list Action)
    (messages : list MessageInput) (i j : nat) (m1 m2 : MessageInput) :
  let w := run env schedule empty_world in
  status_code (receive_messages messages w).1 = 200%Z →
  messages !! i = Some m1 → messages !! j = Some m2 →
  agent_id m1 = agent_id m2 → user_id m1 = user_id m2 →
  session_id m1 = None → session_id m2 = None →
  debounce_key m1 = agent_id m1 +:+ "_" +:+ user_id m1 +:+ "_" +:+ "no_session"
  ∧ debounce_key m2 = debounce_key m1
  ∧ ∃ g, debounce_storage (receive_messages messages w).2 !! debounce_key m1 = Some g
         ∧ (length (w_heap w) + i)%nat ∈ g_messages g
         ∧ (length (w_heap w) + j)%nat ∈ g_messages g
         ∧ ∀ l g0, debounce_storage w !! debounce_key m1 = Some g0 →
                   l ∈ g_messages g0 → l ∈ g_messages g.
Proof.
  intros w Hok Hi Hj Ha Hu Hs1 Hs2.
  pose proof (run_registered env schedule) as Hreg. fold w in Hreg.
  assert (debounce_key m2 = debounce_key m1) as Hk.
  { unfold debounce_key. by rewrite Ha, Hu, Hs1, Hs2. }
  split; [unfold debounce_key; by rewrite Hs1|]. split; [done|].
  destruct (request_message_grouped messages w i m1 Hreg Hok Hi) as (g & Hg & Hm & Hin).
  destruct (request_message_grouped messages w j m2 Hreg Hok Hj) as (g' & Hg' & _ & Hin').
  rewrite Hk, Hg in Hg'. inversion Hg'; subst g'.
  exists g. split_and!; try done.
  intros l g0 Hg0 Hl. rewrite Hm, Hg0. cbn. apply elem_of_app. by left.
Qed.

Lemma accepted_session_less_witness :
  let env := Scenario.deployment Scenario.calm in
  let m0 := Scenario.message "antes" "a" "u" None 2000 in
  let m1 := Scenario.message "oi" "a" "u" None 1000 in
  let m2 := Scenario.message "tudo bem?" "a" "u" None 3000 in
  let w := run env [Post Scenario.key [m0]] empty_world in
  debounce_key m1 = "a_u_no_session"
  ∧ ∃ g, debounce_storage (receive_messages [m1; m2] w).2 !! "a_u_no_session" = Some g
         ∧ 1%nat ∈ g_messages g ∧ 2%nat ∈ g_messages g.
Proof.
  intros env m0 m1 m2 w.
  destruct (accepted_session_less_messages_coalesce env [Post Scenario.key [m0]]
              [m1; m2] 0 1 m1 m2)
    as (Hk & _ & g & Hg & H0 & H1 & _); try reflexivity.
  split; [exact Hk|]. exists g. split; [exact Hg|]. split; [exact H0 | exact H1].
Defined.



(** ** What a flush may change in a message *)















(** ** One message body touches one message *)

Section BodyLocal.
Variables (env env' : Env) (agent : string) (agent_config : AgentConfig).
Variables (cls : option AgentClass) (tick : nat) (l : loc).
Hypothesis Hout : outside env tick = outside env' tick.






End BodyLocal.

(** ** Failures are isolated per message *)






(** ** The order in which a drained group is processed *)

Lemma dispatched_app ev ev' : dispatched (ev ++ ev') = dispatched ev ++ dispatched ev'.
Proof. apply omap_app. Qed.

Lemma message_body_dispatched env agent agent_config cls tick l h :
  dispatched (message_body env agent agent_config cls tick l h).2 = [l].
Proof.
  unfold message_body. cbn.
  destruct (match cls with Some _ => _ | None => _ end) as [e|r]; cbn; [done|].
  destruct (r_messages r); cbn; [done|].
  by destruct (str_truthy _).
Qed.

Lemma for_messages_dispatched env agent agent_config cls tick msgs h :
  dispatched (flat (for_messages env agent agent_config cls tick msgs h).2) = msgs.
Proof.
  revert tick h. induction msgs as [|l rest IH]; intros tick h; cbn [for_messages]; [done|].
  pose proof (message_body_dispatched env agent agent_config cls tick l h) as Hb.
  destruct (message_body env agent agent_config cls tick l h) as [h1 ev].
  specialize (IH (S tick) h1).
  destruct (for_messages env agent agent_config cls (S tick) rest h1) as [h2 out].
  unfold flat in *. cbn [map snd concat] in *. by rewrite dispatched_app, Hb, IH.
Qed.

Lemma process_agent_messages_dispatched env agent msgs tick h :
  dispatched (process_agent_messages env agent msgs tick h).2
  = if usable env agent then msgs else [].
Proof.
  unfold process_agent_messages, usable.
  destruct (agents_storage env !! agent) as [agent_config|]; [|done].
  destruct (make_agent env agent_config) as [e|cls]; [done|].
  pose proof (for_messages_dispatched env agent agent_config cls tick msgs h) as Hd.
  by destruct (for_messages env agent agent_config cls tick msgs h) as [h1 out].
Qed.

Lemma for_agent_groups_dispatched env groups tick h :
  dispatched (for_agent_groups env groups tick h).2
  = concat (map snd (filter (λ g, usable env g.1 = true) groups)).
Proof.
  revert tick h. induction groups as [|[agent msgs] groups IH]; intros tick h;
    cbn [for_agent_groups]; [done|].
  pose proof (process_agent_messages_dispatched env agent msgs tick h) as Hd.
  destruct (process_agent_messages env agent msgs tick h) as [[h1 tick1] ev].
  specialize (IH tick1 h1).
  destruct (for_agent_groups env groups tick1 h1) as [[h2 tick2] ev'].
  cbn [snd] in Hd, IH. cbn [snd]. rewrite dispatched_app, Hd, IH, filter_cons. cbn [fst].
  destruct (usable env agent); cbn; [|done].
  rewrite decide_True by done. done.
Qed.

Lemma group_by_one_key {V} (key : V → string) (a : string) (l : list V) :
  (∀ v, v ∈ l → key v = a) →
  group_by key l = match l with [] => [] | _ => [(a, l)] end.
Proof.
  intros Hall. destruct l as [|x l]; [done|]. unfold group_by. cbn [foldl dict_append].
  rewrite (Hall x) by left.
  assert (∀ acc, foldl (λ d v, dict_append (key v) v d) [(a, acc)] l = [(a, acc ++ l)])
    as Hfold.
  { assert (∀ v, v ∈ l → key v = a) as Hl by (intros v Hv; apply Hall; by right).
    clear Hall. induction l as [|y l IH]; intros acc; cbn [foldl dict_append].
    - by rewrite app_nil_r.
    - rewrite (Hl y) by left. rewrite decide_True by done.
      rewrite IH by (intros v Hv; apply Hl; by right). by rewrite <- app_assoc. }
  apply Hfold.
Qed.

Lemma group_by_keys_foldl {V} (key : V → string) (l : list V) d :
  map fst (foldl (λ d v, dict_append (key v) v d) d l)
  = map fst d ++ filter (λ k, k ∉ map fst d) (first_occurrences (map key l)).
Proof.
  revert d. induction l as [|v l IH]; intros d; cbn [foldl map first_occurrences].
  - by rewrite filter_nil, app_nil_r.
  - rewrite IH, dict_keys_append. case_decide as Hin.
    + rewrite filter_cons_False by (intros H; by apply H).
      rewrite list_filter_filter. f_equal. apply list_filter_iff.
      intros k. split; [|by intros [? ?]]. intros H. split; [done|]. by intros ->.
    + rewrite filter_cons_True by done. rewrite <- app_assoc. cbn. do 2 f_equal.
      rewrite list_filter_filter. apply list_filter_iff.
      intros k. rewrite elem_of_app, list_elem_of_singleton. tauto.
Qed.

(** The keys of a dict built by grouping: the distinct keys, in the order
    in which they first occur. *)
Lemma group_by_first_occurrences {V} (key : V → string) (l : list V) :
  map fst (group_by key l) = first_occurrences (map key l).
Proof.
  unfold group_by. rewrite group_by_keys_foldl. cbn.
  induction (first_occurrences (map key l)) as [|k ks IH]; [done|].
  rewrite filter_cons_True by (intros H; by apply elem_of_nil in H). by rewrite IH.
Qed.

(** The items of a dict built by grouping, in iteration order. *)
Lemma group_by_items {V} (key : V → string) (l : list V) :
  group_by key l
  = map (λ k, (k, filter (λ v, key v = k) l)) (first_occurrences (map key l)).
Proof.
  rewrite <- group_by_first_occurrences.
  assert (∀ k g, (k, g) ∈ group_by key l → g = filter (λ v, key v = k) l) as Hall.
  { intros k g Hin. by apply group_by_elem in Hin as [-> _]. }
  induction (group_by key l) as [|[k g] d IH]; [done|].
  cbn. rewrite (Hall k g) by left. f_equal. apply IH.
  intros k' g' Hin. apply Hall. by right.
Qed.

Lemma usable_groups env (F : string → list loc) (agents : list string) :
  concat (map snd (filter (λ g : string * list loc, usable env g.1 = true)
                          (map (λ a, (a, F a)) agents)))
  = concat (map F (filter (λ a, usable env a = true) agents)).
Proof.
  induction agents as [|a agents IH]; [done|].
  cbn [map]. rewrite !filter_cons. cbn [fst].
  destruct (decide (usable env a = true)); cbn; by rewrite IH.
Qed.

(** C5, as the code has it. The stored group keeps its messages in the
    order of submission: an accepted request appends its messages for a key,
    in their order in the request, behind those already pending. The
    dispatcher partitions a drained group by agent id and processes it agent
    by agent, in the order in which the agent ids first occur, skipping the
    agents it cannot use; the messages of one agent are processed in the
    order in which they were submitted. When all messages of the group
    carry one usable agent id, the group is processed in exactly the order
    of submission. *)
Theorem dispatch_order (env : Env) (schedule : list Action)
    (messages : list MessageInput) (batch_key : string) (msgs : list loc)
    (storage : gmap string Group) (tick : nat) (h : heap) :
  let w := run env schedule empty_world in
  let agent_of := λ l, agent_id (deref h l) in
  let ev := (process_message_batch env batch_key msgs storage tick h).2 in
  (status_code (receive_messages messages w).1 = 200%Z →
   ∀ k, k ∈ map debounce_key messages →
     ∃ g, debounce_storage (receive_messages messages w).2 !! k = Some g
          ∧ g_messages g
            = default [] (g_messages <$> debounce_storage w !! k)
              ++ filter (λ l, debounce_key (deref (w_heap w ++ messages) l) = k)
                        (seq (length (w_heap w)) (length messages)))
  ∧ agent_groups h msgs
    = map (λ a, (a, filter (λ l, agent_of l = a) msgs))
          (first_occurrences (map agent_of msgs))
  ∧ dispatched ev
    = concat (map (λ a, filter (λ l, agent_of l = a) msgs)
                  (filter (λ a, usable env a = true)
                          (first_occurrences (map agent_of msgs))))
  ∧ (∀ a, usable env a = true → (∀ l, l ∈ msgs → agent_of l = a) →
          dispatched ev = msgs).
Proof.
  intros w agent_of ev.
  assert (dispatched ev
          = concat (map snd (filter (λ g, usable env g.1 = true) (agent_groups h msgs))))
    as Hd.
  { subst ev. unfold process_message_batch.
    pose proof (for_agent_groups_dispatched env (agent_groups h msgs) tick h) as Hd.
    destruct (for_agent_groups env (agent_groups h msgs) tick h) as [[h1 tick1] ev].
    cbn [snd] in *.
    change (EvBatch batch_key msgs :: ev ++ [EvBatchDone batch_key])
      with ([EvBatch batch_key msgs] ++ ev ++ [EvBatchDone batch_key]).
    rewrite !dispatched_app, Hd. cbn. by rewrite app_nil_r. }
  assert (agent_groups h msgs
          = map (λ a, (a, filter (λ l, agent_of l = a) msgs))
                (first_occurrences (map agent_of msgs))) as Hitems.
  { unfold agent_groups. apply group_by_items. }
  split_and!.
  - intros Hok k Hk. apply list_elem_of_fmap in Hk as (m & -> & Hm).
    apply list_elem_of_lookup in Hm as [i Hi].
    destruct (request_message_grouped messages w i m (run_registered env schedule) Hok Hi)
      as (g & Hg & Hgm & _).
    by exists g.
  - exact Hitems.
  - rewrite Hd, Hitems. apply usable_groups.
  - intros a Hu Hall. rewrite Hd. unfold agent_groups.
    rewrite (group_by_one_key _ a) by done.
    destruct msgs as [|l msgs]; [done|].
    rewrite filter_cons. cbn [fst]. rewrite decide_True by done. cbn.
    by rewrite app_nil_r.
Qed.

Lemma dispatch_order_witness :
  let env := Scenario.deployment Scenario.calm in
  let mA := Scenario.message "A" "a" "u" None 50 in
  let mB := Scenario.message "B" "a" "u" None 50 in
  let w := run env [Post Scenario.key [mA]] empty_world in
  (∃ g, debounce_storage (receive_messages [mB] w).2 !! "a_u_no_session" = Some g
        ∧ g_messages g = [0; 1]%nat)
  ∧ dispatched (process_message_batch env "a_u_no_session" [0; 1]%nat ∅ 0 [mA; mB]).2
    = [0; 1]%nat.
Proof.
  intros env mA mB w.
  destruct (dispatch_order env [Post Scenario.key [mA]] [mB] "a_u_no_session"
              [0; 1]%nat ∅ 0 [mA; mB]) as (Hstored & _ & _ & Hone).
  split.
  - destruct (Hstored eq_refl "a_u_no_session") as (g & Hg & Hm); [left|].
    exists g. split; [exact Hg|]. rewrite Hm. vm_compute. reflexivity.
  - apply (Hone "a").
    + vm_compute. reflexivity.
    + intros l Hl. apply elem_of_cons in Hl as [->|Hl]; [reflexivity|].
      apply elem_of_cons in Hl as [->|Hl]; [reflexivity|].
      by apply elem_of_nil in Hl.
Defined.

(** The claim of C5 as the specification words it fails: three messages
    stored in one group (their keys collide) for two agents are submitted
    in the order 0, 1, 2 and processed in the order 0, 2, 1. *)
Lemma group_not_processed_in_submission_order :
  let env := Scenario.deployment Scenario.calm in
  let m1 := Scenario.message "um" "a_b" "c" None 1000 in
  let m2 := Scenario.message "dois" "a" "b_c" None 1000 in
  let m3 := Scenario.message "tres" "a_b" "c" None 1000 in
  let w := run env [Post Scenario.key [m1; m2; m3]; Run 0; Run 0; Run 0; Run 0; Run 0;
                    Run 0; Run 0; Run 0; Run 0] empty_world in
  flushed (w_trace w) = [("a_b_c_no_session", [0; 1; 2]%nat)]
  ∧ dispatched (w_trace w) = [0; 2; 1]%nat
  ∧ t_state <$> w_tasks w !! 0%nat = Some Done
  ∧ dispatched (process_message_batch env "a_b_c_no_session" [0; 1; 2]%nat ∅ 0
                                      [m1; m2; m3]).2 = [0; 2; 1]%nat.
Proof. intros env m1 m2 m3 w. split_and!; vm_compute; reflexivity. Qed.

(** ** Authentication of [POST /messages] *)

Lemma str_eqb_neq (a b : string) : a ≠ b → String.eqb a b = false.
Proof. intros H. apply String.eqb_neq. exact H. Qed.

(** C10. A request whose [X-API-Key] header is missing or differs from the
    configured key is answered with status 401, and the process state is
    the one before the request: no group is created or modified and no
    flush is scheduled. *)
Theorem unauthorized_request_changes_nothing (env : Env) (x_api_key : option string)
    (messages : list MessageInput) (w : World) :
  x_api_key = None ∨ x_api_key ≠ Some (API_KEY env) →
  post_messages env x_api_key messages w
  = ({| status_code := 401; payload := Detail "Chave de API inválida" |}, w).
Proof.
  intros H. unfold post_messages, get_api_key_from_header.
  destruct x_api_key as [api_key|]; [|done].
  destruct H as [H|H]; [done|].
  assert (api_key ≠ API_KEY env) as Hne by congruence.
  rewrite (str_eqb_neq _ _ Hne). simpl. by rewrite orb_true_r.
Qed.

Lemma unauthorized_request_witness :
  let env := Scenario.deployment Scenario.calm in
  post_messages env (Some "guess") [Scenario.message "oi" "a" "u" None 1000] empty_world
  = ({| status_code := 401; payload := Detail "Chave de API inválida" |}, empty_world).
Proof.
  intros env.
  apply (unauthorized_request_changes_nothing env (Some "guess")).
  right. vm_compute. discriminate.
Defined.

(** ** The agent invoker never fails towards the dispatcher *)

Lemma apply_skills_keeps (str_lower : string → string) (self : SimpleAgent.t)
    (state : SimpleAgent.AgentState) :
  let state' := SimpleAgent._apply_skills str_lower self state in
  SimpleAgent.st_user_id state' = SimpleAgent.st_user_id state
  ∧ SimpleAgent.st_session_id state' = SimpleAgent.st_session_id state
  ∧ SimpleAgent.st_agent_id state' = SimpleAgent.st_agent_id state
  ∧ SimpleAgent.transferir state' = SimpleAgent.transferir state
  ∧ SimpleAgent.custom state' = SimpleAgent.custom state
  ∧ SimpleAgent.agent_usage state' = SimpleAgent.agent_usage state.
Proof.
  unfold SimpleAgent._apply_skills. by destruct (SimpleAgent.self_skills self).
Qed.

(** C8. [SimpleAgent.process] never raises; when the graph runtime or the
    LLM call fails, it returns the response holding the fixed fallback text
    with the session id, the user id and the agent id echoed back, and the
    dispatcher goes on with that response (it is saved and sent on). *)
Theorem agent_failure_gives_fallback (str_lower : string → string) (setup_fault : option exn)
    (env : Env) (agent : string) (agent_config : AgentConfig) (tick : nat) (l : loc) (h : heap) :
  let cls := simple_agent_class str_lower setup_fault in
  let self := SimpleAgent.init agent_config in
  let world := outside env tick in
  let msg := deref h l in
  let session := default "" (session_id msg) in
  let reply := cls_process cls agent_config world [mensagem msg] (user_id msg) session
                           (tenant_of msg) in
  let fallback := SimpleAgent.fallback_response self (user_id msg) session in
  (∃ response, reply = inr response)
  ∧ (is_Some (graph_fault world)
     ∨ (∃ e, llm_invoke world
               (SimpleAgent.prompt str_lower self world [mensagem msg] (user_id msg) session
                                   (tenant_of msg)) = inl e) →
     reply = inr fallback
     ∧ r_messages fallback = [SimpleAgent.fallback_text]
     ∧ r_session_id fallback = session
     ∧ r_user_id fallback = user_id msg
     ∧ r_agent_id fallback = ac_id agent_config
     ∧ body_seg env agent agent_config (Some cls) tick l PcContext h
       = (h, [EvAgentReply l fallback;
              EvSave l (tenant_of msg) (user_id msg) session (mensagem msg)
                     SimpleAgent.fallback_text],
          Some (PcSave fallback))).
Proof.
  intros cls self world msg session reply fallback.
  assert (Hcases : (is_Some (graph_fault world)
     ∨ (∃ e, llm_invoke world
               (SimpleAgent.prompt str_lower self world [mensagem msg] (user_id msg) session
                                   (tenant_of msg)) = inl e)) → reply = inr fallback).
  { intros [[e He]|[e He]]; subst reply; cbn [cls cls_process simple_agent_class].
    - unfold SimpleAgent.process, SimpleAgent.graph_invoke. fold world. by rewrite He.
    - unfold SimpleAgent.process, SimpleAgent.graph_invoke. fold world self.
      destruct (graph_fault world); [done|].
      cbn [try_except]. unfold SimpleAgent._generate_response.
      unfold SimpleAgent.prompt in He. rewrite He.
      destruct (apply_skills_keeps str_lower self
                  (SimpleAgent._process_message self world
                     (SimpleAgent.initial_state self [mensagem msg] (user_id msg) session
                        (tenant_of msg)))) as (Hu & Hs & Ha & Ht & Hc & Hg).
      unfold fallback, SimpleAgent.fallback_response. f_equal. cbn.
      f_equal; [by rewrite Ht|by rewrite Hs|by rewrite Hu|by rewrite Ha|by rewrite Hc|by rewrite Hg]. }
  split.
  - subst reply. cbn [cls cls_process simple_agent_class].
    unfold SimpleAgent.process, SimpleAgent.graph_invoke.
    clear Hcases. destruct (graph_fault world); cbn [try_except]; eauto.
  - intros Hfail. specialize (Hcases Hfail).
    split; [done|]. do 4 (split; [done|]).
    unfold body_seg. fold msg world session. fold reply. rewrite Hcases.
    reflexivity.
Qed.

Lemma agent_failure_witness :
  let env := Scenario.deployment (Scenario.llm_down 0) in
  let h := [Scenario.message "oi" "a" "u" (Some "s1") 1000] in
  ∃ fallback,
    cls_process (simple_agent_class lower None) (Scenario.agent "a" "http://hook")
                (outside env 0) ["oi"] "u" "s1" "tenant_acme" = inr fallback
    ∧ r_messages fallback = [SimpleAgent.fallback_text].
Proof.
  intros env h. eexists.
  destruct (proj2 (agent_failure_gives_fallback lower None env "a"
                     (Scenario.agent "a" "http://hook") 0 0 h)) as (H & H1 & _).
  - right. exists "timeout". reflexivity.
  - split; [exact H | exact H1].
Defined.

(** ** Scenarios on the concrete deployment *)

(** C3, at a failing input. The key is the three parts joined by ["_"]: the
    pairs (agent ["a_b"], user ["c"]) and (agent ["a"], user ["b_c"]) get the
    same key, the two messages are stored in one group, and one flush drains
    both. *)
Lemma key_collision_one_group :
  let m1 := Scenario.message "oi" "a_b" "c" None 1000 in
  let m2 := Scenario.message "ola" "a" "b_c" None 1000 in
  let env := Scenario.deployment Scenario.calm in
  let w := run env [Post Scenario.key [m1; m2]] empty_world in
  (agent_id m1, user_id m1, session_id m1) ≠ (agent_id m2, user_id m2, session_id m2)
  ∧ debounce_key m1 = "a_b_c_no_session"
  ∧ debounce_key m2 = "a_b_c_no_session"
  ∧ debounce_storage w !! "a_b_c_no_session"
    = Some {| g_messages := [0; 1]%nat; g_task := Some 0%nat |}
  ∧ flushed (w_trace (run env [Run 0] w)) = [("a_b_c_no_session", [0; 1]%nat)].
Proof.
  intros m1 m2 env w. split_and!; try (vm_compute; reflexivity).
  vm_compute. discriminate.
Qed.

(** C1, at a failing input. A first message is being flushed (its agent has
    replied, the flush waits for the webhook in [send_webhook]) when a second
    message for the same key arrives: the group is still in the store, so the
    request cancels the running flush and appends to the group, and the next
    flush finds the key and hands the first message to the agent again. *)
Lemma message_flushed_twice :
  let m1 := Scenario.message "oi" "a" "u" None 1000 in
  let m2 := Scenario.message "tudo bem?" "a" "u" None 1000 in
  let env := Scenario.deployment Scenario.calm in
  let w := run env [Post Scenario.key [m1]; Run 0; Run 0; Run 0; Post Scenario.key [m2];
                    Run 1; Run 1; Run 1; Run 1; Run 1; Run 1; Run 1] empty_world in
  flushed (w_trace w) = [("a_u_no_session", [0]%nat); ("a_u_no_session", [0; 1]%nat)]
  ∧ replied (w_trace w) = [0; 0; 1]%nat
  ∧ t_state <$> w_tasks w !! 0%nat = Some Cancelled
  ∧ t_state <$> w_tasks w !! 1%nat = Some Done
  ∧ debounce_storage w !! "a_u_no_session" = None.
Proof. intros m1 m2 env w. split_and!; vm_compute; reflexivity. Qed.

(** C2, at a failing input. The flush of a one-message group has handed the
    batch over and the agent has replied for the message, and the group is
    still in the store under its key, naming the running flush: nothing is
    removed before the agent is invoked (the key is deleted at the end of
    [process_message_batch]). *)
Lemma agent_invoked_before_removal :
  let m1 := Scenario.message "oi" "a" "u" None 1000 in
  let env := Scenario.deployment Scenario.calm in
  let w := run env [Post Scenario.key [m1]; Run 0; Run 0] empty_world in
  replied (w_trace w) = [0%nat]
  ∧ debounce_storage w !! "a_u_no_session"
    = Some {| g_messages := [0%nat]; g_task := Some 0%nat |}.
Proof. intros m1 env w. split; vm_compute; reflexivity. Qed.

(** * Further properties *)

(** ** A flush that nothing interrupts does what [process_message_batch] does *)

Section Uninterrupted.
Variable env : Env.

Lemma run_task_awaiting tid task fr w :
  w_tasks w !! tid = Some task → t_state task = Awaiting fr →
  run_task env tid w = settle tid task w (resume env fr (w_ticks w) (w_heap w)).
Proof.
  intros Ht Hs. unfold run_task, resume. rewrite Ht, Hs.
  by destruct (body_seg env _ _ _ _ _ _ _) as [[h1 ev] [pc|]].
Qed.

Lemma body_seg_rank agent agent_config cls tick l pc h h1 ev pc' :
  body_seg env agent agent_config cls tick l pc h = (h1, ev, Some pc') →
  rank pc = S (rank pc').
Proof.
  destruct pc; cbn.
  - by intros [= _ _ <-].
  - destruct (match cls with Some _ => _ | None => _ end) as [e|r]; [done|].
    destruct (r_messages r); [done|]. by intros [= _ _ <-].
  - destruct (str_truthy _); [|done]. by intros [= _ _ <-].
  - done.
Qed.

(** More fuel than the body has stretches changes nothing. *)
Lemma body_run_fuel agent agent_config cls tick l fuel pc h :
  (rank pc ≤ fuel)%nat →
  body_run env agent agent_config cls tick l fuel pc h
  = body_run env agent agent_config cls tick l (rank pc) pc h.
Proof.
  revert pc h. induction fuel as [|fuel IH]; intros pc h Hr.
  - destruct pc; cbn in Hr; lia.
  - destruct (rank pc) as [|r] eqn:Hrank; [destruct pc; discriminate|].
    cbn [body_run].
    destruct (body_seg env agent agent_config cls tick l pc h) as [[h1 ev] [pc'|]] eqn:Hseg;
      [|done].
    apply body_seg_rank in Hseg. rewrite Hrank in Hseg. injection Hseg as ->.
    rewrite IH by lia. done.
Qed.

Lemma body_run_step agent agent_config cls tick l pc h :
  body_run env agent agent_config cls tick l 4 pc h
  = let '(h1, ev, next) := body_seg env agent agent_config cls tick l pc h in
    match next with
    | None => (h1, ev)
    | Some pc' =>
        let '(h2, ev') := body_run env agent agent_config cls tick l 4 pc' h1 in
        (h2, ev ++ ev')
    end.
Proof.
  destruct (body_seg env agent agent_config cls tick l pc h) as [[h1 ev] [pc'|]] eqn:Hseg.
  - pose proof (body_seg_rank _ _ _ _ _ _ _ _ _ _ Hseg) as Hr.
    rewrite (body_run_fuel _ _ _ _ _ 4 pc') by (destruct pc'; cbn; lia).
    rewrite (body_run_fuel _ _ _ _ _ 4 pc) by (destruct pc; cbn; lia).
    rewrite Hr. cbn [body_run]. by rewrite Hseg.
  - rewrite (body_run_fuel _ _ _ _ _ 4 pc) by (destruct pc; cbn; lia).
    destruct (rank pc) as [|r] eqn:Hrank; [destruct pc; discriminate|].
    cbn [body_run]. by rewrite Hseg.
Qed.

Lemma for_agent_groups_cons agent agent_config cls l rest groups tick h :
  agents_storage env !! agent = Some agent_config →
  make_agent env agent_config = inr cls →
  for_agent_groups env ((agent, l :: rest) :: groups) tick h
  = let '(h1, evb) := message_body env agent agent_config cls tick l h in
    let '(h2, out) := for_messages env agent agent_config cls (S tick) rest h1 in
    let '(h3, tick3, ev3) := for_agent_groups env groups (S tick + length rest) h2 in
    (h3, tick3, evb ++ flat out ++ ev3).
Proof.
  intros Ha Hm. cbn [for_agent_groups]. unfold process_agent_messages.
  rewrite Ha, Hm. cbn [for_messages].
  destruct (message_body env agent agent_config cls tick l h) as [h1 evb].
  destruct (for_messages env agent agent_config cls (S tick) rest h1) as [h2 out].
  cbn [length]. replace (tick + S (length rest))%nat with (S tick + length rest)%nat by lia.
  destruct (for_agent_groups env groups (S tick + length rest) h2) as [[h3 tick3] ev3].
  unfold flat. cbn [map snd concat]. by rewrite <- app_assoc.
Qed.

(** [enter_groups] is the beginning of [for_agent_groups]. *)
Lemma enter_groups_seq groups tick h :
  let '(h1, tick1, ev, fr) := enter_groups env groups tick h in
  match fr with
  | None => for_agent_groups env groups tick h = (h1, tick1, ev)
  | Some fr =>
      tick1 = S (f_tick fr)
      ∧ for_agent_groups env groups tick h
        = let '(h4, tick4, ev4) := rest_of_flush env fr h1 in (h4, tick4, ev ++ ev4)
  end.
Proof.
  induction groups as [|[agent msgs] groups IH]; [done|].
  cbn [enter_groups].
  destruct (agents_storage env !! agent) as [agent_config|] eqn:Ha.
  - destruct (make_agent env agent_config) as [e|cls] eqn:Hm.
    + cbn [for_agent_groups]. unfold process_agent_messages. rewrite Ha, Hm.
      destruct (enter_groups env groups tick h) as [[[h1 tick1] ev] [fr|]].
      * destruct IH as [-> IH]. rewrite IH. split; [done|].
        by destruct (rest_of_flush env fr h1) as [[h4 tick4] ev4].
      * by rewrite IH.
    + destruct msgs as [|l rest].
      * cbn [for_agent_groups]. unfold process_agent_messages. rewrite Ha, Hm.
        cbn [for_messages length]. rewrite Nat.add_0_r.
        destruct (enter_groups env groups tick h) as [[[h1 tick1] ev] [fr|]].
        -- destruct IH as [-> IH]. rewrite IH. split; [done|].
           by destruct (rest_of_flush env fr h1) as [[h4 tick4] ev4].
        -- by rewrite IH.
      * rewrite (for_agent_groups_cons _ _ _ _ _ _ _ _ Ha Hm).
        unfold start_message, message_body. rewrite body_run_step.
        destruct (body_seg env agent agent_config cls tick l PcStart h)
          as [[h1 ev] next] eqn:Hseg.
        assert (next = Some PcContext) as -> by (cbn in Hseg; congruence).
        split; [done|]. unfold rest_of_flush. cbn [f_agent f_config f_class f_tick
          f_msg f_pc f_rest f_groups].
        destruct (body_run env agent agent_config cls tick l 4 PcContext h1) as [h2 evb].
        destruct (for_messages env agent agent_config cls (S tick) rest h2) as [h3 out].
        destruct (for_agent_groups env groups (S tick + length rest) h3)
          as [[h4 tick4] ev4].
        by rewrite <- app_assoc.
  - cbn [for_agent_groups]. unfold process_agent_messages. rewrite Ha.
    destruct (enter_groups env groups tick h) as [[[h1 tick1] ev] [fr|]].
    + destruct IH as [-> IH]. rewrite IH. split; [done|].
      by destruct (rest_of_flush env fr h1) as [[h4 tick4] ev4].
    + by rewrite IH.
Qed.

Lemma enter_groups_stretches groups tick h h1 tick1 ev fr :
  enter_groups env groups tick h = (h1, tick1, ev, Some fr) →
  (stretches fr < 4 * length (concat (map snd groups)))%nat.
Proof.
  revert h1 tick1 ev. induction groups as [|[agent msgs] groups IH]; intros h1 tick1 ev;
    [done|].
  cbn [enter_groups map snd concat]. rewrite length_app.
  destruct (agents_storage env !! agent) as [agent_config|].
  - destruct (make_agent env agent_config) as [e|cls].
    + destruct (enter_groups env groups tick h) as [[[h2 tick2] ev2] fr2] eqn:He.
      intros [= <- <- <- ->]. specialize (IH _ _ _ eq_refl). lia.
    + destruct msgs as [|l rest].
      * intros He. specialize (IH _ _ _ He). lia.
      * unfold start_message.
        destruct (body_seg env agent agent_config cls tick l PcStart h) as [[h2 ev2] next].
        intros [= <- <- <- <-]. unfold stretches. cbn. lia.
  - destruct (enter_groups env groups tick h) as [[[h2 tick2] ev2] fr2] eqn:He.
    intros [= <- <- <- ->]. specialize (IH _ _ _ eq_refl). lia.
Qed.

(** One stretch of a suspended flush is the beginning of what is left of
    [process_message_batch], and leaves less to run. *)
Lemma resume_seq fr h :
  let '(h1, tick1, ev, next) := resume env fr (S (f_tick fr)) h in
  match next with
  | None => rest_of_flush env fr h = (h1, tick1, ev)
  | Some fr' =>
      tick1 = S (f_tick fr') ∧ (stretches fr' < stretches fr)%nat
      ∧ rest_of_flush env fr h
        = let '(h4, tick4, ev4) := rest_of_flush env fr' h1 in (h4, tick4, ev ++ ev4)
  end.
Proof.
  destruct fr as [agent agent_config cls tick l pc rest groups].
  assert (rest_of_flush env (Build_Frame agent agent_config cls tick l pc rest groups) h
          = let '(h1, ev) := body_run env agent agent_config cls tick l 4 pc h in
            let '(h2, out) := for_messages env agent agent_config cls (S tick) rest h1 in
            let '(h3, tick3, ev3) :=
              for_agent_groups env groups (S tick + length rest) h2 in
            (h3, tick3, ev ++ flat out ++ ev3)) as Hrest by done.
  unfold resume.
  cbn [f_agent f_config f_class f_tick f_msg f_pc f_rest f_groups].
  rewrite Hrest, body_run_step. clear Hrest.
  destruct (body_seg env agent agent_config cls tick l pc h) as [[h1 ev] [pc'|]] eqn:Hseg.
  - split; [done|]. split.
    { apply body_seg_rank in Hseg. unfold stretches. cbn. lia. }
    unfold rest_of_flush.
    cbn [f_agent f_config f_class f_tick f_msg f_pc f_rest f_groups].
    destruct (body_run env agent agent_config cls tick l 4 pc' h1) as [h2 evb].
    destruct (for_messages env agent agent_config cls (S tick) rest h2) as [h3 out].
    destruct (for_agent_groups env groups (S tick + length rest) h3) as [[h4 tick4] ev4].
    by rewrite <- app_assoc.
  - assert (1 ≤ rank pc)%nat as Hpc by (destruct pc; cbn; lia).
    destruct rest as [|l' rest].
    + cbn [for_messages length flat map concat app]. rewrite Nat.add_0_r.
      pose proof (enter_groups_seq groups (S tick) h1) as Hs.
      pose proof (enter_groups_stretches groups (S tick) h1) as Hb.
      destruct (enter_groups env groups (S tick) h1) as [[[h2 tick2] ev2] [fr'|]].
      * cbn [prepend]. destruct Hs as [-> Hs]. split; [done|]. split.
        { specialize (Hb _ _ _ _ eq_refl). unfold stretches at 2. cbn. lia. }
        rewrite Hs. destruct (rest_of_flush env fr' h2) as [[h4 tick4] ev4].
        by rewrite <- app_assoc.
      * cbn [prepend]. by rewrite Hs.
    + cbn [for_messages]. unfold start_message, message_body. rewrite body_run_step.
      destruct (body_seg env agent agent_config cls (S tick) l' PcStart h1)
        as [[h2 ev2] next] eqn:Hseg2.
      assert (next = Some PcContext) as -> by (cbn in Hseg2; congruence).
      cbn [prepend f_agent f_config f_class f_tick f_msg f_pc f_rest f_groups].
      split; [done|]. split; [unfold stretches; cbn; lia|].
      unfold rest_of_flush.
      cbn [f_agent f_config f_class f_tick f_msg f_pc f_rest f_groups].
      destruct (body_run env agent agent_config cls (S tick) l' 4 PcContext h2) as [h3 evb].
      destruct (for_messages env agent agent_config cls (S (S tick)) rest h3) as [h4 out].
      cbn [length].
      replace (S tick + S (length rest))%nat with (S (S tick) + length rest)%nat by lia.
      destruct (for_agent_groups env groups (S (S tick) + length rest) h4)
        as [[h5 tick5] ev5].
      unfold flat. cbn [map snd concat]. by rewrite <- !app_assoc.
Qed.

Lemma settle_settle tid task s w h1 tick1 ev fr h tick ev' :
  settle tid (set_state s task) (settle tid task w (h1, tick1, ev, Some fr))
         (h, tick, ev', None)
  = settle tid task w (h, tick, ev ++ ev', None).
Proof.
  unfold settle. cbn. f_equal.
  - by rewrite list_insert_insert_eq.
  - by rewrite <- !app_assoc.
Qed.

Lemma drive_succ tid n w :
  drive env tid (S n) w = drive env tid n (run_task env tid w).
Proof. unfold drive. by rewrite Nat.iter_succ_r. Qed.

(** A suspended flush that is resumed again and again, with no request in
    between, finishes, having done what was left of [process_message_batch]. *)
Lemma drive_awaiting tid k :
  ∀ fr task w,
    (stretches fr ≤ k)%nat →
    w_tasks w !! tid = Some task → t_state task = Awaiting fr →
    w_ticks w = S (f_tick fr) →
    ∃ n, drive env tid n w
         = let '(h, tick, ev) := rest_of_flush env fr (w_heap w) in
           settle tid task w (h, tick, ev, None).
Proof.
  induction k as [|k IH]; intros fr task w Hk Ht Hs Htick.
  { destruct fr as [? ? ? ? ? pc ? ?]. unfold stretches in Hk. destruct pc; cbn in Hk; lia. }
  pose proof (run_task_awaiting _ _ _ _ Ht Hs) as Hrun. rewrite Htick in Hrun.
  pose proof (resume_seq fr (w_heap w)) as Hseq.
  destruct (resume env fr (S (f_tick fr)) (w_heap w)) as [[[h1 tick1] ev] [fr'|]].
  - destruct Hseq as (-> & Hlt & Hseq).
    destruct (IH fr' (set_state (Awaiting fr') task) (run_task env tid w)) as [n Hn].
    + lia.
    + rewrite Hrun. cbn. apply list_lookup_insert_eq. by eapply lookup_lt_Some.
    + done.
    + by rewrite Hrun.
    + exists (S n). rewrite drive_succ, Hn, Hseq, Hrun. cbn [settle w_heap].
      destruct (rest_of_flush env fr' h1) as [[h4 tick4] ev4].
      apply settle_settle.
  - exists 1%nat. change (drive env tid 1 w) with (run_task env tid w).
    by rewrite Hrun, Hseq.
Qed.

(** A sleeping task whose key is stored, resumed often enough, ends in the
    world [process_message_batch] gives. *)
Lemma flush_runs_to_end tid task g w :
  w_tasks w !! tid = Some task → t_state task = Sleeping →
  debounce_storage w !! t_key task = Some g →
  ∃ n, drive env tid n w
       = let '(storage, h, tick, ev) :=
           process_message_batch env (t_key task) (g_messages g)
                                 (debounce_storage w) (w_ticks w) (w_heap w) in
         {| w_heap := h; debounce_storage := storage;
            w_tasks := <[tid := set_state Done task]> (w_tasks w);
            w_ticks := tick; w_trace := w_trace w ++ ev |}.
Proof.
  intros Ht Hs Hg. unfold process_message_batch.
  assert (run_task env tid w
          = settle tid task w
              (prepend [EvBatch (t_key task) (g_messages g)]
                 (enter_groups env (agent_groups (w_heap w) (g_messages g))
                               (w_ticks w) (w_heap w)))) as Hrun.
  { unfold run_task. by rewrite Ht, Hs, Hg. }
  pose proof (enter_groups_seq (agent_groups (w_heap w) (g_messages g))
                (w_ticks w) (w_heap w)) as Hseq.
  destruct (enter_groups env (agent_groups (w_heap w) (g_messages g))
              (w_ticks w) (w_heap w)) as [[[h1 tick1] ev] [fr|]].
  - destruct Hseq as [-> Hseq]. cbn [prepend] in Hrun.
    destruct (drive_awaiting tid (stretches fr) fr (set_state (Awaiting fr) task)
                (run_task env tid w)) as [n Hn].
    + done.
    + rewrite Hrun. cbn. apply list_lookup_insert_eq. by eapply lookup_lt_Some.
    + done.
    + by rewrite Hrun.
    + exists (S n). rewrite drive_succ, Hn, Hseq, Hrun. cbn [settle w_heap].
      destruct (rest_of_flush env fr h1) as [[h4 tick4] ev4].
      etrans; [apply settle_settle|]. unfold settle. by f_equal.
  - exists 1%nat. change (drive env tid 1 w) with (run_task env tid w).
    by rewrite Hrun, Hseq.
Qed.

(** X1. A flush that no request interrupts is [process_message_batch]: once
    the sleep of a task is over and its key is in the store, resuming the
    task often enough ends it, and leaves the store, the heap and the trace
    that [process_message_batch] gives on the stored messages of the key. *)
Theorem uninterrupted_flush tid task g w :
  w_tasks w !! tid = Some task → t_state task = Sleeping →
  debounce_storage w !! t_key task = Some g →
  ∃ n, drive env tid n w
       = let '(storage, h, tick, ev) :=
           process_message_batch env (t_key task) (g_messages g)
                                 (debounce_storage w) (w_ticks w) (w_heap w) in
         {| w_heap := h; debounce_storage := storage;
            w_tasks := <[tid := set_state Done task]> (w_tasks w);
            w_ticks := tick; w_trace := w_trace w ++ ev |}.
Proof.
  intros Ht Hs Hg.
  destruct (flush_runs_to_end tid task g w Ht Hs Hg) as [n Hn].
  exists n. exact Hn.
Qed.
End Uninterrupted.

Lemma uninterrupted_flush_witness :
  let m1 := Scenario.message "oi" "a" "u" None 1000 in
  let m2 := Scenario.message "tudo bem?" "a" "u" None 1000 in
  let env := Scenario.deployment Scenario.calm in
  let w := run env [Post Scenario.key [m1; m2]] empty_world in
  ∃ n, flushed (w_trace (drive env 0 n w)) = [("a_u_no_session", [0; 1]%nat)]
       ∧ replied (w_trace (drive env 0 n w)) = [0; 1]%nat
       ∧ debounce_storage (drive env 0 n w) !! "a_u_no_session" = None
       ∧ t_state <$> w_tasks (drive env 0 n w) !! 0%nat = Some Done.
Proof.
  intros m1 m2 env w.
  destruct (uninterrupted_flush env 0
              {| t_key := "a_u_no_session";
                 t_delay := SpecFloat.S754_finite false 4503599627370496 (-52);
                 t_state := Sleeping |}
              {| g_messages := [0; 1]%nat; g_task := Some 0%nat |} w
              eq_refl eq_refl eq_refl) as [n Hn].
  exists n. rewrite Hn. vm_compute. repeat split.
Defined.

(** ** The agent registry *)

Section Registry.
Import Agents.
Implicit Types (d s : Storage) (k : string) (v : AgentData).

Lemma dict_lookup_None k d : dict_lookup k d = None ↔ k ∉ map fst d.
Proof.
  induction d as [|[k' v'] d IH]; cbn.
  - split; [intros _; apply not_elem_of_nil|done].
  - case_decide as Hk.
    + subst k'. split; [done|]. intros H. exfalso. apply H. left.
    + rewrite IH, not_elem_of_cons. split; [by intros ?|by intros [_ ?]].
Qed.

Lemma dict_lookup_Some k v d : dict_lookup k d = Some v → (k, v) ∈ d.
Proof.
  induction d as [|[k' v'] d IH]; cbn; [done|].
  case_decide as Hk.
  - intros [= ->]. subst k'. left.
  - intros Hl. right. by apply IH.
Qed.

Lemma dict_lookup_elem k v d : NoDup (map fst d) → (k, v) ∈ d → dict_lookup k d = Some v.
Proof.
  induction d as [|[k' v'] d IH]; cbn; intros Hnd Hin.
  - by apply elem_of_nil in Hin.
  - apply NoDup_cons in Hnd as [Hk' Hnd].
    apply elem_of_cons in Hin as [[= <- <-]|Hin].
    + by rewrite decide_True.
    + rewrite decide_False; [by apply IH|].
      intros ->. apply Hk'. apply list_elem_of_fmap. by exists (k, v).
Qed.

Lemma dict_lookup_set k k' v d :
  dict_lookup k' (dict_set k v d) = if decide (k = k') then Some v else dict_lookup k' d.
Proof.
  induction d as [|[k0 v0] d IH]; cbn.
  - by repeat case_decide.
  - destruct (decide (k0 = k)) as [->|Hne]; cbn.
    + by repeat case_decide.
    + rewrite IH. repeat case_decide; congruence.
Qed.

Lemma dict_set_fresh k v d : dict_lookup k d = None → dict_set k v d = d ++ [(k, v)].
Proof.
  induction d as [|[k0 v0] d IH]; cbn; [done|].
  case_decide as Hk; [done|]. intros Hl. by rewrite IH.
Qed.

Lemma dict_set_keys k v v0 d :
  dict_lookup k d = Some v0 → map fst (dict_set k v d) = map fst d.
Proof.
  induction d as [|[k1 v1] d IH]; cbn; [done|].
  case_decide as Hk; [done|]. intros Hl. cbn. by rewrite IH.
Qed.

Lemma dict_lookup_del k k' d :
  NoDup (map fst d) →
  dict_lookup k' (dict_del k d) = if decide (k = k') then None else dict_lookup k' d.
Proof.
  induction d as [|[k0 v0] d IH]; cbn; intros Hnd.
  - by case_decide.
  - apply NoDup_cons in Hnd as [Hk0 Hnd].
    destruct (decide (k0 = k)) as [->|Hne].
    + destruct (decide (k = k')) as [<-|Hne']; [|done].
      by apply dict_lookup_None.
    + cbn. rewrite IH by done. repeat case_decide; congruence.
Qed.

Lemma dict_del_keys k d :
  map fst (dict_del k d) `sublist_of` map fst d.
Proof.
  induction d as [|[k0 v0] d IH]; cbn; [done|].
  case_decide; cbn.
  - by apply sublist_cons.
  - by apply sublist_skip.
Qed.

Lemma dict_del_elem k k' v d : (k', v) ∈ dict_del k d → (k', v) ∈ d.
Proof.
  induction d as [|[k0 v0] d IH]; cbn; [done|].
  case_decide as Hk.
  - intros Hin. by right.
  - intros [->|Hin]%elem_of_cons; [left|right; by apply IH].
Qed.

Lemma dict_del_set_fresh k v d : dict_lookup k d = None → dict_del k (dict_set k v d) = d.
Proof.
  induction d as [|[k0 v0] d IH]; cbn.
  - by rewrite decide_True.
  - case_decide as Hk; [done|]. intros Hl. cbn. rewrite decide_False by done. by rewrite IH.
Qed.

Lemma view_lookup k d : view d !! k = ad_config <$> dict_lookup k d.
Proof.
  unfold view. induction d as [|[k0 v0] d IH]; cbn; [done|].
  case_decide as Hk.
  - subst. by rewrite lookup_insert_eq.
  - by rewrite lookup_insert_ne.
Qed.


Lemma guarded_ok env x api_key handler s :
  get_api_key_from_header env x = inr api_key → guarded env x handler s = handler s.
Proof. intros H. unfold guarded. by rewrite H. Qed.

Lemma create_agent_fresh env x api_key agent uuid now1 now2 s :
  get_api_key_from_header env x = inr api_key →
  dict_lookup (py_or (cfg_id agent) uuid) s = None →
  create_agent env x agent uuid now1 now2 s
  = let agent_id := py_or (cfg_id agent) uuid in
    let agent_data :=
      {| ad_config := {| ac_id := agent_id; ac_name := cfg_name agent;
                         ac_description := cfg_description agent;
                         ac_instructions := cfg_instructions agent;
                         ac_model := cfg_model agent;
                         ac_max_tokens := cfg_max_tokens agent;
                         ac_skills := cfg_skills agent;
                         ac_webhook_url := cfg_webhook_url agent |};
         ad_temperature := cfg_temperature agent;
         ad_created_at := now1; ad_updated_at := now2 |} in
    ({| code := 200; body := One agent_data |}, s ++ [(agent_id, agent_data)]).
Proof.
  intros Hx Hfresh. unfold create_agent. rewrite (guarded_ok _ _ _ _ _ Hx).
  rewrite Hfresh. cbn zeta. by rewrite dict_set_fresh.
Qed.

Lemma dict_lookup_snoc k v d : dict_lookup k (d ++ [(k, v)]) = Some (default v (dict_lookup k d)).
Proof.
  induction d as [|[k0 v0] d IH]; cbn.
  - by rewrite decide_True.
  - by case_decide.
Qed.

(** X2. [POST /agents] with a valid key and an id that is not registered
    (the id of the body, or a fresh uuid when the body has none or an empty
    one) answers 200 with the stored agent: the fields of the body under
    that id, with the two timestamps; the agent is appended to the registry,
    [GET /agents/{id}] returns it and [GET /agents] lists it last. *)
Theorem create_agent_registers env x api_key agent uuid now1 now2 s :
  get_api_key_from_header env x = inr api_key →
  dict_lookup (py_or (cfg_id agent) uuid) s = None →
  let agent_id := py_or (cfg_id agent) uuid in
  ∃ agent_data,
    create_agent env x agent uuid now1 now2 s
    = ({| code := 200; body := One agent_data |}, s ++ [(agent_id, agent_data)])
    ∧ ac_id (ad_config agent_data) = agent_id
    ∧ ac_name (ad_config agent_data) = cfg_name agent
    ∧ ac_description (ad_config agent_data) = cfg_description agent
    ∧ ac_instructions (ad_config agent_data) = cfg_instructions agent
    ∧ ac_model (ad_config agent_data) = cfg_model agent
    ∧ ad_temperature agent_data = cfg_temperature agent
    ∧ ac_max_tokens (ad_config agent_data) = cfg_max_tokens agent
    ∧ ac_skills (ad_config agent_data) = cfg_skills agent
    ∧ ac_webhook_url (ad_config agent_data) = cfg_webhook_url agent
    ∧ ad_created_at agent_data = now1 ∧ ad_updated_at agent_data = now2
    ∧ get_agent env x agent_id (s ++ [(agent_id, agent_data)])
      = ({| code := 200; body := One agent_data |}, s ++ [(agent_id, agent_data)])
    ∧ (list_agents env x (s ++ [(agent_id, agent_data)])).1
      = {| code := 200; body := Many (map snd s ++ [agent_data]) |}.
Proof.
  intros Hx Hfresh agent_id. eexists. split.
  { by rewrite (create_agent_fresh _ _ _ _ _ _ _ _ Hx Hfresh). }
  cbn zeta. do 11 (split; [done|]). split.
  - unfold get_agent. rewrite (guarded_ok _ _ _ _ _ Hx).
    fold agent_id. rewrite dict_lookup_snoc. fold agent_id in Hfresh. by rewrite Hfresh.
  - unfold list_agents. rewrite (guarded_ok _ _ _ _ _ Hx). cbn. by rewrite map_app.
Qed.

(** X3. Ids are never reused: once an agent is registered under an id, a
    later [POST /agents] that resolves to the same id (whatever else its
    body holds) answers 400 and leaves the registry, and so the first agent,
    as it was. *)
Theorem create_agent_refuses_duplicate env x api_key agent uuid now1 now2
    agent' uuid' now1' now2' s :
  get_api_key_from_header env x = inr api_key →
  dict_lookup (py_or (cfg_id agent) uuid) s = None →
  py_or (cfg_id agent') uuid' = py_or (cfg_id agent) uuid →
  let s1 := (create_agent env x agent uuid now1 now2 s).2 in
  create_agent env x agent' uuid' now1' now2' s1
  = ({| code := 400; body := ErrorDetail "Agente já existe" |}, s1)
  ∧ (get_agent env x (py_or (cfg_id agent) uuid) s1).1
    = (create_agent env x agent uuid now1 now2 s).1.
Proof.
  intros Hx Hfresh Hsame s1. subst s1.
  rewrite (create_agent_fresh _ _ _ _ _ _ _ _ Hx Hfresh). cbn zeta. cbn [fst snd].
  split.
  - unfold create_agent. rewrite (guarded_ok _ _ _ _ _ Hx). rewrite Hsame.
    by rewrite dict_lookup_snoc.
  - unfold get_agent. rewrite (guarded_ok _ _ _ _ _ Hx).
    by rewrite dict_lookup_snoc, Hfresh.
Qed.

(** X4. [PUT /agents/{agent_id}] on a registered id answers 200 with the
    updated agent: the fields of the body and a new [updated_at], while the
    id (whatever id the body carries) and [created_at] stay those of the
    stored agent; the agent keeps its place in the listing and every other
    agent is unchanged. *)
Theorem update_agent_keeps_identity env x api_key agent_id agent now old s :
  get_api_key_from_header env x = inr api_key →
  dict_lookup agent_id s = Some old →
  ∃ agent_data s',
    update_agent env x agent_id agent now s
    = ({| code := 200; body := One agent_data |}, s')
    ∧ dict_lookup agent_id s' = Some agent_data
    ∧ ac_id (ad_config agent_data) = ac_id (ad_config old)
    ∧ ad_created_at agent_data = ad_created_at old
    ∧ ad_updated_at agent_data = now
    ∧ ac_name (ad_config agent_data) = cfg_name agent
    ∧ ac_description (ad_config agent_data) = cfg_description agent
    ∧ ac_instructions (ad_config agent_data) = cfg_instructions agent
    ∧ ac_model (ad_config agent_data) = cfg_model agent
    ∧ ad_temperature agent_data = cfg_temperature agent
    ∧ ac_max_tokens (ad_config agent_data) = cfg_max_tokens agent
    ∧ ac_skills (ad_config agent_data) = cfg_skills agent
    ∧ ac_webhook_url (ad_config agent_data) = cfg_webhook_url agent
    ∧ map fst s' = map fst s
    ∧ ∀ k, k ≠ agent_id → dict_lookup k s' = dict_lookup k s.
Proof.
  intros Hx Hold. unfold update_agent. rewrite (guarded_ok _ _ _ _ _ Hx), Hold.
  cbn zeta. eexists _, _. split; [done|]. split.
  { rewrite dict_lookup_set. by rewrite decide_True. }
  do 11 (split; [done|]). split.
  - by eapply dict_set_keys.
  - intros k Hk. rewrite dict_lookup_set. by rewrite decide_False.
Qed.

(** X5. [DELETE /agents/{agent_id}] on a registered id answers 200 and
    removes that agent only; afterwards [GET], [PUT] and [DELETE] of the id
    answer 404 and change nothing. *)
Theorem delete_agent_removes env x api_key agent_id agent now old s :
  get_api_key_from_header env x = inr api_key →
  well_keyed s →
  dict_lookup agent_id s = Some old →
  ∃ s',
    delete_agent env x agent_id s
    = ({| code := 200; body := Message "Agente removido com sucesso" |}, s')
    ∧ dict_lookup agent_id s' = None
    ∧ (∀ k, k ≠ agent_id → dict_lookup k s' = dict_lookup k s)
    ∧ map fst s' `sublist_of` map fst s
    ∧ get_agent env x agent_id s' = (not_found, s')
    ∧ update_agent env x agent_id agent now s' = (not_found, s')
    ∧ delete_agent env x agent_id s' = (not_found, s').
Proof.
  intros Hx [Hnd _] Hold. unfold delete_agent, get_agent, update_agent, guarded.
  rewrite Hx, Hold. eexists. split; [done|].
  assert (dict_lookup agent_id (dict_del agent_id s) = None) as Hgone.
  { rewrite dict_lookup_del by done. by rewrite decide_True. }
  rewrite Hgone. split; [done|]. split.
  { intros k Hk. rewrite dict_lookup_del by done. by rewrite decide_False. }
  split; [apply dict_del_keys|]. by split_and!.
Qed.

(** X6. Deleting an agent right after it was created restores the registry:
    [DELETE /agents/{id}] undoes a successful [POST /agents]. *)
Theorem create_then_delete env x api_key agent uuid now1 now2 s :
  get_api_key_from_header env x = inr api_key →
  dict_lookup (py_or (cfg_id agent) uuid) s = None →
  (delete_agent env x (py_or (cfg_id agent) uuid)
     (create_agent env x agent uuid now1 now2 s).2).2 = s.
Proof.
  intros Hx Hfresh. unfold create_agent, delete_agent, guarded.
  rewrite Hx, Hfresh. cbn zeta. cbn [snd].
  rewrite dict_lookup_set, decide_True by done. cbn [snd].
  by apply dict_del_set_fresh.
Qed.

Lemma dict_lookup_del_ne k k' d :
  k ≠ k' → dict_lookup k' (dict_del k d) = dict_lookup k' d.
Proof.
  intros Hne. induction d as [|[k0 v0] d IH]; cbn; [done|].
  destruct (decide (k0 = k)) as [->|Hk0].
  - by rewrite decide_False.
  - cbn. by rewrite IH.
Qed.

Lemma dict_set_elem k k' v v' d :
  (k', v') ∈ dict_set k v d → (k', v') = (k, v) ∨ (k', v') ∈ d.
Proof.
  induction d as [|[k0 v0] d IH]; cbn.
  - intros Hin%list_elem_of_singleton. by left.
  - destruct (decide (k0 = k)) as [->|Hk0].
    + intros [->|Hin]%elem_of_cons; [by left|]. right. by right.
    + intros [->|Hin]%elem_of_cons; [right; left|].
      destruct (IH Hin) as [?|?]; [by left|]. right. by right.
Qed.

Lemma well_keyed_nil : well_keyed [].
Proof. split; [apply NoDup_nil_2|]. intros k a Hin. by apply elem_of_nil in Hin. Qed.

Lemma lifespan_well_keyed now1 now2 s : well_keyed s → well_keyed (lifespan now1 now2 s).
Proof.
  intros Hs. destruct s as [|kv s]; [|done]. cbn. split.
  - apply NoDup_singleton.
  - intros k a Hin%list_elem_of_singleton. by inversion Hin.
Qed.

Lemma serve_well_keyed env r s : well_keyed s → well_keyed (serve env r s).2.
Proof.
  intros [Hnd Hid].
  destruct r as [x|x agent_id|x agent uuid now1 now2|x agent_id agent now|x agent_id];
    cbn [serve]; unfold list_agents, get_agent, create_agent, update_agent, delete_agent,
      guarded;
    destruct (get_api_key_from_header env x) as [[status detail]|api_key]; try done.
  - by destruct (dict_lookup agent_id s).
  - destruct (dict_lookup (py_or (cfg_id agent) uuid) s) eqn:Hl; [done|].
    cbn zeta. cbn [snd]. rewrite dict_set_fresh by done. split.
    + rewrite map_app. apply NoDup_app. split_and!; [done| |apply NoDup_singleton].
      intros k Hk ->%list_elem_of_singleton. by apply dict_lookup_None in Hl.
    + intros k a [Hin|Hin%list_elem_of_singleton]%elem_of_app; [by apply Hid|].
      by inversion Hin.
  - destruct (dict_lookup agent_id s) as [old|] eqn:Hl; [|done].
    cbn zeta. cbn [snd]. split.
    + by erewrite dict_set_keys.
    + intros k a [Hin|Hin]%dict_set_elem; [|by apply Hid].
      inversion Hin; subst. cbn. apply Hid. by apply dict_lookup_Some.
  - destruct (dict_lookup agent_id s) as [old|] eqn:Hl; [|done].
    cbn [snd]. split.
    + eapply sublist_NoDup; [done|apply dict_del_keys].
    + intros k a Hin%dict_del_elem. by apply Hid.
Qed.

Lemma serve_all_well_keyed env requests s :
  well_keyed s → well_keyed (serve_all env requests s).
Proof.
  revert s. induction requests as [|r requests IH]; intros s Hs; [done|].
  cbn. apply IH. by apply serve_well_keyed.
Qed.

(** X7. Whatever requests the registry has served since the application
    started, every agent is stored under its own id, and no id is stored
    twice. *)
Theorem served_well_keyed env now1 now2 requests :
  well_keyed (served env now1 now2 requests).
Proof.
  unfold served. apply (serve_all_well_keyed env requests (lifespan now1 now2 [])).
  apply lifespan_well_keyed, well_keyed_nil.
Qed.

(** X8. Every [/agents] endpoint refuses a request whose [X-API-Key]
    header is missing or differs from the configured key: the answer is 401
    and the registry is the one before the request. *)
Theorem registry_rejects_without_key env r s :
  header r = None ∨ header r ≠ Some (API_KEY env) →
  serve env r s = ({| code := 401; body := ErrorDetail "Chave de API inválida" |}, s).
Proof.
  intros Hx.
  assert (get_api_key_from_header env (header r) = inl (401%Z, "Chave de API inválida"))
    as Hno.
  { unfold get_api_key_from_header. destruct (header r) as [api_key|]; [|done].
    destruct Hx as [Hx|Hx]; [done|].
    assert (api_key ≠ API_KEY env) as Hne by congruence.
    rewrite (str_eqb_neq _ _ Hne). cbn. by rewrite orb_true_r. }
  destruct r; cbn [header] in Hno; cbn [serve];
    unfold list_agents, get_agent, create_agent, update_agent, delete_agent, guarded;
    by rewrite Hno.
Qed.

Lemma serve_keeps env r k a s :
  dict_lookup k s = Some a → deletes k r = false →
  ∃ a', dict_lookup k (serve env r s).2 = Some a'
        ∧ ac_id (ad_config a') = ac_id (ad_config a)
        ∧ ad_created_at a' = ad_created_at a.
Proof.
  intros Hk Hr.
  destruct r as [x|x agent_id|x agent uuid now1 now2|x agent_id agent now|x agent_id];
    cbn [serve]; unfold list_agents, get_agent, create_agent, update_agent, delete_agent,
      guarded;
    destruct (get_api_key_from_header env x) as [[status detail]|api_key]; eauto.
  - destruct (dict_lookup agent_id s); eauto.
  - destruct (dict_lookup (py_or (cfg_id agent) uuid) s) eqn:Hl; [eauto|].
    cbn zeta. cbn [snd]. rewrite dict_lookup_set, decide_False; [eauto|].
    intros Heq. rewrite Heq in Hl. congruence.
  - destruct (dict_lookup agent_id s) as [old|] eqn:Hl; [|eauto].
    cbn zeta. cbn [snd]. rewrite dict_lookup_set.
    destruct (decide (agent_id = k)) as [->|Hne]; [|eauto].
    rewrite Hk in Hl. inversion Hl; subst old. eauto.
  - destruct (dict_lookup agent_id s) as [old|] eqn:Hl; [|eauto].
    cbn [snd]. cbn in Hr. apply bool_decide_eq_false in Hr.
    rewrite dict_lookup_del_ne by done. eauto.
Qed.

(** X9. An agent stays registered, under the same id and with the same
    [created_at], through any sequence of requests that contains no
    [DELETE] of its id: no other endpoint removes or replaces it. *)
Theorem agent_persists env requests k a s :
  dict_lookup k s = Some a →
  Forall (λ r, deletes k r = false) requests →
  ∃ a', dict_lookup k (serve_all env requests s) = Some a'
        ∧ ac_id (ad_config a') = ac_id (ad_config a)
        ∧ ad_created_at a' = ad_created_at a.
Proof.
  revert s a. induction requests as [|r requests IH]; intros s a Hk Hall.
  - exists a. by cbn.
  - apply Forall_cons in Hall as [Hr Hall].
    destruct (serve_keeps env r k a s Hk Hr) as (a1 & Hk1 & Hid1 & Hc1).
    destruct (IH _ _ Hk1 Hall) as (a' & Hk' & Hid' & Hc').
    exists a'. cbn. split; [done|]. split; congruence.
Qed.

(** X10. The messages of an agent that was deleted before the flush are
    discarded: with the registry left by an authorised
    [DELETE /agents/{agent_id}], [process_agent_messages] for that id logs
    that the agent is missing and touches no message. *)
Theorem deleted_agent_messages_dropped env x api_key agent_id old s env' msgs tick h :
  get_api_key_from_header env x = inr api_key →
  well_keyed s →
  dict_lookup agent_id s = Some old →
  agents_storage env' = view (delete_agent env x agent_id s).2 →
  process_agent_messages env' agent_id msgs tick h = (h, tick, [EvAgentMissing agent_id]).
Proof.
  intros Hx [Hnd _] Hold Henv. unfold process_agent_messages.
  rewrite Henv, view_lookup. unfold delete_agent, guarded. rewrite Hx, Hold. cbn [snd].
  rewrite dict_lookup_del by done. by rewrite decide_True.
Qed.
End Registry.

Lemma create_agent_registers_witness :
  let env := Scenario.deployment Scenario.calm in
  let s := Agents.lifespan "t0" "t0" [] in
  ∃ agent_data,
    Agents.create_agent env Scenario.key (Agents.example_body (Some "") "Suporte" "")
                        "uuid-1" "t1" "t2" s
    = ({| Agents.code := 200; Agents.body := Agents.One agent_data |},
       s ++ [("uuid-1", agent_data)])
    ∧ ac_id (Agents.ad_config agent_data) = "uuid-1"
    ∧ Agents.ad_created_at agent_data = "t1".
Proof.
  intros env s.
  destruct (create_agent_registers env Scenario.key "151fb361-f295-4a4f-84c9-ec1f42599a67"
              (Agents.example_body (Some "") "Suporte" "") "uuid-1" "t1" "t2" s
              eq_refl eq_refl)
    as (a & H1 & H2 & _ & _ & _ & _ & _ & _ & _ & _ & H3 & _).
  exists a. split; [exact H1|]. split; [exact H2|exact H3].
Defined.

Lemma create_agent_refuses_duplicate_witness :
  let env := Scenario.deployment Scenario.calm in
  let s1 := (Agents.create_agent env Scenario.key
               (Agents.example_body (Some "suporte") "Suporte" "") "uuid-1" "t1" "t2" []).2 in
  Agents.create_agent env Scenario.key
    (Agents.example_body (Some "suporte") "Outro" "http://hook") "uuid-2" "t3" "t4" s1
  = ({| Agents.code := 400; Agents.body := Agents.ErrorDetail "Agente já existe" |}, s1).
Proof.
  intros env s1.
  exact (proj1 (create_agent_refuses_duplicate env Scenario.key
                  "151fb361-f295-4a4f-84c9-ec1f42599a67"
                  (Agents.example_body (Some "suporte") "Suporte" "") "uuid-1" "t1" "t2"
                  (Agents.example_body (Some "suporte") "Outro" "http://hook")
                  "uuid-2" "t3" "t4" [] eq_refl eq_refl eq_refl)).
Defined.

Lemma update_agent_keeps_identity_witness :
  let env := Scenario.deployment Scenario.calm in
  let s := Agents.lifespan "t0" "t0" [] in
  ∃ agent_data s',
    Agents.update_agent env Scenario.key "1677dc47-20d0-442a-80a8-171f00d39d39"
                        (Agents.example_body (Some "outro-id") "Suporte" "http://hook") "t5" s
    = ({| Agents.code := 200; Agents.body := Agents.One agent_data |}, s')
    ∧ ac_id (Agents.ad_config agent_data) = "1677dc47-20d0-442a-80a8-171f00d39d39"
    ∧ Agents.ad_created_at agent_data = "t0"
    ∧ Agents.ad_updated_at agent_data = "t5".
Proof.
  intros env s.
  destruct (update_agent_keeps_identity env Scenario.key
              "151fb361-f295-4a4f-84c9-ec1f42599a67"
              "1677dc47-20d0-442a-80a8-171f00d39d39"
              (Agents.example_body (Some "outro-id") "Suporte" "http://hook") "t5"
              (Agents.default_agent "t0" "t0") s eq_refl eq_refl)
    as (a & s' & H1 & _ & H2 & H3 & H4 & _).
  exists a, s'. split; [exact H1|]. split; [exact H2|]. split; [exact H3|exact H4].
Defined.

Lemma delete_agent_removes_witness :
  let env := Scenario.deployment Scenario.calm in
  let s := Agents.lifespan "t0" "t0" [] in
  ∃ s',
    Agents.delete_agent env Scenario.key "1677dc47-20d0-442a-80a8-171f00d39d39" s
    = ({| Agents.code := 200; Agents.body := Agents.Message "Agente removido com sucesso" |}, s')
    ∧ Agents.get_agent env Scenario.key "1677dc47-20d0-442a-80a8-171f00d39d39" s'
      = (Agents.not_found, s').
Proof.
  intros env s.
  destruct (delete_agent_removes env Scenario.key "151fb361-f295-4a4f-84c9-ec1f42599a67"
              "1677dc47-20d0-442a-80a8-171f00d39d39"
              (Agents.example_body None "Suporte" "") "t5"
              (Agents.default_agent "t0" "t0") s eq_refl
              (lifespan_well_keyed "t0" "t0" [] well_keyed_nil) eq_refl)
    as (s' & H1 & _ & _ & _ & H2 & _).
  exists s'. split; [exact H1|exact H2].
Defined.

Lemma create_then_delete_witness :
  let env := Scenario.deployment Scenario.calm in
  let s := Agents.lifespan "t0" "t0" [] in
  (Agents.delete_agent env Scenario.key "suporte"
     (Agents.create_agent env Scenario.key
        (Agents.example_body (Some "suporte") "Suporte" "") "uuid-1" "t1" "t2" s).2).2 = s.
Proof.
  intros env s.
  exact (create_then_delete env Scenario.key "151fb361-f295-4a4f-84c9-ec1f42599a67"
           (Agents.example_body (Some "suporte") "Suporte" "") "uuid-1" "t1" "t2" s
           eq_refl eq_refl).
Defined.

Lemma registry_rejects_without_key_witness :
  let env := Scenario.deployment Scenario.calm in
  let s := Agents.lifespan "t0" "t0" [] in
  Agents.serve env (Agents.DeleteAgent (Some "guess") "1677dc47-20d0-442a-80a8-171f00d39d39") s
  = ({| Agents.code := 401; Agents.body := Agents.ErrorDetail "Chave de API inválida" |}, s).
Proof.
  intros env s.
  apply (registry_rejects_without_key env
           (Agents.DeleteAgent (Some "guess") "1677dc47-20d0-442a-80a8-171f00d39d39") s).
  right. vm_compute. discriminate.
Defined.

Lemma agent_persists_witness :
  let env := Scenario.deployment Scenario.calm in
  let s := Agents.lifespan "t0" "t0" [] in
  let requests :=
    [Agents.CreateAgent Scenario.key (Agents.example_body None "Suporte" "") "uuid-1" "t1" "t2";
     Agents.UpdateAgent Scenario.key "1677dc47-20d0-442a-80a8-171f00d39d39"
                        (Agents.example_body (Some "x") "Novo nome" "") "t3";
     Agents.DeleteAgent Scenario.key "uuid-1"] in
  ∃ a', Agents.dict_lookup "1677dc47-20d0-442a-80a8-171f00d39d39"
          (Agents.serve_all env requests s) = Some a'
        ∧ ac_id (Agents.ad_config a') = "1677dc47-20d0-442a-80a8-171f00d39d39"
        ∧ Agents.ad_created_at a' = "t0".
Proof.
  intros env s requests.
  apply (agent_persists env requests "1677dc47-20d0-442a-80a8-171f00d39d39"
           (Agents.default_agent "t0" "t0") s eq_refl).
  repeat constructor.
Defined.

Lemma deleted_agent_messages_dropped_witness :
  let env := Scenario.deployment Scenario.calm in
  let s := Agents.lifespan "t0" "t0" [] in
  let env' :=
    {| API_KEY := API_KEY env;
       agents_storage :=
         Agents.view (Agents.delete_agent env Scenario.key
                        "1677dc47-20d0-442a-80a8-171f00d39d39" s).2;
       SimpleAgent_class := SimpleAgent_class env; outside := outside env |} in
  let h := [Scenario.message "oi" "1677dc47-20d0-442a-80a8-171f00d39d39" "u" None 1000] in
  process_agent_messages env' "1677dc47-20d0-442a-80a8-171f00d39d39" [0%nat] 0 h
  = (h, 0%nat, [EvAgentMissing "1677dc47-20d0-442a-80a8-171f00d39d39"]).
Proof.
  intros env s env' h.
  exact (deleted_agent_messages_dropped env Scenario.key
           "151fb361-f295-4a4f-84c9-ec1f42599a67" "1677dc47-20d0-442a-80a8-171f00d39d39"
           (Agents.default_agent "t0" "t0") s env' [0%nat] 0%nat h eq_refl
           (lifespan_well_keyed "t0" "t0" [] well_keyed_nil) eq_refl eq_refl).
Defined.

(** ** What an accepted request arms *)

Lemma group_by_keys {V} (key : V → string) (l : list V) k :
  k ∈ map fst (group_by key l) ↔ k ∈ map key l.
Proof.
  split.
  - intros ([k' g] & Hk & Hin)%list_elem_of_fmap. cbn in Hk. subst k'.
    apply group_by_elem in Hin as [Hg Hne].
    destruct g as [|v g]; [done|].
    assert (v ∈ filter (λ v, key v = k) l) as Hv by (rewrite <- Hg; left).
    apply list_elem_of_filter in Hv as [Hkv Hv].
    apply list_elem_of_fmap. by exists v.
  - intros (v & -> & Hv)%list_elem_of_fmap.
    apply list_elem_of_fmap. exists (key v, filter (λ v', key v' = key v) l).
    split; [done|]. apply group_by_elem. split; [done|].
    intros Hnil. assert (v ∈ filter (λ v', key v' = key v) l) as Hin.
    { by apply list_elem_of_filter. }
    rewrite Hnil in Hin. by apply elem_of_nil in Hin.
Qed.

(** A dict built by grouping has one entry per distinct key. *)
Lemma group_by_length {V} (key : V → string) (l : list V) :
  length (group_by key l) = length (remove_dups (map key l)).
Proof.
  rewrite <- (length_map fst (group_by key l)).
  apply Permutation_length, NoDup_Permutation.
  - apply group_by_NoDup.
  - apply NoDup_remove_dups.
  - intros k. rewrite group_by_keys. by rewrite elem_of_remove_dups.
Qed.

Lemma deref_alloc (h : heap) (messages : list MessageInput) :
  map (deref (h ++ messages)) (seq (length h) (length messages)) = messages.
Proof.
  apply list_eq. intros i. rewrite list_lookup_fmap.
  destruct (messages !! i) as [m|] eqn:Hi.
  - rewrite lookup_seq_lt by (by eapply lookup_lt_Some). cbn.
    by rewrite (deref_new _ _ _ _ Hi).
  - apply lookup_ge_None in Hi. rewrite lookup_seq_ge by done. done.
Qed.

(** X11. In a process whose requests so far carried only debounce intervals
    that convert to a float, an authorised [POST /messages] with such
    intervals is accepted: it answers 200 with the number of messages and
    the number of distinct batch keys among them, creates exactly that many
    flush tasks (one per key), stores the messages and starts nothing else;
    an empty request changes nothing. *)
Theorem accepted_request_arms_one_timer_per_key (env : Env) (schedule : list Action)
    (x_api_key : option string) (api_key : string) (messages : list MessageInput) :
  Forall well_timed schedule →
  Forall convertible messages →
  get_api_key_from_header env x_api_key = inr api_key →
  let w := run env schedule empty_world in
  let n := length (remove_dups (map debounce_key messages)) in
  ∃ w',
    post_messages env x_api_key messages w
    = ({| status_code := 200;
          payload := Accepted true
                       ("Lote de " +:+ pretty (length messages)
                        +:+ " mensagens recebido e aceito") n |}, w')
    ∧ length (w_tasks w') = (length (w_tasks w) + n)%nat
    ∧ w_heap w' = w_heap w ++ messages
    ∧ w_ticks w' = w_ticks w ∧ w_trace w' = w_trace w
    ∧ (messages = [] → w' = w).
Proof.
  intros Hwt Hconv Hx w n.
  assert (coherent w) as Hco by (apply run_coherent; [apply coherent_empty|done]).
  unfold post_messages. rewrite Hx.
  destruct (receive_messages_spec messages w Hco Hconv)
    as (storage' & tasks' & Heq & _ & _ & _).
  assert (length (debounce_groups (w_heap w ++ messages)
                    (seq (length (w_heap w)) (length messages))) = n) as Hn.
  { unfold debounce_groups. rewrite group_by_length. subst n. do 2 f_equal.
    rewrite <- (deref_alloc (w_heap w) messages) at 2. by rewrite map_map. }
  assert (length tasks' = (length (w_tasks w) + n)%nat) as Hlen.
  { destruct (receive_messages_accepted messages w (run_registered env schedule))
      as (storage2 & tasks2 & Heq2 & Hl & _); [by rewrite Heq|].
    rewrite Heq in Heq2. inversion Heq2; subst tasks2. by rewrite Hl, Hn. }
  rewrite Hn in Heq. eexists. split; [exact Heq|]. cbn.
  split; [done|]. do 3 (split; [done|]).
  intros ->. unfold receive_messages, alloc in Heq. cbn in Heq.
  inversion Heq; subst. destruct w. cbn. by rewrite app_nil_r.
Qed.

(** X12. In a process whose requests carried only debounce intervals that
    convert to a float, every pending group has exactly one live flush task
    (sleeping or suspended in a flush), which was created for its key, and
    every live flush task finds its key in the store. *)
Theorem one_live_timer_per_key (env : Env) (schedule : list Action) :
  Forall well_timed schedule →
  let w := run env schedule empty_world in
  (∀ k g, debounce_storage w !! k = Some g →
     ∃ tid t, w_tasks w !! tid = Some t ∧ t_key t = k ∧ live (t_state t) = true
       ∧ ∀ tid' t', w_tasks w !! tid' = Some t' → t_key t' = k →
                    live (t_state t') = true → tid' = tid)
  ∧ (∀ tid t, w_tasks w !! tid = Some t → live (t_state t) = true →
       is_Some (debounce_storage w !! t_key t)).
Proof.
  intros Hwt w.
  assert (coherent w) as [Hreg Hlive] by (apply run_coherent; [apply coherent_empty|done]).
  split.
  - intros k g Hk. destruct (Hreg _ _ Hk) as (tid & t & Htid & Ht & Hkey & Hl).
    exists tid, t. split_and!; try done.
    intros tid' t' Ht' Hkey' Hl'.
    destruct (Hlive _ _ Ht' Hl') as (g' & Hg' & Htid').
    rewrite Hkey', Hk in Hg'. congruence.
  - intros tid t Ht Hl. destruct (Hlive _ _ Ht Hl) as (g & Hg & _). by exists g.
Qed.

(** ** A request and the flush it arms *)

Lemma flushed_app ev ev' : flushed (ev ++ ev') = flushed ev ++ flushed ev'.
Proof. unfold flushed. apply omap_app. Qed.

Lemma body_seg_flushed env agent agent_config cls tick l pc h :
  flushed (body_seg env agent agent_config cls tick l pc h).1.2 = [].
Proof.
  destruct pc; cbn; try done.
  - destruct (match cls with Some _ => _ | None => _ end) as [e|r]; [done|].
    by destruct (r_messages r).
  - by destruct (str_truthy _).
Qed.

Lemma body_run_flushed env agent agent_config cls tick l fuel pc h :
  flushed (body_run env agent agent_config cls tick l fuel pc h).2 = [].
Proof.
  revert pc h. induction fuel as [|fuel IH]; intros pc h; [done|].
  cbn [body_run].
  pose proof (body_seg_flushed env agent agent_config cls tick l pc h) as Hseg.
  destruct (body_seg env agent agent_config cls tick l pc h) as [[h1 ev] [pc'|]];
    cbn [fst snd] in Hseg; [|done].
  specialize (IH pc' h1).
  destruct (body_run env agent agent_config cls tick l fuel pc' h1) as [h2 ev'].
  cbn [fst snd] in *. by rewrite flushed_app, Hseg, IH.
Qed.

Lemma for_messages_flushed env agent agent_config cls tick msgs h :
  flushed (flat (for_messages env agent agent_config cls tick msgs h).2) = [].
Proof.
  revert tick h. induction msgs as [|l msgs IH]; intros tick h; [done|].
  cbn [for_messages]. unfold message_body.
  pose proof (body_run_flushed env agent agent_config cls tick l 4 PcStart h) as Hb.
  destruct (body_run env agent agent_config cls tick l 4 PcStart h) as [h1 ev].
  specialize (IH (S tick) h1).
  destruct (for_messages env agent agent_config cls (S tick) msgs h1) as [h2 out].
  cbn [snd] in *. unfold flat in *. cbn [map snd concat].
  by rewrite flushed_app, Hb, IH.
Qed.

Lemma for_agent_groups_flushed env groups tick h :
  flushed (for_agent_groups env groups tick h).2 = [].
Proof.
  revert tick h. induction groups as [|[agent msgs] groups IH]; intros tick h; [done|].
  cbn [for_agent_groups]. unfold process_agent_messages.
  destruct (agents_storage env !! agent) as [agent_config|].
  - destruct (make_agent env agent_config) as [e|cls].
    + specialize (IH tick h).
      destruct (for_agent_groups env groups tick h) as [[h2 tick2] ev']. done.
    + pose proof (for_messages_flushed env agent agent_config cls tick msgs h) as Hm.
      destruct (for_messages env agent agent_config cls tick msgs h) as [h1 out].
      specialize (IH (tick + length msgs)%nat h1).
      destruct (for_agent_groups env groups (tick + length msgs) h1) as [[h2 tick2] ev'].
      cbn [snd] in *. by rewrite flushed_app, Hm, IH.
  - specialize (IH tick h).
    destruct (for_agent_groups env groups tick h) as [[h2 tick2] ev']. done.
Qed.

(** X13. Messages that arrive while a group is pending are flushed together
    with it: after an authorised request that is answered 200, in any state
    the process can reach, the flush task created for the key of one of its
    messages is sleeping, and run without interruption it hands over exactly
    once the messages that were pending for the key followed by those of the
    request with that key, then removes the group and ends. *)
Theorem request_flushes_whole_group (env : Env) (schedule : list Action)
    (x_api_key : option string) (api_key : string) (messages : list MessageInput)
    (i : nat) (m : MessageInput) :
  get_api_key_from_header env x_api_key = inr api_key →
  messages !! i = Some m →
  let w := run env schedule empty_world in
  status_code (post_messages env x_api_key messages w).1 = 200%Z →
  let w1 := (post_messages env x_api_key messages w).2 in
  let batch :=
    default [] (g_messages <$> debounce_storage w !! debounce_key m)
    ++ filter (λ l, debounce_key (deref (w_heap w ++ messages) l) = debounce_key m)
              (seq (length (w_heap w)) (length messages)) in
  (length (w_heap w) + i)%nat ∈ batch
  ∧ ∃ tid n,
      (length (w_tasks w) ≤ tid)%nat
      ∧ t_state <$> w_tasks w1 !! tid = Some Sleeping
      ∧ let w2 := drive env tid n w1 in
        flushed (w_trace w2) = flushed (w_trace w) ++ [(debounce_key m, batch)]
        ∧ debounce_storage w2 !! debounce_key m = None
        ∧ t_state <$> w_tasks w2 !! tid = Some Done.
Proof.
  intros Hx Hi w Hok w1 batch.
  pose proof (run_registered env schedule) as Hreg. fold w in Hreg.
  assert (post_messages env x_api_key messages w = receive_messages messages w) as Hpost.
  { unfold post_messages. by rewrite Hx. }
  rewrite Hpost in Hok.
  destruct (request_message_grouped messages w i m Hreg Hok Hi) as (g & Hg & Hm & Hin).
  split; [subst batch; by rewrite <- Hm|].
  destruct (receive_messages_accepted messages w Hreg Hok)
    as (storage' & tasks' & Heq & _ & Hk).
  assert (w1 = (receive_messages messages w).2) as Hw1.
  { subst w1. by rewrite Hpost. }
  specialize (Hk (debounce_key m)).
  rewrite Heq in Hg. cbn [snd debounce_storage] in Hg.
  assert (∃ tid task, (length (w_tasks w) ≤ tid)%nat ∧ tasks' !! tid = Some task
                      ∧ t_key task = debounce_key m ∧ t_state task = Sleeping)
    as (tid & task & Htid & Ht & Hkey & Hst).
  { destruct (filter _ _) as [|l0 g0] eqn:Hf.
    - exfalso. clear -Hf Hi.
      assert ((length (w_heap w) + i)%nat
              ∈ filter (λ l, debounce_key (deref (w_heap w ++ messages) l) = debounce_key m)
                       (seq (length (w_heap w)) (length messages))) as Hin.
      { apply list_elem_of_filter. split.
        - by rewrite (deref_new _ _ _ _ Hi).
        - apply elem_of_seq. apply lookup_lt_Some in Hi. lia. }
      rewrite Hf in Hin. by apply elem_of_nil in Hin.
    - destruct Hk as (tid & delay & Htid & _ & _ & Ht). eauto 10. }
  assert (w_tasks w1 !! tid = Some task) as Ht1 by (rewrite Hw1, Heq; exact Ht).
  assert (debounce_storage w1 !! t_key task = Some g) as Hg1.
  { rewrite Hkey, Hw1, Heq. exact Hg. }
  destruct (flush_runs_to_end env tid task g w1 Ht1 Hst Hg1) as [n Hn].
  exists tid, n. split; [done|]. split; [by rewrite Ht1, <- Hst|].
  cbn zeta. rewrite Hn, Hkey. unfold process_message_batch.
  pose proof (for_agent_groups_flushed env (agent_groups (w_heap w1) (g_messages g))
                (w_ticks w1) (w_heap w1)) as Hfl.
  destruct (for_agent_groups env _ _ _) as [[h1 tick1] ev].
  cbn [snd] in Hfl. cbn [w_trace debounce_storage w_tasks].
  split; [|split].
  - change (EvBatch (debounce_key m) (g_messages g) :: ev ++ [EvBatchDone (debounce_key m)])
      with ([EvBatch (debounce_key m) (g_messages g)] ++ ev ++ [EvBatchDone (debounce_key m)]).
    rewrite !flushed_app, Hfl. cbn.
    rewrite Hw1, Heq. cbn [snd w_trace]. subst batch. by rewrite Hm.
  - apply lookup_delete_eq.
  - rewrite list_lookup_insert_eq by (by eapply lookup_lt_Some). done.
Qed.

Lemma accepted_request_witness :
  let env := Scenario.deployment Scenario.calm in
  let m1 := Scenario.message "oi" "a" "u" None 1000 in
  let m2 := Scenario.message "tudo bem?" "a" "u" None 1000 in
  let m3 := Scenario.message "ola" "a_b" "v" (Some "s1") 2000 in
  let w := run env [Post Scenario.key [m1]] empty_world in
  ∃ w',
    post_messages env Scenario.key [m2; m3; m2] w
    = ({| status_code := 200;
          payload := Accepted true "Lote de 3 mensagens recebido e aceito" 2 |}, w')
    ∧ length (w_tasks w') = 3%nat.
Proof.
  intros env m1 m2 m3 w.
  destruct (accepted_request_arms_one_timer_per_key env [Post Scenario.key [m1]]
              Scenario.key "151fb361-f295-4a4f-84c9-ec1f42599a67" [m2; m3; m2])
    as (w' & H1 & H2 & _); [timed | timed | reflexivity |].
  exists w'. split; [exact H1|exact H2].
Defined.

Lemma one_live_timer_witness :
  let env := Scenario.deployment Scenario.calm in
  let m1 := Scenario.message "oi" "a" "u" None 1000 in
  let m2 := Scenario.message "tudo bem?" "a" "u" None 1000 in
  let w := run env [Post Scenario.key [m1]; Run 0; Post Scenario.key [m2]] empty_world in
  ∃ tid t, w_tasks w !! tid = Some t ∧ t_key t = "a_u_no_session"
           ∧ live (t_state t) = true
           ∧ ∀ tid' t', w_tasks w !! tid' = Some t' → t_key t' = "a_u_no_session" →
                        live (t_state t') = true → tid' = tid.
Proof.
  intros env m1 m2 w.
  assert (Forall well_timed [Post Scenario.key [m1]; Run 0; Post Scenario.key [m2]])
    as Hwt by timed.
  exact (proj1 (one_live_timer_per_key env _ Hwt) "a_u_no_session"
               {| g_messages := [0; 1]%nat; g_task := Some 1%nat |} eq_refl).
Defined.

Lemma request_flushes_whole_group_witness :
  let env := Scenario.deployment Scenario.calm in
  let m1 := Scenario.message "oi" "a" "u" None 1000 in
  let m2 := Scenario.message "tudo bem?" "a" "u" None 1000 in
  let w1 := run env [Post Scenario.key [m1]; Post Scenario.key [m2]] empty_world in
  ∃ tid n,
    flushed (w_trace (drive env tid n w1)) = [("a_u_no_session", [0; 1]%nat)]
    ∧ debounce_storage (drive env tid n w1) !! "a_u_no_session" = None.
Proof.
  intros env m1 m2 w1.
  destruct (request_flushes_whole_group env [Post Scenario.key [m1]] Scenario.key
              "151fb361-f295-4a4f-84c9-ec1f42599a67" [m2] 0 m2 eq_refl eq_refl eq_refl)
    as (_ & tid & n & _ & _ & H1 & H2 & _).
  exists tid, n. split; [exact H1|exact H2].
Defined.

(** ** What [SimpleAgent] returns *)

Section Agent.
Import SimpleAgent.
Variable str_lower : string → string.

Lemma apply_skills_messages (self : t) (state : AgentState) :
  messages (_apply_skills str_lower self state) = messages state.
Proof. unfold _apply_skills. by destruct (self_skills self). Qed.

(** The shape of what [process] returns. *)
Lemma process_shape (self : t) (world : Behaviour)
    (msgs : list string) (user_id session_id tenant_id : string) :
  ∃ text usage,
    process str_lower self world msgs user_id session_id tenant_id
    = inr {| r_messages := [text]; r_transferir := false; r_session_id := session_id;
             r_user_id := user_id; r_agent_id := self_agent_id self;
             r_custom := []; r_agent_usage := usage |}
    ∧ text = match graph_fault world with
             | Some _ => fallback_text
             | None =>
                 match llm_invoke world
                         (prompt str_lower self world msgs user_id session_id tenant_id) with
                 | inl _ => fallback_text
                 | inr reply => default (lr_str reply) (lr_content reply)
                 end
             end.
Proof.
  unfold process, graph_invoke.
  destruct (graph_fault world) as [e|]; cbn [try_except].
  { eexists _, _. split; [reflexivity|done]. }
  destruct (apply_skills_keeps str_lower self
              (_process_message self world
                 (initial_state self msgs user_id session_id tenant_id)))
    as (Hu & Hs & Ha & Ht & Hc & Hg).
  unfold _generate_response, prompt.
  destruct (llm_invoke world _) as [e|reply]; cbn -[_apply_skills];
    rewrite Hu, Hs, Ha, Ht, Hc; eexists _, _; (split; [reflexivity|done]).
Qed.

(** X14. [SimpleAgent.process] always returns a response, and the response
    always holds exactly one message: the text of the LLM reply, or the
    fixed fallback text when the graph runtime or the LLM call raises.  The
    response echoes the user id and the session id of the call, carries the
    id of the agent, and never asks for a transfer. *)
Theorem process_returns_one_message (self : t) (world : Behaviour)
    (msgs : list string) (user_id session_id tenant_id : string) :
  ∃ text usage,
    process str_lower self world msgs user_id session_id tenant_id
    = inr {| r_messages := [text]; r_transferir := false; r_session_id := session_id;
             r_user_id := user_id; r_agent_id := self_agent_id self;
             r_custom := []; r_agent_usage := usage |}
    ∧ text = match graph_fault world with
             | Some _ => fallback_text
             | None =>
                 match llm_invoke world
                         (prompt str_lower self world msgs user_id session_id tenant_id) with
                 | inl _ => fallback_text
                 | inr reply => default (lr_str reply) (lr_content reply)
                 end
             end.
Proof.
  destruct (process_shape self world msgs user_id session_id tenant_id)
    as (text & usage & Hp & Ht).
  exists text, usage. split; [exact Hp|exact Ht].
Qed.
End Agent.

(** ** What one message body does when the agent answers *)

(** The heap after the first statement of the body:
    [if not msg.session_id: msg.session_id = str(uuid.uuid4())]. *)
Lemma message_body_completes env agent agent_config cls tick l h response text rest :
  let h1 := if opt_truthy (session_id (deref h l)) then h
            else <[l := set_session_id (uuid4 (outside env tick)) (deref h l)]> h in
  let msg := deref h1 l in
  let session := default "" (session_id msg) in
  match cls with
  | Some c => cls_process c agent_config (outside env tick) [mensagem msg] (user_id msg)
                          session (tenant_of msg)
  | None => inr (basic_response h1 l agent)
  end = inr response →
  r_messages response = text :: rest →
  message_body env agent agent_config cls tick l h
  = (h1, [EvContext l (tenant_of msg) (user_id msg) session;
          EvAgentReply l response;
          EvSave l (tenant_of msg) (user_id msg) session (mensagem msg) text]
         ++ (if str_truthy (ac_webhook_url agent_config)
             then [EvWebhook l (ac_webhook_url agent_config) response] else [])
         ++ [EvProcessed l]).
Proof.
  intros h1 msg session Hr Hm. unfold message_body.
  cbn [body_run body_seg]. fold h1. fold msg. fold session.
  rewrite Hr, Hm. cbn [body_run body_seg].
  by destruct (str_truthy (ac_webhook_url agent_config)).
Qed.

(** X15. With [SimpleAgent] as the agent class, the body of every message
    runs to its end whatever the LLM or the graph runtime do: the context
    is fetched, the agent's single message is saved with the text of the
    user, the response is sent to the webhook exactly when the agent has a
    non-empty webhook url, and the message is reported as processed; the
    error branch of the body is never taken. *)
Theorem simple_agent_body_completes (str_lower : string → string) (setup_fault : option exn)
    (env : Env) (agent : string) (agent_config : AgentConfig) (tick : nat) (l : loc)
    (h : heap) :
  let cls := simple_agent_class str_lower setup_fault in
  let h1 := if opt_truthy (session_id (deref h l)) then h
            else <[l := set_session_id (uuid4 (outside env tick)) (deref h l)]> h in
  let msg := deref h1 l in
  let session := default "" (session_id msg) in
  ∃ response text,
    message_body env agent agent_config (Some cls) tick l h
    = (h1, [EvContext l (tenant_of msg) (user_id msg) session;
            EvAgentReply l response;
            EvSave l (tenant_of msg) (user_id msg) session (mensagem msg) text]
           ++ (if str_truthy (ac_webhook_url agent_config)
               then [EvWebhook l (ac_webhook_url agent_config) response] else [])
           ++ [EvProcessed l])
    ∧ r_messages response = [text]
    ∧ r_user_id response = user_id msg
    ∧ r_session_id response = session
    ∧ r_agent_id response = ac_id agent_config.
Proof.
  intros cls h1 msg session.
  destruct (process_shape str_lower (SimpleAgent.init agent_config)
              (outside env tick) [mensagem msg] (user_id msg) session (tenant_of msg))
    as (text & usage & Hp & _).
  eexists _, text. split.
  - apply (message_body_completes env agent agent_config (Some cls) tick l h _ text []).
    + exact Hp.
    + done.
  - done.
Qed.

(** X16. When [SimpleAgent] could not be imported, the dispatcher builds no
    agent and answers every message itself with the fixed text that the
    system is unavailable; the reply is still saved and, if the agent has a
    webhook url, sent to it. *)
Theorem without_simple_agent_basic_reply (env : Env) (agent : string)
    (agent_config : AgentConfig) (tick : nat) (l : loc) (h : heap) :
  SimpleAgent_class env = None →
  let h1 := if opt_truthy (session_id (deref h l)) then h
            else <[l := set_session_id (uuid4 (outside env tick)) (deref h l)]> h in
  let msg := deref h1 l in
  let session := default "" (session_id msg) in
  let response :=
    {| r_messages := ["Desculpe, o sistema está temporariamente indisponível."];
       r_transferir := false; r_session_id := session; r_user_id := user_id msg;
       r_agent_id := agent; r_custom := []; r_agent_usage := [] |} in
  make_agent env agent_config = inr None
  ∧ message_body env agent agent_config None tick l h
    = (h1, [EvContext l (tenant_of msg) (user_id msg) session;
            EvAgentReply l response;
            EvSave l (tenant_of msg) (user_id msg) session (mensagem msg)
                   "Desculpe, o sistema está temporariamente indisponível."]
           ++ (if str_truthy (ac_webhook_url agent_config)
               then [EvWebhook l (ac_webhook_url agent_config) response] else [])
           ++ [EvProcessed l]).
Proof.
  intros Hcls h1 msg session response. split.
  - unfold make_agent. by rewrite Hcls.
  - by apply (message_body_completes env agent agent_config None tick l h response _ []).
Qed.

(** ** Skills and the prompt *)

Lemma prefix_app (n h : string) :
  String.prefix n h = true ↔ ∃ post, h = n +:+ post.
Proof.
  revert n. induction h as [|b h IH]; intros [|a n]; cbn.
  - split; [by exists ""|done].
  - split; [done|]. by intros [post ?].
  - split; [intros _; by eexists|done].
  - destruct (Ascii.ascii_dec a b) as [->|Hne].
    + rewrite IH. split; intros [post Hp]; exists post.
      * cbn. by rewrite Hp.
      * cbn in Hp. by inversion Hp.
    + split; [done|]. intros [post Hp]. cbn in Hp. by inversion Hp.
Qed.

(** [str_contains] is Python's [in] on strings: the needle occurs somewhere
    in the haystack. *)
Lemma str_contains_spec (n h : string) :
  SimpleAgent.str_contains n h = true ↔ ∃ pre post, h = pre +:+ n +:+ post.
Proof.
  induction h as [|b h IH]; cbn [SimpleAgent.str_contains].
  - destruct (String.prefix n "") eqn:Hp.
    + split; [|done]. intros _. apply prefix_app in Hp as [post Hp]. by exists "", post.
    + split; [done|]. intros (pre & post & Heq).
      destruct pre; [|done]. cbn in Heq.
      assert (String.prefix n "" = true) by (apply prefix_app; by exists post). congruence.
  - destruct (String.prefix n (String b h)) eqn:Hp.
    + split; [|done]. intros _. apply prefix_app in Hp as [post Hp]. by exists "", post.
    + rewrite IH. split.
      * intros (pre & post & ->). by exists (String b pre), post.
      * intros (pre & post & Heq). destruct pre as [|c pre].
        -- cbn in Heq.
           assert (String.prefix n (String b h) = true) by (apply prefix_app; by exists post).
           congruence.
        -- cbn in Heq. inversion Heq. by exists pre, post.
Qed.

Lemma filter_none {A} (f : A → bool) (l : list A) :
  (∀ x, x ∈ l → f x = false) → List.filter f l = [].
Proof.
  induction l as [|x l IH]; intros Hf; cbn; [done|].
  rewrite Hf by left. apply IH. intros y Hy. apply Hf. by right.
Qed.

Section Skills.
Import SimpleAgent.
Variable str_lower : string → string.

(** X17. [_apply_skills] records as used, in the order of the
    configuration, exactly the skills one of whose keywords, lower-cased,
    occurs in the lower-cased first message (the empty text when there is no
    message); their names are appended to [skills_used], and the context
    gets their descriptions only when there is at least one. *)
Theorem apply_skills_uses_matching (self : t) (state : AgentState) :
  let message_lower := str_lower (hd "" (messages state)) in
  let state' := _apply_skills str_lower self state in
  ∃ used,
    skills_used state'
    = skills_used state ++ map (λ skill, default "unknown" (sk_name skill)) used
    ∧ used `sublist_of` self_skills self
    ∧ (∀ skill, skill ∈ used
         ↔ skill ∈ self_skills self
           ∧ ∃ keyword pre post, keyword ∈ sk_keywords skill
               ∧ message_lower = pre +:+ str_lower keyword +:+ post)
    ∧ ctx_skills (context state')
      = match used with
        | [] => ctx_skills (context state)
        | _ => map skill_context used
        end
    ∧ messages state' = messages state.
Proof.
  intros message_lower state'.
  exists (List.filter (skill_relevant str_lower message_lower) (self_skills self)).
  assert (∀ skill, skill_relevant str_lower message_lower skill = true
            ↔ ∃ keyword pre post, keyword ∈ sk_keywords skill
                ∧ message_lower = pre +:+ str_lower keyword +:+ post) as Hrel.
  { intros skill. unfold skill_relevant. rewrite existsb_exists. split.
    - intros (keyword & Hin & Hc). apply str_contains_spec in Hc as (pre & post & Hc).
      exists keyword, pre, post. split; [by apply list_elem_of_In|done].
    - intros (keyword & pre & post & Hin & Hc). exists keyword.
      split; [by apply list_elem_of_In|]. apply str_contains_spec. by exists pre, post. }
  split_and!.
  - subst state'. unfold _apply_skills. fold message_lower.
    destruct (self_skills self); [by rewrite app_nil_r|done].
  - clear. induction (self_skills self) as [|skill skills IH]; cbn; [done|].
    destruct (skill_relevant _ _ _); [by apply sublist_skip|by apply sublist_cons].
  - intros skill. rewrite list_elem_of_In, filter_In, <- list_elem_of_In, Hrel. done.
  - subst state'. unfold _apply_skills. fold message_lower.
    destruct (self_skills self) as [|skill skills] eqn:Hs; [done|]. cbn [context].
    by destruct (List.filter _ _).
  - apply apply_skills_messages.
Qed.

(** X18. The LLM is asked with two messages: a system message, then the
    first message of the call verbatim as the human message (["Olá"] when
    the call has no message).  When no skill matches, the system message is
    exactly the instructions of the agent. *)
Theorem prompt_carries_user_text (self : t) (world : Behaviour) (msgs : list string)
    (user_id session_id tenant_id : string) :
  ∃ system,
    prompt str_lower self world msgs user_id session_id tenant_id
    = [SystemMessage system; HumanMessage (hd "Olá" msgs)]
    ∧ ((∀ skill, skill ∈ self_skills self →
          skill_relevant str_lower (str_lower (hd "" msgs)) skill = false) →
       system = self_instructions self).
Proof.
  unfold prompt, llm_messages. rewrite apply_skills_messages. cbn [messages _process_message].
  eexists. split; [reflexivity|].
  intros Hnone. unfold system_prompt, _apply_skills.
  destruct (self_skills self) as [|skill skills] eqn:Hs; [done|].
  cbn [context _process_message initial_state messages ctx_skills].
  assert (List.filter (skill_relevant str_lower (str_lower (hd "" msgs))) (skill :: skills) = [])
    as ->.
  { apply filter_none. intros x Hx. by apply Hnone. }
  done.
Qed.
End Skills.

(** ** The API key *)

(** X19. A request is authenticated exactly when it carries an [X-API-Key]
    header whose value is non-empty and equal to the configured key; in
    particular, when the configured key is the empty string no request is
    accepted. *)
Theorem api_key_accepted_iff (env : Env) (x_api_key : option string) (api_key : string) :
  (get_api_key_from_header env x_api_key = inr api_key
   ↔ x_api_key = Some api_key ∧ api_key = API_KEY env ∧ api_key ≠ "")
  ∧ (∀ e, get_api_key_from_header env x_api_key = inl e →
          e = (401%Z, "Chave de API inválida"))
  ∧ (API_KEY env = "" → ∃ e, get_api_key_from_header env x_api_key = inl e).
Proof.
  unfold get_api_key_from_header, str_truthy.
  destruct x_api_key as [k|].
  { destruct (String.eqb_spec k "") as [->|Hk]; cbn.
    - split_and!.
      + split; [done|]. by intros ([= <-] & _ & Hne).
      + by intros e [= <-].
      + eauto.
    - destruct (String.eqb_spec k (API_KEY env)) as [Hkey|Hkey]; cbn.
      + split_and!.
        * split; [by intros [= <-]|by intros ([= <-] & _ & _)].
        * done.
        * intros Hempty. congruence.
      + split_and!.
        * split; [done|]. intros ([= <-] & Heq & _). done.
        * by intros e [= <-].
        * eauto. }
  split_and!.
  - split; [done|by intros [? _]].
  - by intros e [= <-].
  - eauto.
Qed.

Lemma without_simple_agent_witness :
  let env := {| API_KEY := "k"; agents_storage := {["a" := Scenario.agent "a" ""]};
                SimpleAgent_class := None; outside := Scenario.calm |} in
  let h := [Scenario.message "oi" "a" "u" (Some "s1") 1000] in
  make_agent env (Scenario.agent "a" "") = inr None
  ∧ replied (message_body env "a" (Scenario.agent "a" "") None 0 0 h).2 = [0%nat]
  ∧ (message_body env "a" (Scenario.agent "a" "") None 0 0 h).1 = h.
Proof.
  intros env h.
  destruct (without_simple_agent_basic_reply env "a" (Scenario.agent "a" "") 0 0 h eq_refl)
    as [H1 H2].
  split; [exact H1|]. rewrite H2. split; reflexivity.
Defined.

(** ** The retry loop of the connection patches *)

Section RetryProps.
Import Patches.
Context {D : Type}.
Variable connect : nat → exn + D.

Lemma attempts_made_step a d ev :
  attempts_made (Attempt a :: Sleep d :: ev) = a :: attempts_made ev.
Proof. reflexivity. Qed.

Lemma slept_step a d ev : slept (Attempt a :: Sleep d :: ev) = (d + slept ev)%Z.
Proof. reflexivity. Qed.

Lemma for_attempts_spec n : ∀ a d max_retries,
  (0 < n)%nat → (a + n = max_retries)%nat →
  ∃ k, (a ≤ k < max_retries)%nat
    ∧ (for_attempts connect (seq a n) max_retries d).1 = Some (connect k)
    ∧ (∀ j, (a ≤ j < k)%nat → ∃ e, connect j = inl e)
    ∧ ((k < max_retries - 1)%nat → ∃ driver, connect k = inr driver)
    ∧ attempts_made (for_attempts connect (seq a n) max_retries d).2 = seq a (S (k - a))
    ∧ slept (for_attempts connect (seq a n) max_retries d).2
      = (d * (2 ^ Z.of_nat (k - a) - 1))%Z.
Proof.
  induction n as [|n IH]; intros a d max_retries Hn Ha; [lia|].
  cbn [seq for_attempts].
  destruct (connect a) as [e|driver] eqn:Hc.
  - destruct (decide (a < max_retries - 1)%nat) as [Hlt|Hge].
    + destruct (IH (S a) (d * 2)%Z max_retries) as (k & Hk & Hr & Hfail & Hok & Hat & Hsl);
        [lia|lia|].
      destruct (for_attempts connect (seq (S a) n) max_retries (d * 2)) as [r ev].
      cbn [fst snd] in *. exists k. split; [lia|]. split; [done|]. split.
      { intros j Hj. destruct (decide (j = a)) as [->|Hne]; [eauto|]. apply Hfail. lia. }
      split; [done|]. split.
      * rewrite attempts_made_step, Hat.
        replace (k - a)%nat with (S (k - S a)) by lia. done.
      * rewrite slept_step, Hsl.
        replace (k - a)%nat with (S (k - S a)) by lia.
        rewrite Nat2Z.inj_succ, Z.pow_succ_r by lia. lia.
    + exists a. cbn [fst snd]. rewrite Nat.sub_diag. split; [lia|].
      split; [by rewrite Hc|].
      split; [intros j Hj; lia|]. split; [intros Hlt; lia|]. split; [done|].
      cbn. lia.
  - exists a. cbn [fst snd]. rewrite Nat.sub_diag. split; [lia|].
    split; [by rewrite Hc|].
    split; [intros j Hj; lia|]. split; [eauto|]. split; [done|]. cbn. lia.
Qed.

(** X20. The patched constructors try at most three times, in order, and
    stop at the first attempt that succeeds; they wait one second after the
    first failure and two after the second (never more than three seconds in
    all), and when the third attempt fails too they raise its exception.
    They never return without a connection or an exception. *)
Theorem patched_driver_retries :
  ∃ k, (k < 3)%nat
    ∧ (patched_driver connect).1 = Some (connect k)
    ∧ (∀ j, (j < k)%nat → ∃ e, connect j = inl e)
    ∧ ((k < 2)%nat → ∃ driver, connect k = inr driver)
    ∧ attempts_made (patched_driver connect).2 = seq 0 (S k)
    ∧ slept (patched_driver connect).2 = (2 ^ Z.of_nat k - 1)%Z
    ∧ (slept (patched_driver connect).2 ≤ 3)%Z.
Proof.
  destruct (for_attempts_spec 3 0 1%Z 3) as (k & Hk & Hr & Hfail & Hok & Hat & Hsl);
    [lia|lia|].
  exists k. unfold patched_driver, retry_loop. rewrite Nat.sub_0_r in Hat, Hsl.
  split; [lia|]. split; [done|]. split; [intros j Hj; apply Hfail; lia|].
  split; [intros Hlt; apply Hok; lia|]. split; [done|]. split; [rewrite Hsl; lia|].
  rewrite Hsl. assert (k = 0 ∨ k = 1 ∨ k = 2)%nat as [-> | [-> | ->]] by lia; cbn; lia.
Qed.
End RetryProps.

(** ** Setting up and validating the configuration of Cognee *)

Section Cognee.
Import CogneeConfig.

Lemma getenv_insert_ne (environ : Environ) k k' v d :
  k ≠ k' → getenv (<[k := v]> environ) k' d = getenv environ k' d.
Proof. intros Hne. unfold getenv. by rewrite lookup_insert_ne. Qed.

Lemma getenv_insert_eq (environ : Environ) k v d :
  getenv (<[k := v]> environ) k d = v.
Proof. unfold getenv. by rewrite lookup_insert_eq. Qed.

(** [databases] with every read taken from the initial environment. *)
Lemma databases_eq environ :
  databases environ
  = let environ1 :=
      <["VECTOR_DB_URL" := getenv environ "QDRANT_URL" "http://localhost:6333"]>
        (<["NEO4J_PASSWORD" := getenv environ "NEO4J_PASSWORD" "password"]>
           (<["NEO4J_USER" := getenv environ "NEO4J_USER" "neo4j"]>
              (<["NEO4J_URL" := getenv environ "NEO4J_URL" "bolt://localhost:7687"]>
                 (<["VECTOR_DB_PROVIDER" := "qdrant"]>
                    (<["GRAPH_DATABASE_PROVIDER" := "neo4j"]> environ))))) in
    if str_truthy (getenv environ "QDRANT_API_KEY" "")
    then <["QDRANT_API_KEY" := getenv environ "QDRANT_API_KEY" ""]> environ1
    else environ1.
Proof.
  unfold databases. cbn zeta. by rewrite !getenv_insert_ne by done.
Qed.

Lemma databases_other environ k :
  k ∉ ["GRAPH_DATABASE_PROVIDER"; "VECTOR_DB_PROVIDER"; "NEO4J_URL"; "NEO4J_USER";
       "NEO4J_PASSWORD"; "VECTOR_DB_URL"] →
  databases environ !! k = environ !! k.
Proof.
  intros Hk. repeat (apply not_elem_of_cons in Hk as [? Hk]).
  rewrite databases_eq. cbn zeta.
  destruct (str_truthy _) eqn:Ht; cbv iota.
  - destruct (decide (k = "QDRANT_API_KEY")) as [->|Hne].
    + rewrite lookup_insert_eq. unfold getenv in *.
      destruct (environ !! "QDRANT_API_KEY"); [done|]. by cbn in Ht.
    + by rewrite !lookup_insert_ne by done.
  - by rewrite !lookup_insert_ne by done.
Qed.

Lemma llm_other patches environ k :
  k ∉ ["OPENAI_API_KEY"; "OPENAI_API_BASE"] →
  (llm patches environ).1 !! k = environ !! k.
Proof.
  intros Hk. repeat (apply not_elem_of_cons in Hk as [? Hk]). unfold llm.
  destruct (String.eqb _ "openrouter").
  - destruct (environ !! "OPENROUTER_API_KEY") as [key|]; [|done].
    destruct (str_truthy key); [|done]. cbn. by rewrite !lookup_insert_ne by done.
  - destruct (String.eqb _ "openai"); [|done].
    destruct (environ !! "OPENAI_API_KEY") as [key|]; [|done].
    destruct (str_truthy key); [|done]. cbn. by rewrite !lookup_insert_ne by done.
Qed.

Lemma llm_openai_key patches environ :
  env_truthy (llm patches environ).1 "OPENAI_API_KEY"
  = if String.eqb (getenv environ "LLM_PROVIDER" "openai") "openrouter"
    then env_truthy environ "OPENROUTER_API_KEY" || env_truthy environ "OPENAI_API_KEY"
    else env_truthy environ "OPENAI_API_KEY".
Proof.
  unfold llm, env_truthy. cbn zeta.
  destruct (String.eqb _ "openrouter").
  - destruct (environ !! "OPENROUTER_API_KEY") as [key|]; [|done].
    destruct (str_truthy key) eqn:Hk; [|done]. cbn.
    rewrite lookup_insert_ne by done. by rewrite lookup_insert_eq, Hk.
  - destruct (String.eqb _ "openai"); [|done].
    destruct (environ !! "OPENAI_API_KEY") as [key|] eqn:Hkey;
      [|cbn [fst]; by rewrite Hkey].
    destruct (str_truthy key) eqn:Hk; cbn [fst]; [|by rewrite Hkey, Hk].
    by rewrite lookup_insert_eq, Hk.
Qed.

Lemma models_other environ k :
  k ∉ ["LLM_MODEL"; "EMBEDDING_MODEL"] → models environ !! k = environ !! k.
Proof.
  intros Hk. repeat (apply not_elem_of_cons in Hk as [? Hk]). unfold models. cbn zeta.
  by rewrite !lookup_insert_ne by done.
Qed.

Lemma not_in_keys (k : string) (l : list string) :
  forallb (λ k', negb (String.eqb k k')) l = true → k ∉ l.
Proof.
  induction l as [|k' l IH]; cbn; [intros _; apply not_elem_of_nil|].
  intros [Hk Hl]%andb_prop. apply not_elem_of_cons. split; [|by apply IH].
  intros ->. by rewrite String.eqb_refl in Hk.
Qed.

(** A variable [setup_cognee] only reads. *)
Lemma setup_reads environ patches k :
  forallb (λ k', negb (String.eqb k k'))
    ["GRAPH_DATABASE_PROVIDER"; "VECTOR_DB_PROVIDER"; "NEO4J_URL"; "NEO4J_USER";
     "NEO4J_PASSWORD"; "VECTOR_DB_URL"; "OPENAI_API_KEY"; "OPENAI_API_BASE";
     "LLM_MODEL"; "EMBEDDING_MODEL"] = true →
  models (llm patches (databases environ)).1 !! k = environ !! k.
Proof.
  intros Hk%not_in_keys. repeat (apply not_elem_of_cons in Hk as [? Hk]).
  rewrite models_other, llm_other, databases_other; [done|..];
    repeat (apply not_elem_of_cons; split; [done|]); apply not_elem_of_nil.
Qed.

Lemma env_truthy_getenv environ k d :
  str_truthy d = true →
  str_truthy (getenv environ k d) = usable_or_unset environ k.
Proof. intros Hd. unfold getenv, usable_or_unset. by destruct (environ !! k). Qed.

(** X21. With Cognee importable, [setup_cognee] returns [None] in
    development mode ([DISABLE_EXTERNAL_DBS] is ["true"]), [False] when one
    of the provider calls raises and [True] otherwise, and the environment
    it leaves passes [validate_cognee_configuration] as follows: the graph
    database counts as configured unless one of the three Neo4j variables
    was set to the empty string, the vector database unless [QDRANT_URL]
    was, and the LLM exactly when the key of the chosen provider is set and
    non-empty. *)
Theorem setup_then_validate (patches : bool) (configure : string → option exn)
    (environ : Environ) :
  let s := setup_cognee Imported patches configure environ in
  let v := validate_cognee_configuration Imported (environ_after s) in
  let llm_provider := getenv environ "LLM_PROVIDER" "openai" in
  returned s
  = (if bool_decide (environ !! "DISABLE_EXTERNAL_DBS" = Some "true") then None
     else match configure llm_provider with Some _ => Some false | None => Some true end)
  ∧ cognee_available v = true
  ∧ graph_db_configured v
    = usable_or_unset environ "NEO4J_URL" && usable_or_unset environ "NEO4J_USER"
      && usable_or_unset environ "NEO4J_PASSWORD"
  ∧ vector_db_configured v = usable_or_unset environ "QDRANT_URL"
  ∧ llm_configured v
    = (if String.eqb llm_provider "openrouter" then env_truthy environ "OPENROUTER_API_KEY"
       else if String.eqb llm_provider "openai" then env_truthy environ "OPENAI_API_KEY"
       else false)
  ∧ errors v
    = (if graph_db_configured v then [] else ["Configuração Neo4j incompleta"])
      ++ (if vector_db_configured v then [] else ["URL do Qdrant não configurada"])
      ++ (if llm_configured v then []
          else if String.eqb llm_provider "openrouter"
               then ["Chave OpenRouter não configurada"]
          else if String.eqb llm_provider "openai" then ["Chave OpenAI não configurada"]
          else []).
Proof.
  intros s v llm_provider.
  set (environ2 := models (llm patches (databases environ)).1).
  assert (environ_after s = environ2
          ∧ returned s
            = (if bool_decide (environ2 !! "DISABLE_EXTERNAL_DBS" = Some "true") then None
               else match configure (getenv environ2 "LLM_PROVIDER" "openai") with
                    | Some _ => Some false | None => Some true end)) as [He Hr].
  { subst s environ2. unfold setup_cognee.
    destruct (llm patches (databases environ)) as [environ1 patched]. cbn [fst].
    destruct (bool_decide _); [done|]. by destruct (configure _). }
  assert (∀ k, forallb (λ k', negb (String.eqb k k'))
                 ["GRAPH_DATABASE_PROVIDER"; "VECTOR_DB_PROVIDER"; "NEO4J_URL"; "NEO4J_USER";
                  "NEO4J_PASSWORD"; "VECTOR_DB_URL"; "OPENAI_API_KEY"; "OPENAI_API_BASE";
                  "LLM_MODEL"; "EMBEDDING_MODEL"] = true →
               environ2 !! k = environ !! k) as Hread.
  { intros k Hk. by apply setup_reads. }
  assert (getenv environ2 "LLM_PROVIDER" "openai" = llm_provider) as Hp.
  { unfold getenv. by rewrite Hread. }
  split.
  { rewrite Hr, Hp. by rewrite (Hread "DISABLE_EXTERNAL_DBS"). }
  subst v. rewrite He. unfold validate_cognee_configuration.
  assert (∀ k, k ∈ ["GRAPH_DATABASE_PROVIDER"; "VECTOR_DB_PROVIDER"; "NEO4J_URL";
                    "NEO4J_USER"; "NEO4J_PASSWORD"; "VECTOR_DB_URL"] →
               environ2 !! k = databases environ !! k) as Hdb.
  { intros k Hk. subst environ2.
    rewrite models_other, llm_other; [done|..];
      repeat (apply elem_of_cons in Hk as [->|Hk]; [by apply not_in_keys|]);
      by apply elem_of_nil in Hk. }
  assert (validate_graph environ2
          = (usable_or_unset environ "NEO4J_URL" && usable_or_unset environ "NEO4J_USER"
             && usable_or_unset environ "NEO4J_PASSWORD",
             if usable_or_unset environ "NEO4J_URL" && usable_or_unset environ "NEO4J_USER"
                && usable_or_unset environ "NEO4J_PASSWORD"
             then [] else ["Configuração Neo4j incompleta"])) as Hg.
  { unfold validate_graph, env_truthy.
    rewrite !Hdb by (repeat first [left|right]). rewrite databases_eq. cbn zeta.
    assert (∀ (m : Environ) k v, k ≠ "QDRANT_API_KEY" →
              (if str_truthy (getenv environ "QDRANT_API_KEY" "")
               then <["QDRANT_API_KEY" := v]> m else m) !! k = m !! k) as Hq.
    { intros m k v' Hne. destruct (str_truthy _); [|done]. by rewrite lookup_insert_ne. }
    rewrite !Hq by done.
    repeat first [rewrite lookup_insert_eq | rewrite lookup_insert_ne by done].
    rewrite bool_decide_true by done.
    rewrite !env_truthy_getenv by done.
    by destruct (_ && _ && _). }
  assert (validate_vector environ2
          = (usable_or_unset environ "QDRANT_URL",
             if usable_or_unset environ "QDRANT_URL" then []
             else ["URL do Qdrant não configurada"])) as Hv.
  { unfold validate_vector, env_truthy.
    rewrite !Hdb by (repeat first [left|right]). rewrite databases_eq. cbn zeta.
    assert (∀ (m : Environ) k v, k ≠ "QDRANT_API_KEY" →
              (if str_truthy (getenv environ "QDRANT_API_KEY" "")
               then <["QDRANT_API_KEY" := v]> m else m) !! k = m !! k) as Hq.
    { intros m k v' Hne. destruct (str_truthy _); [|done]. by rewrite lookup_insert_ne. }
    rewrite !Hq by done.
    repeat first [rewrite lookup_insert_eq | rewrite lookup_insert_ne by done].
    rewrite bool_decide_true by done.
    rewrite !env_truthy_getenv by done.
    destruct (usable_or_unset environ "QDRANT_URL"); reflexivity. }
  assert (validate_llm environ2
          = (if String.eqb llm_provider "openrouter"
             then (env_truthy environ "OPENROUTER_API_KEY",
                   if env_truthy environ "OPENROUTER_API_KEY" then []
                   else ["Chave OpenRouter não configurada"])
             else if String.eqb llm_provider "openai"
                  then (env_truthy environ "OPENAI_API_KEY",
                        if env_truthy environ "OPENAI_API_KEY" then []
                        else ["Chave OpenAI não configurada"])
             else (false, []))) as Hl.
  { unfold validate_llm. cbn zeta. rewrite Hp.
    destruct (String.eqb llm_provider "openrouter") eqn:Hor.
    - unfold env_truthy. rewrite (Hread "OPENROUTER_API_KEY") by done.
      by destruct (match environ !! "OPENROUTER_API_KEY" with Some _ => _ | None => _ end).
    - destruct (String.eqb llm_provider "openai") eqn:Hoa; [|done].
      assert (env_truthy environ2 "OPENAI_API_KEY" = env_truthy environ "OPENAI_API_KEY")
        as ->.
      { subst environ2. unfold env_truthy at 1. rewrite models_other by (by apply not_in_keys).
        fold (env_truthy (llm patches (databases environ)).1 "OPENAI_API_KEY").
        rewrite llm_openai_key.
        assert (getenv (databases environ) "LLM_PROVIDER" "openai" = llm_provider) as ->.
        { unfold getenv. rewrite databases_other by (by apply not_in_keys). done. }
        rewrite Hor. unfold env_truthy.
        by rewrite databases_other by (by apply not_in_keys). }
      by destruct (env_truthy environ "OPENAI_API_KEY"). }
  rewrite Hg, Hv, Hl.
  destruct (String.eqb llm_provider "openrouter"); [|destruct (String.eqb llm_provider "openai")];
    cbn [cognee_available graph_db_configured vector_db_configured llm_configured errors];
    repeat split;
    repeat match goal with |- context [if ?b then _ else _] => destruct b end; done.
Qed.

Lemma databases_fix (m : Environ) :
  m !! "GRAPH_DATABASE_PROVIDER" = Some "neo4j" →
  m !! "VECTOR_DB_PROVIDER" = Some "qdrant" →
  is_Some (m !! "NEO4J_URL") → is_Some (m !! "NEO4J_USER") →
  is_Some (m !! "NEO4J_PASSWORD") →
  m !! "VECTOR_DB_URL" = Some (getenv m "QDRANT_URL" "http://localhost:6333") →
  databases m = m.
Proof.
  intros Hg Hv [url Hurl] [user Huser] [password Hpassword] Hq.
  unfold databases. cbn zeta.
  rewrite (insert_id m "GRAPH_DATABASE_PROVIDER") by done.
  rewrite (insert_id m "VECTOR_DB_PROVIDER") by done.
  assert (∀ d, getenv m "NEO4J_URL" d = url) as Hu1.
  { intros d. unfold getenv. by rewrite Hurl. }
  assert (∀ d, getenv m "NEO4J_USER" d = user) as Hu2.
  { intros d. unfold getenv. by rewrite Huser. }
  assert (∀ d, getenv m "NEO4J_PASSWORD" d = password) as Hu3.
  { intros d. unfold getenv. by rewrite Hpassword. }
  rewrite !Hu1, !Hu2, !Hu3.
  rewrite (insert_id m "NEO4J_URL") by done.
  rewrite (insert_id m "NEO4J_USER") by done.
  rewrite (insert_id m "NEO4J_PASSWORD") by done.
  rewrite (insert_id m "VECTOR_DB_URL") by done.
  destruct (str_truthy (getenv m "QDRANT_API_KEY" "")) eqn:Ht; [|done].
  apply insert_id. unfold getenv in *. destruct (m !! "QDRANT_API_KEY"); [done|].
  by cbn in Ht.
Qed.

Lemma llm_fix patches (m : Environ) :
  (String.eqb (getenv m "LLM_PROVIDER" "openai") "openrouter" = true →
   env_truthy m "OPENROUTER_API_KEY" = true →
   m !! "OPENAI_API_KEY" = m !! "OPENROUTER_API_KEY"
   ∧ m !! "OPENAI_API_BASE" = Some "https://openrouter.ai/api/v1") →
  (llm patches m).1 = m.
Proof.
  intros Hor. unfold llm. cbn zeta.
  destruct (String.eqb _ "openrouter").
  - unfold env_truthy in Hor. destruct (m !! "OPENROUTER_API_KEY") as [key|]; [|done].
    destruct (str_truthy key); [|done]. destruct (Hor eq_refl eq_refl) as [Hk Hb].
    cbn [fst]. rewrite (insert_id m "OPENAI_API_KEY") by done. by apply insert_id.
  - destruct (String.eqb _ "openai"); [|done].
    destruct (m !! "OPENAI_API_KEY") as [key|] eqn:Hkey; [|done].
    destruct (str_truthy key); [|done]. cbn [fst]. by apply insert_id.
Qed.

Lemma llm_patched patches (m : Environ) :
  (llm patches m).2
  = String.eqb (getenv m "LLM_PROVIDER" "openai") "openrouter"
    && env_truthy m "OPENROUTER_API_KEY" && patches.
Proof.
  unfold llm, env_truthy. cbn zeta.
  destruct (String.eqb _ "openrouter"); cbn [andb].
  - destruct (m !! "OPENROUTER_API_KEY") as [key|]; [|done]. by destruct (str_truthy key).
  - destruct (String.eqb _ "openai"); [|done].
    destruct (m !! "OPENAI_API_KEY") as [key|]; [|done]. by destruct (str_truthy key).
Qed.

Lemma models_fix (m : Environ) :
  m !! "LLM_MODEL" = Some (getenv m "DEFAULT_LLM_MODEL" "gpt-3.5-turbo") →
  is_Some (m !! "EMBEDDING_MODEL") →
  models m = m.
Proof.
  intros Hm [e He]. unfold models. cbn zeta.
  rewrite (insert_id m "LLM_MODEL") by done.
  apply insert_id. unfold getenv. by rewrite He.
Qed.

(** The environment [setup_cognee] leaves when Cognee is importable. *)
Lemma setup_environ patches configure environ :
  environ_after (setup_cognee Imported patches configure environ)
  = models (llm patches (databases environ)).1
  ∧ litellm_patch (setup_cognee Imported patches configure environ)
    = (llm patches (databases environ)).2
  ∧ returned (setup_cognee Imported patches configure environ)
    = (let environ2 := models (llm patches (databases environ)).1 in
       if bool_decide (environ2 !! "DISABLE_EXTERNAL_DBS" = Some "true") then None
       else match configure (getenv environ2 "LLM_PROVIDER" "openai") with
            | Some _ => Some false | None => Some true end).
Proof.
  unfold setup_cognee.
  destruct (llm patches (databases environ)) as [environ1 patched]. cbn [fst snd].
  destruct (bool_decide _); [done|]. by destruct (configure _).
Qed.

Lemma settled patches environ :
  let environ2 := models (llm patches (databases environ)).1 in
  databases environ2 = environ2
  ∧ (llm patches environ2).1 = environ2
  ∧ (llm patches environ2).2 = (llm patches (databases environ)).2
  ∧ models environ2 = environ2.
Proof.
  intros environ2.
  assert (∀ k, forallb (λ k', negb (String.eqb k k'))
                 ["GRAPH_DATABASE_PROVIDER"; "VECTOR_DB_PROVIDER"; "NEO4J_URL"; "NEO4J_USER";
                  "NEO4J_PASSWORD"; "VECTOR_DB_URL"; "OPENAI_API_KEY"; "OPENAI_API_BASE";
                  "LLM_MODEL"; "EMBEDDING_MODEL"] = true →
               environ2 !! k = environ !! k) as Hread.
  { intros k Hk. by apply setup_reads. }
  assert (∀ k, forallb (λ k', negb (String.eqb k k'))
                 ["OPENAI_API_KEY"; "OPENAI_API_BASE"; "LLM_MODEL"; "EMBEDDING_MODEL"] = true →
               environ2 !! k = databases environ !! k) as Hdb.
  { intros k Hk%not_in_keys. subst environ2.
    repeat (apply not_elem_of_cons in Hk as [? Hk]).
    rewrite models_other, llm_other; [done|..];
      repeat (apply not_elem_of_cons; split; [done|]); apply not_elem_of_nil. }
  assert (∀ (m : Environ) k v, k ≠ "QDRANT_API_KEY" →
            (if str_truthy (getenv environ "QDRANT_API_KEY" "")
             then <["QDRANT_API_KEY" := v]> m else m) !! k = m !! k) as Hq.
  { intros m k v' Hne. destruct (str_truthy _); [|done]. by rewrite lookup_insert_ne. }
  assert (getenv environ2 "LLM_PROVIDER" "openai"
          = getenv (databases environ) "LLM_PROVIDER" "openai") as Hp.
  { unfold getenv. by rewrite Hdb. }
  assert (environ2 !! "OPENROUTER_API_KEY" = databases environ !! "OPENROUTER_API_KEY")
    as Hork by (by rewrite Hdb).
  split_and!.
  - apply databases_fix; rewrite ?Hdb by done; rewrite databases_eq; cbn zeta;
      rewrite !Hq by done;
      repeat first [rewrite lookup_insert_eq | rewrite lookup_insert_ne by done];
      try done; try (by eexists).
    f_equal. unfold getenv. by rewrite (Hread "QDRANT_URL").
  - apply llm_fix. intros Hor Hkey. rewrite Hp in Hor.
    unfold env_truthy in Hkey. rewrite Hork in Hkey. rewrite Hork.
    subst environ2. rewrite !models_other by (by apply not_in_keys).
    unfold llm. cbn zeta. rewrite Hor.
    destruct (databases environ !! "OPENROUTER_API_KEY") as [key|]; [|done].
    rewrite Hkey. cbn [fst].
    by repeat first [rewrite lookup_insert_eq | rewrite lookup_insert_ne by done].
  - rewrite !llm_patched. unfold env_truthy. by rewrite Hp, Hork.
  - subst environ2. set (environ1 := (llm patches (databases environ)).1).
    apply models_fix.
    + unfold models. cbn zeta.
      repeat first [rewrite lookup_insert_eq | rewrite lookup_insert_ne by done].
      f_equal. unfold getenv.
      by repeat first [rewrite lookup_insert_eq | rewrite lookup_insert_ne by done].
    + unfold models. cbn zeta. rewrite lookup_insert_eq. by eexists.
Qed.

(** X22. Running [setup_cognee] a second time changes nothing: it leaves
    the environment the first run left, returns what the first run returned
    (given the provider calls behave the same) and reaches the LiteLLM patch
    in the same cases. *)
Theorem setup_cognee_idempotent (patches : bool) (configure : string → option exn)
    (environ : Environ) :
  let s1 := setup_cognee Imported patches configure environ in
  let s2 := setup_cognee Imported patches configure (environ_after s1) in
  environ_after s2 = environ_after s1
  ∧ returned s2 = returned s1
  ∧ litellm_patch s2 = litellm_patch s1.
Proof.
  intros s1 s2.
  destruct (setup_environ patches configure environ) as (He1 & Hp1 & Hr1).
  destruct (setup_environ patches configure (environ_after s1)) as (He2 & Hp2 & Hr2).
  fold s1 in He1, Hp1, Hr1. fold s2 in He2, Hp2, Hr2.
  destruct (settled patches environ) as (Hd & Hl & Hlp & Hm).
  cbn zeta in *. rewrite <- He1 in Hd, Hl, Hlp, Hm.
  assert (environ_after s2 = environ_after s1) as He.
  { by rewrite He2, Hd, Hl, Hm. }
  split; [done|]. split.
  - rewrite Hr2, Hr1, Hd, Hl, Hm. by rewrite He1.
  - by rewrite Hp2, Hp1, Hd, Hlp.
Qed.
End Cognee.

(** ** The LiteLLM client behind the agent *)

Section LiteLLM.
Import LiteLLMWrapper.
Variable str_lower : string → string.

(** X23. With the LiteLLM client, the reply of [SimpleAgent.process] is the
    content of the first choice when the completion call returns one, and
    the client's own apology when it returns none; but when the completion
    call itself raises, the client's handler fails as well (it reads
    [MockResponse] before the [class] statement has run), so [invoke]
    raises and the reply is the generic fallback text of the agent, never
    the client's apology. *)
Theorem litellm_failure_gives_agent_fallback (self : SimpleAgent.t)
    (completion : list (string * string) → exn + Completion) (uuid clock : string)
    (msgs : list string) (user_id session_id tenant_id : string) :
  let w := world completion (SimpleAgent.self_model self) uuid clock in
  let asked := SimpleAgent.prompt str_lower self w msgs user_id session_id tenant_id in
  ∃ response,
    SimpleAgent.process str_lower self w msgs user_id session_id tenant_id = inr response
    ∧ match completion (map litellm_message asked) with
      | inl _ =>
          invoke completion (SimpleAgent.self_model self) asked
          = inl (unbound_local "MockResponse")
          ∧ r_messages response = [SimpleAgent.fallback_text]
          ∧ r_agent_usage response = []
      | inr c =>
          match choices c with
          | content :: _ =>
              r_messages response = [content]
              ∧ r_agent_usage response
                = [("input_tokens", pretty (default 0%Z (fst <$> usage c)));
                   ("output_tokens", pretty (default 0%Z (snd <$> usage c)));
                   ("model", SimpleAgent.self_model self)]
          | [] => r_messages response = [apology] ∧ r_agent_usage response = []
          end
      end
    ∧ SimpleAgent.fallback_text ≠ apology.
Proof.
  intros w asked.
  destruct (apply_skills_keeps str_lower self
              (SimpleAgent._process_message self w
                 (SimpleAgent.initial_state self msgs user_id session_id tenant_id)))
    as (Hu & Hs & Ha & Ht & Hc & Hg).
  assert (llm_invoke w asked = invoke completion (SimpleAgent.self_model self) asked)
    as Hinv by reflexivity.
  unfold SimpleAgent.process, SimpleAgent.graph_invoke.
  change (graph_fault w) with (@None exn). cbn [try_except].
  unfold SimpleAgent._generate_response.
  change (SimpleAgent.llm_messages self _) with asked. rewrite Hinv.
  unfold invoke. cbn zeta.
  destruct (completion (map litellm_message asked)) as [e|c].
  - eexists. split; [reflexivity|]. split; [|done].
    split; [done|]. split; [done|].
    cbn [r_agent_usage SimpleAgent.with_reply SimpleAgent.agent_usage]. by rewrite Hg.
  - destruct (choices c) as [|content rest].
    + eexists. split; [reflexivity|]. by split.
    + eexists. split; [reflexivity|]. by split.
Qed.
End LiteLLM.

(** ** What the LiteLLM patch passes on *)

Section PatchProps.
Import LiteLLMPatch.
Variable str_lower : string → string.
Variable OPENROUTER_API_KEY : option string.

Lemma get_set_item k k' v d :
  get_item k' (set_item k v d) = if decide (k = k') then Some v else get_item k' d.
Proof.
  induction d as [|[k0 v0] d IH]; cbn.
  - by repeat case_decide.
  - destruct (decide (k0 = k)) as [->|Hne]; cbn.
    + by repeat case_decide.
    + rewrite IH. repeat case_decide; congruence.
Qed.

Lemma set_item_id k v d : get_item k d = Some v → set_item k v d = d.
Proof.
  induction d as [|[k0 v0] d IH]; cbn; [done|].
  destruct (decide (k0 = k)) as [->|Hne]; [by intros [= ->]|].
  intros Hg. by rewrite IH.
Qed.

Lemma has_provider_mapped model model' :
  mapped str_lower model = Some model' → has_provider model' = true.
Proof.
  unfold mapped. destruct (has_provider model); [done|].
  assert (∀ p, String.prefix p (p +:+ model) = true) as Hp.
  { intros p. apply prefix_app. by exists model. }
  unfold has_provider.
  destruct (SimpleAgent.str_contains "gpt" _).
  { intros [= <-]. by rewrite Hp. }
  destruct (SimpleAgent.str_contains "claude" _).
  { intros [= <-]. rewrite (Hp "anthropic/"). by rewrite orb_true_r. }
  destruct (SimpleAgent.str_contains "gemini" _); [|done].
  intros [= <-]. rewrite (Hp "google/"). by rewrite !orb_true_r.
Qed.

Lemma mapped_has_provider model : has_provider model = true → mapped str_lower model = None.
Proof. intros H. unfold mapped. by rewrite H. Qed.

(** The keyword arguments passed on when the request goes to OpenRouter. *)
Lemma patched_openrouter (kwargs : Kwargs) key model headers :
  api_key_of OPENROUTER_API_KEY kwargs = VStr key →
  str_truthy key = true →
  String.prefix "sk-or-v1-" key = true →
  kwargs !! "model" = Some (VStr model) →
  default (VDict []) (kwargs !! "headers") = VDict headers →
  patched_completion str_lower OPENROUTER_API_KEY kwargs
  = inr (<["headers" :=
            VDict (set_item "X-Title" "LangGraph with Cognee"
                     (set_item "HTTP-Referer" "https://langgraph-cognee.local" headers))]>
           (<["model" := VStr (default model (mapped str_lower model))]>
              (<["api_key" := VStr key]>
                 (<["api_base" := default (VStr "https://openrouter.ai/api/v1")
                                          (kwargs !! "api_base")]> kwargs)))).
Proof.
  intros Hkey Ht Hp Hm Hh. unfold patched_completion. cbn zeta.
  rewrite Hkey. cbn [truthy]. rewrite Ht, Hp, Hm. cbn [from_option id].
  destruct (mapped str_lower model) as [model'|] eqn:Hmap; cbn [from_option id].
  - rewrite !lookup_insert_ne by done. rewrite Hh.
    rewrite lookup_insert_ne by done. by rewrite lookup_insert_eq.
  - rewrite !lookup_insert_ne by done. rewrite Hh.
    rewrite !lookup_insert_ne by done. rewrite Hm.
    f_equal. f_equal. symmetry. apply insert_id.
    by rewrite !lookup_insert_ne by done.
Qed.

Lemma prefix_truthy p key : String.prefix p key = true → str_truthy p = true → str_truthy key = true.
Proof. intros Hp Ht. destruct key; [by destruct p|done]. Qed.

Lemma api_key_of_insert (kwargs : Kwargs) key :
  str_truthy key = true →
  api_key_of OPENROUTER_API_KEY (<["api_key" := VStr key]> kwargs) = VStr key.
Proof. intros Ht. unfold api_key_of. rewrite lookup_insert_eq. cbn. by rewrite Ht. Qed.

Lemma api_key_of_other (kwargs : Kwargs) k v :
  k ≠ "api_key" →
  api_key_of OPENROUTER_API_KEY (<[k := v]> kwargs) = api_key_of OPENROUTER_API_KEY kwargs.
Proof. intros Hne. unfold api_key_of. by rewrite lookup_insert_ne. Qed.

(** X24. When the API key in use is an OpenRouter key and the model is
    given as a keyword, the patch passes on the caller's keyword arguments
    with the key, with the caller's [api_base] (the OpenRouter endpoint when
    there is none), with the two OpenRouter headers added to the caller's
    headers, and with the model under a provider prefix whenever its name
    already has one or contains [gpt], [claude] or [gemini]; no other
    keyword argument is touched. *)
Theorem patched_completion_routes (kwargs : Kwargs) (key model : string)
    (headers : list (string * string)) :
  api_key_of OPENROUTER_API_KEY kwargs = VStr key →
  String.prefix "sk-or-v1-" key = true →
  kwargs !! "model" = Some (VStr model) →
  default (VDict []) (kwargs !! "headers") = VDict headers →
  ∃ kwargs' model' headers',
    patched_completion str_lower OPENROUTER_API_KEY kwargs = inr kwargs'
    ∧ kwargs' !! "api_key" = Some (VStr key)
    ∧ kwargs' !! "api_base"
      = Some (default (VStr "https://openrouter.ai/api/v1") (kwargs !! "api_base"))
    ∧ kwargs' !! "model" = Some (VStr model')
    ∧ model' = default model (mapped str_lower model)
    ∧ (has_provider model
       || SimpleAgent.str_contains "gpt" (str_lower model)
       || SimpleAgent.str_contains "claude" (str_lower model)
       || SimpleAgent.str_contains "gemini" (str_lower model) = true →
       has_provider model' = true)
    ∧ kwargs' !! "headers" = Some (VDict headers')
    ∧ get_item "HTTP-Referer" headers' = Some "https://langgraph-cognee.local"
    ∧ get_item "X-Title" headers' = Some "LangGraph with Cognee"
    ∧ (∀ k, k ≠ "HTTP-Referer" → k ≠ "X-Title" → get_item k headers' = get_item k headers)
    ∧ (∀ k, k ∉ ["api_key"; "api_base"; "model"; "headers"] → kwargs' !! k = kwargs !! k).
Proof.
  intros Hkey Hp Hm Hh.
  assert (str_truthy key = true) as Ht by (by eapply prefix_truthy).
  eexists _, _, _. split; [by apply patched_openrouter|].
  split; [by rewrite !lookup_insert_ne, lookup_insert_eq by done|].
  split; [by rewrite !lookup_insert_ne, lookup_insert_eq by done|].
  split; [by rewrite !lookup_insert_ne, lookup_insert_eq by done|].
  split; [done|]. split.
  { intros Hany. destruct (mapped str_lower model) as [model'|] eqn:Hmap; cbn.
    - by eapply has_provider_mapped.
    - unfold mapped in Hmap. destruct (has_provider model); [done|]. cbn in Hany.
      destruct (SimpleAgent.str_contains "gpt" _); [done|].
      destruct (SimpleAgent.str_contains "claude" _); [done|].
      by destruct (SimpleAgent.str_contains "gemini" _). }
  split; [by rewrite lookup_insert_eq|].
  split; [by rewrite !get_set_item; repeat case_decide|].
  split; [by rewrite !get_set_item; repeat case_decide|].
  split.
  - intros k Hk1 Hk2. rewrite !get_set_item. by rewrite !decide_False by done.
  - intros k Hk. repeat (apply not_elem_of_cons in Hk as [? Hk]).
    by rewrite !lookup_insert_ne by done.
Qed.

(** X25. The patch is idempotent: applied to the keyword arguments it has
    passed on, it passes them on unchanged; a model name it has prefixed is
    not prefixed again and the headers are not added twice. *)
Theorem patched_completion_idempotent (kwargs kwargs' : Kwargs) :
  patched_completion str_lower OPENROUTER_API_KEY kwargs = inr kwargs' →
  patched_completion str_lower OPENROUTER_API_KEY kwargs' = inr kwargs'.
Proof.
  intros Hrun. pose proof Hrun as Hrun0. unfold patched_completion in Hrun. cbn zeta in Hrun.
  destruct (truthy (api_key_of OPENROUTER_API_KEY kwargs)) eqn:Htruthy;
    [|by inversion Hrun; subst].
  destruct (api_key_of OPENROUTER_API_KEY kwargs) as [|key|?|? ?] eqn:Hkey; try done.
  destruct (String.prefix "sk-or-v1-" key) eqn:Hp; [|by inversion Hrun; subst].
  cbn [truthy] in Htruthy.
  destruct (default (VStr "") (kwargs !! "model")) as [|model|?|? ?] eqn:Hmodel; try done.
  set (kwargs2 := <["api_key" := VStr key]>
                    (<["api_base" := default (VStr "https://openrouter.ai/api/v1")
                                             (kwargs !! "api_base")]> kwargs)) in Hrun.
  set (kwargs3 := match mapped str_lower model with
                  | Some model' => <["model" := VStr model']> kwargs2
                  | None => kwargs2
                  end) in Hrun.
  destruct (default (VDict []) (kwargs3 !! "headers")) as [| |headers|] eqn:Hh; try done.
  set (headers' := set_item "X-Title" "LangGraph with Cognee"
                     (set_item "HTTP-Referer" "https://langgraph-cognee.local" headers))
    in Hrun.
  destruct (<["headers" := VDict headers']> kwargs3 !! "model") as [v|] eqn:Hlook; [|done].
  inversion Hrun as [Hk']. clear Hrun.
  rewrite lookup_insert_ne in Hlook by done.
  assert (∃ model2, kwargs3 !! "model" = Some (VStr model2)
                    ∧ mapped str_lower model2 = None) as (model2 & Hm2 & Hmap2).
  { subst kwargs3. destruct (mapped str_lower model) as [model'|] eqn:Hmap.
    - exists model'. rewrite lookup_insert_eq. split; [done|].
      apply mapped_has_provider. by eapply has_provider_mapped.
    - exists model. subst kwargs2. rewrite !lookup_insert_ne in Hlook by done.
      rewrite Hlook in Hmodel. cbn in Hmodel. subst v.
      by rewrite !lookup_insert_ne by done. }
  assert (kwargs3 !! "api_key" = Some (VStr key)) as Hk3.
  { subst kwargs3 kwargs2. destruct (mapped str_lower model);
      by rewrite ?lookup_insert_ne, lookup_insert_eq by done. }
  assert (is_Some (kwargs3 !! "api_base")) as [base Hb3].
  { subst kwargs3 kwargs2. destruct (mapped str_lower model);
      rewrite !lookup_insert_ne by done; rewrite lookup_insert_eq; by eexists. }
  rewrite (patched_openrouter _ key model2 headers').
  - f_equal. rewrite !lookup_insert_ne by done. rewrite Hb3, Hmap2. cbn [from_option id].
    assert (set_item "X-Title" "LangGraph with Cognee"
              (set_item "HTTP-Referer" "https://langgraph-cognee.local" headers')
            = headers') as ->.
    { rewrite (set_item_id "HTTP-Referer") by (subst headers'; by rewrite !get_set_item).
      apply set_item_id. subst headers'. by rewrite !get_set_item. }
    rewrite (insert_id _ "api_base") by (by rewrite lookup_insert_ne).
    rewrite (insert_id _ "api_key") by (by rewrite lookup_insert_ne).
    rewrite (insert_id _ "model") by (by rewrite lookup_insert_ne).
    apply insert_id. by rewrite lookup_insert_eq.
  - unfold api_key_of. rewrite lookup_insert_ne by done. rewrite Hk3. cbn.
    by rewrite Htruthy.
  - done.
  - done.
  - by rewrite lookup_insert_ne.
  - by rewrite lookup_insert_eq.
Qed.

(** X26. When an OpenRouter key is in use and the model is not given as a
    keyword (it is passed positionally, or not at all), the patch raises
    before it reaches the original [completion]: [KeyError] for ['model']
    in its log line when the [headers] keyword is absent or a dictionary,
    and [AttributeError] for [update] when [headers] is anything else
    ([None], say).  ([str_lower] stands for [str.lower], which maps the
    empty string to itself.) *)
Theorem patched_completion_needs_model_keyword (kwargs : Kwargs) (key : string) :
  str_lower "" = "" →
  api_key_of OPENROUTER_API_KEY kwargs = VStr key →
  String.prefix "sk-or-v1-" key = true →
  kwargs !! "model" = None →
  patched_completion str_lower OPENROUTER_API_KEY kwargs
  = inl (match default (VDict []) (kwargs !! "headers") with
         | VDict _ => key_error "model"
         | other => attribute_error other "update"
         end).
Proof.
  intros Hlow Hkey Hp Hm.
  assert (str_truthy key = true) as Ht by (by eapply prefix_truthy).
  unfold patched_completion. cbn zeta. rewrite Hkey. cbn [truthy].
  rewrite Ht, Hp, Hm. cbn [from_option id].
  assert (mapped str_lower "" = None) as -> by (unfold mapped; by rewrite Hlow).
  rewrite !lookup_insert_ne by done.
  destruct (default (VDict []) (kwargs !! "headers")) as [|s|headers|name truth]; try done.
  rewrite !lookup_insert_ne by done. by rewrite Hm.
Qed.
End PatchProps.

Lemma patched_completion_routes_witness :
  let kwargs : LiteLLMPatch.Kwargs :=
    <["model" := LiteLLMPatch.VStr "gpt-4o"]>
      (<["messages" := LiteLLMPatch.VOther "list" true]> ∅) in
  ∃ kwargs',
    LiteLLMPatch.patched_completion lower (Some "sk-or-v1-abc") kwargs = inr kwargs'
    ∧ kwargs' !! "model" = Some (LiteLLMPatch.VStr "openai/gpt-4o")
    ∧ kwargs' !! "messages" = Some (LiteLLMPatch.VOther "list" true).
Proof.
  intros kwargs.
  destruct (patched_completion_routes lower (Some "sk-or-v1-abc") kwargs "sk-or-v1-abc"
              "gpt-4o" [] eq_refl eq_refl eq_refl eq_refl)
    as (kwargs' & model' & headers' & Hrun & _ & _ & Hm & Hm' & _ & _ & _ & _ & _ & Hother).
  exists kwargs'. split; [exact Hrun|]. split.
  - rewrite Hm, Hm'. reflexivity.
  - rewrite Hother; [reflexivity|].
    repeat (apply not_elem_of_cons; split; [discriminate|]). apply not_elem_of_nil.
Defined.

Lemma patched_completion_idempotent_witness :
  let kwargs : LiteLLMPatch.Kwargs :=
    <["model" := LiteLLMPatch.VStr "claude-3-haiku"]>
      (<["api_key" := LiteLLMPatch.VStr "sk-or-v1-abc"]> ∅) in
  match LiteLLMPatch.patched_completion lower None kwargs with
  | inr kwargs' => LiteLLMPatch.patched_completion lower None kwargs' = inr kwargs'
  | inl _ => False
  end.
Proof.
  intros kwargs.
  destruct (LiteLLMPatch.patched_completion lower None kwargs) as [e|kwargs'] eqn:Hrun.
  - exfalso. vm_compute in Hrun. discriminate Hrun.
  - exact (patched_completion_idempotent lower None kwargs kwargs' Hrun).
Defined.

Lemma patched_completion_needs_model_keyword_witness :
  let kwargs : LiteLLMPatch.Kwargs :=
    <["api_key" := LiteLLMPatch.VStr "sk-or-v1-abc"]>
      (<["messages" := LiteLLMPatch.VOther "list" true]> ∅) in
  let kwargs' : LiteLLMPatch.Kwargs := <["headers" := LiteLLMPatch.VNone]> kwargs in
  LiteLLMPatch.patched_completion lower None kwargs = inl "'model'"
  ∧ LiteLLMPatch.patched_completion lower None kwargs'
    = inl "'NoneType' object has no attribute 'update'".
Proof.
  intros kwargs kwargs'. split.
  - exact (patched_completion_needs_model_keyword lower None kwargs "sk-or-v1-abc"
             eq_refl eq_refl eq_refl eq_refl).
  - exact (patched_completion_needs_model_keyword lower None kwargs' "sk-or-v1-abc"
             eq_refl eq_refl eq_refl eq_refl).
Defined.

(** ** The session id of a dispatched message *)

Lemma deref_insert_eq (h : heap) l m : (l < length h)%nat → deref (<[l := m]> h) l = m.
Proof. intros Hl. unfold deref. by rewrite list_lookup_insert_eq. Qed.

Lemma deref_insert_ne (h : heap) l l' m : l ≠ l' → deref (<[l := m]> h) l' = deref h l'.
Proof. intros Hne. unfold deref. by rewrite list_lookup_insert_ne. Qed.

Lemma message_body_heap env agent agent_config cls tick l (h : heap) :
  (message_body env agent agent_config cls tick l h).1
  = if opt_truthy (session_id (deref h l)) then h
    else <[l := set_session_id (uuid4 (outside env tick)) (deref h l)]> h.
Proof.
  unfold message_body. cbn [body_run body_seg].
  destruct (match cls with Some _ => _ | None => _ end) as [e|r]; [done|].
  destruct (r_messages r); [done|]. cbn [body_run body_seg].
  by destruct (str_truthy _).
Qed.

Lemma for_messages_heap env agent agent_config cls msgs : ∀ tick (h : heap),
  length (for_messages env agent agent_config cls tick msgs h).1 = length h
  ∧ ∀ l, l ∉ msgs →
         deref (for_messages env agent agent_config cls tick msgs h).1 l = deref h l.
Proof.
  induction msgs as [|l0 msgs IH]; intros tick h; [done|].
  cbn [for_messages].
  pose proof (message_body_heap env agent agent_config cls tick l0 h) as Hb.
  destruct (message_body env agent agent_config cls tick l0 h) as [h1 ev].
  destruct (IH (S tick) h1) as [Hlen Hframe].
  destruct (for_messages env agent agent_config cls (S tick) msgs h1) as [h2 out].
  cbn [fst] in *. subst h1. split.
  - rewrite Hlen. destruct (opt_truthy _); [done|]. by rewrite length_insert.
  - intros l [Hne Hl]%not_elem_of_cons. rewrite Hframe by done.
    destruct (opt_truthy _); [done|]. by rewrite deref_insert_ne.
Qed.

(** X27. Every message handed to the loop of [process_agent_messages] leaves
    it with a session id: the one it came with when that was non-empty,
    else the uuid generated in its own iteration; a later iteration never
    changes it, and messages outside the group are not touched. *)
Theorem dispatched_message_has_session (env : Env) (agent : string)
    (agent_config : AgentConfig) (cls : option AgentClass) (msgs : list loc) (tick : nat)
    (h : heap) (i : nat) (l : loc) :
  NoDup msgs → msgs !! i = Some l → (l < length h)%nat →
  let h' := (for_messages env agent agent_config cls tick msgs h).1 in
  session_id (deref h' l)
  = (if opt_truthy (session_id (deref h l)) then session_id (deref h l)
     else Some (uuid4 (outside env (tick + i))))
  ∧ is_Some (session_id (deref h' l))
  ∧ length h' = length h
  ∧ ∀ l', l' ∉ msgs → deref h' l' = deref h l'.
Proof.
  intros Hnd Hi Hl h'.
  assert (session_id (deref h' l)
          = (if opt_truthy (session_id (deref h l)) then session_id (deref h l)
             else Some (uuid4 (outside env (tick + i))))) as Hs.
  { subst h'. revert tick h i Hi Hl. induction msgs as [|l0 msgs IH];
      intros tick h i Hi Hl; [done|].
    apply NoDup_cons in Hnd as [Hl0 Hnd]. cbn [for_messages].
    pose proof (message_body_heap env agent agent_config cls tick l0 h) as Hb.
    destruct (message_body env agent agent_config cls tick l0 h) as [h1 ev].
    pose proof (for_messages_heap env agent agent_config cls msgs (S tick) h1)
      as [Hlen Hframe].
    specialize (IH Hnd (S tick) h1).
    destruct (for_messages env agent agent_config cls (S tick) msgs h1) as [h2 out].
    cbn [fst] in *. subst h1. destruct i as [|i].
    - inversion Hi; subst l0. rewrite Hframe by done. rewrite Nat.add_0_r.
      destruct (opt_truthy (session_id (deref h l))) eqn:Ht; [done|].
      by rewrite deref_insert_eq.
    - cbn in Hi. assert (l ≠ l0) as Hne.
      { intros ->. apply Hl0. by eapply list_elem_of_lookup_2. }
      rewrite (IH i Hi).
      + replace (S tick + i)%nat with (tick + S i)%nat by lia.
        destruct (opt_truthy (session_id (deref h l0))); [done|].
        by rewrite !deref_insert_ne.
      + destruct (opt_truthy (session_id (deref h l0))); [done|].
        by rewrite length_insert. }
  split; [done|]. split.
  { rewrite Hs. destruct (opt_truthy (session_id (deref h l))) eqn:Ht; [|done].
    destruct (session_id (deref h l)); [done|by cbn in Ht]. }
  apply for_messages_heap.
Qed.

Lemma dispatched_message_has_session_witness :
  let env := Scenario.deployment Scenario.calm in
  let h := [Scenario.message "oi" "a" "u" (Some "s1") 1000;
            Scenario.message "tudo bem?" "a" "u" None 1000] in
  let h' := (for_messages env "a" (Scenario.agent "a" "http://hook")
               (Some (simple_agent_class lower None)) 0 [0; 1]%nat h).1 in
  session_id (deref h' 0) = Some "s1" ∧ session_id (deref h' 1) = Some "uuid-1".
Proof.
  intros env h h'. split.
  - exact (proj1 (dispatched_message_has_session env "a" (Scenario.agent "a" "http://hook")
                    (Some (simple_agent_class lower None)) [0; 1]%nat 0 h 0 0
                    (NoDup_seq 0 2) eq_refl (le_S _ _ (le_n 1)))).
  - exact (proj1 (dispatched_message_has_session env "a" (Scenario.agent "a" "http://hook")
                    (Some (simple_agent_class lower None)) [0; 1]%nat 0 h 1 1
                    (NoDup_seq 0 2) eq_refl (le_n 2))).
Defined.

(** ** A debounce interval beyond the range of a float *)




